(** * mongo-centralized: the connection lifecycle of [src/index.js]

    The module keeps two module-level variables, [client] and
    [clientPromise], and exposes asynchronous functions over them.  The
    embedding below is an event-loop machine:

    - every invocation of an async function allocates its own promise and
      runs synchronously up to its first [await], where it leaves a
      suspended frame holding its local variables;
    - the host and the driver act through labels: calling an operation,
      settling a driver promise, advancing the clock, firing a timer,
      delivering a signal, resuming a frame whose awaited promise is settled.

    Calls into the driver ([new MongoClient], [connect], [close], [db],
    [collection]), timers, [console] lines and [process.exit] are recorded in
    a trace.  The driver's constructor, [connect] and [close] are taken to
    return (a client, a promise) rather than throw synchronously.  Settled
    frames may be resumed in any order, which includes the first-in-first-out
    order of the job queue; the clock is logical, and a timer can fire only
    once the clock has reached its deadline. *)

From stdpp Require Import base option list gmap strings fin_maps.
From Stdlib Require Import ZArith Lia.

(** ** Values *)

Inductive Value :=
| VUndefined
| VNull
| VBool (b : bool)
| VNum (z : Z)
| VStr (s : string)
| VError (msg : string)            (* [new Error(msg)] *)
| VTypeError                       (* raised by the engine on [x.db] for a non-object [x] *)
| VConn (n : nat)                  (* the connected client a driver [connect] resolves to *)
| VDb (conn : nat) (dbName : string)
| VColl (conn : nat) (dbName collName : string) (error : Value).

(** JavaScript truthiness, as used by [if (collection.error)]. *)
Definition truthy (v : Value) : bool :=
  match v with
  | VUndefined | VNull => false
  | VBool b => b
  | VNum z => negb (z =? 0)%Z
  | VStr s => match s with EmptyString => false | _ => true end
  | _ => true
  end.

(** An options object: property name to value. *)
Abbreviation Options := (gmap string Value).

(** [const defaultOptions = { useNewUrlParser: true, useUnifiedTopology: true, maxPoolSize: 10 }] *)
Definition defaultOptions : Options :=
  <["maxPoolSize"%string := VNum 10]>
    (<["useUnifiedTopology"%string := VBool true]>
       (<["useNewUrlParser"%string := VBool true]> ∅)).

(** Reading a property of an object: a missing key reads as [undefined]. *)
Definition prop (o : Options) (k : string) : Value := default VUndefined (o !! k).

Definition MAX_RETRIES : nat := 5.
Definition RETRY_DELAY : nat := 5000.

(** ** The machine state *)

(** A module-level [let] variable holding an object reference. *)
Inductive Slot :=
| SUndefined
| SNull
| SRef (n : nat).

Inductive PKind :=
| PConnect (cid : nat)      (* returned by [client.connect()] *)
| PClose (cid : nat)        (* returned by [client.close()] *)
| PTimer (deadline : nat)   (* [new Promise(resolve => setTimeout(resolve, d))] *)
| PAsync.                   (* the promise of an async function invocation *)

Inductive PStatus :=
| Pending
| Fulfilled (v : Value)
| Rejected (e : Value).

Record Promise := { pkind : PKind; pstatus : PStatus }.

Inductive Frame :=
| FConnectAwait (url : string) (options : Options) (retries : nat) (r : nat)
    (* connectToDatabase at [await clientPromise] *)
| FConnectSleep (url : string) (options : Options) (retries : nat) (r : nat)
    (* connectToDatabase at [await new Promise(... setTimeout ...)] *)
| FForward (r : nat)
    (* an async function returned a promise: its own promise [r] adopts it *)
| FGetDatabase (dbName : string) (r : nat)
| FGetCollection (dbName collName : string) (r : nat)
| FInitialize (r : nat)
| FClose (r : nat)
    (* closeDatabase at [await client.close()] *)
| FShutdown.
    (* the callback of [server.close] at [await closeDatabase()] *)

Record Task := { awaiting : nat; frame : Frame }.

Inductive Signal := SIGTERM | SIGINT.

Inductive LogLine :=
| LogInitialFailed (e : Value)
| LogRetry (n : nat) (ms : nat)
| LogConnected
| LogInitialized
| LogClosed
| LogServerClosed.

Inductive Event :=
| EvNewClient (cid : nat) (url : string) (options : Options)
| EvConnect (cid : nat)
| EvClose (cid : nat)
| EvSetTimeout (ms : nat)
| EvServerClose (srv : nat)
| EvExit (code : Z)
| EvLog (l : LogLine).

Record State := {
  client : Slot;
  clientPromise : Slot;
  clients : list (string * Options);   (* the MongoClient instances built so far *)
  promises : list Promise;
  tasks : list Task;
  handlers : list (Signal * nat);      (* [process.on] registrations, with their server *)
  closing : list nat;                  (* callbacks handed to [server.close], not yet invoked *)
  now : nat;
  exited : option Z;
  trace : list Event
}.

Definition init_state : State :=
  {| client := SUndefined; clientPromise := SUndefined; clients := [];
     promises := []; tasks := []; handlers := []; closing := [];
     now := 0; exited := None; trace := [] |}.

Definition set_client (c : Slot) (s : State) : State :=
  {| client := c; clientPromise := clientPromise s; clients := clients s;
     promises := promises s; tasks := tasks s; handlers := handlers s;
     closing := closing s; now := now s; exited := exited s; trace := trace s |}.

Definition set_clientPromise (c : Slot) (s : State) : State :=
  {| client := client s; clientPromise := c; clients := clients s;
     promises := promises s; tasks := tasks s; handlers := handlers s;
     closing := closing s; now := now s; exited := exited s; trace := trace s |}.

Definition set_clients (l : list (string * Options)) (s : State) : State :=
  {| client := client s; clientPromise := clientPromise s; clients := l;
     promises := promises s; tasks := tasks s; handlers := handlers s;
     closing := closing s; now := now s; exited := exited s; trace := trace s |}.

Definition set_promises (l : list Promise) (s : State) : State :=
  {| client := client s; clientPromise := clientPromise s; clients := clients s;
     promises := l; tasks := tasks s; handlers := handlers s;
     closing := closing s; now := now s; exited := exited s; trace := trace s |}.

Definition set_tasks (l : list Task) (s : State) : State :=
  {| client := client s; clientPromise := clientPromise s; clients := clients s;
     promises := promises s; tasks := l; handlers := handlers s;
     closing := closing s; now := now s; exited := exited s; trace := trace s |}.

Definition set_handlers (l : list (Signal * nat)) (s : State) : State :=
  {| client := client s; clientPromise := clientPromise s; clients := clients s;
     promises := promises s; tasks := tasks s; handlers := l;
     closing := closing s; now := now s; exited := exited s; trace := trace s |}.

Definition set_closing (l : list nat) (s : State) : State :=
  {| client := client s; clientPromise := clientPromise s; clients := clients s;
     promises := promises s; tasks := tasks s; handlers := handlers s;
     closing := l; now := now s; exited := exited s; trace := trace s |}.

Definition set_now (n : nat) (s : State) : State :=
  {| client := client s; clientPromise := clientPromise s; clients := clients s;
     promises := promises s; tasks := tasks s; handlers := handlers s;
     closing := closing s; now := n; exited := exited s; trace := trace s |}.

Definition set_exited (c : option Z) (s : State) : State :=
  {| client := client s; clientPromise := clientPromise s; clients := clients s;
     promises := promises s; tasks := tasks s; handlers := handlers s;
     closing := closing s; now := now s; exited := c; trace := trace s |}.

Definition emit (e : Event) (s : State) : State :=
  {| client := client s; clientPromise := clientPromise s; clients := clients s;
     promises := promises s; tasks := tasks s; handlers := handlers s;
     closing := closing s; now := now s; exited := exited s; trace := trace s ++ [e] |}.

(** A fresh pending promise; its identity is its position in the store. *)
Definition alloc (k : PKind) (s : State) : nat * State :=
  (length (promises s),
   set_promises (promises s ++ [{| pkind := k; pstatus := Pending |}]) s).

Definition settle (p : nat) (st : PStatus) (s : State) : State :=
  set_promises (alter (λ pr, {| pkind := pkind pr; pstatus := st |}) p (promises s)) s.

(** The running function stops at [await p]; [f] is what remains of it. *)
Definition suspend (p : nat) (f : Frame) (s : State) : State :=
  set_tasks (tasks s ++ [{| awaiting := p; frame := f |}]) s.

Definition status (s : State) (p : nat) : option PStatus :=
  pstatus <$> promises s !! p.

(** ** The functions of [index.js] *)

Definition exhausted_error : Value :=
  VError "Failed to connect to database after several attempts."%string.

(** [client.db(dbName)] on the value a connection attempt resolved to. *)
Definition db_of (c : Value) (dbName : string) : Value + Value :=
  match c with
  | VConn n => inl (VDb n dbName)
  | _ => inr VTypeError
  end.

Section Manager.

(** The two constants of the module, kept general; the module itself
    runs with [MAX_RETRIES] and [RETRY_DELAY]. *)
Variable maxRetries : nat.
Variable retryDelay : nat.

(** The driver's answer to [db.collection(name)]: the [error] property of
    the handle it returns. *)
Variable collectionError : nat → string → string → Value.

Definition collection_of (db : Value) (collName : string) : Value + Value :=
  match db with
  | VDb n dbName => inl (VColl n dbName collName (collectionError n dbName collName))
  | _ => inr VTypeError
  end.

Definition error_of (coll : Value) : Value :=
  match coll with
  | VColl _ _ _ e => e
  | _ => VUndefined
  end.

(** [return clientPromise] at the end of connectToDatabase: the function's
    promise [r] adopts the promise the variable holds at that moment, or is
    fulfilled with the variable's value when it holds none. *)
Definition return_clientPromise (r : nat) (s : State) : State :=
  match clientPromise s with
  | SRef p => suspend p (FForward r) s
  | SNull => settle r (Fulfilled VNull) s
  | SUndefined => settle r (Fulfilled VUndefined) s
  end.

(** [async function connectToDatabase(url, options, retries = 0)], from its
    entry to its first suspension.  Returns the promise of the call. *)
Definition connectToDatabase (url : string) (options : Options) (retries : nat)
    (s : State) : nat * State :=
  let '(r, s) := alloc PAsync s in
  match clientPromise s with
  | SRef _ => (r, return_clientPromise r s)
  | _ =>
      (* client = new MongoClient(url, options) *)
      let cid := length (clients s) in
      let s := emit (EvNewClient cid url options)
                 (set_client (SRef cid) (set_clients (clients s ++ [(url, options)]) s)) in
      (* clientPromise = client.connect(); await clientPromise *)
      let '(p, s) := alloc (PConnect cid) (emit (EvConnect cid) s) in
      let s := set_clientPromise (SRef p) s in
      (r, suspend p (FConnectAwait url options retries r) s)
  end.

(** [async function getDatabase(url, options, dbName)] up to its await. *)
Definition getDatabase (url : string) (options : Options) (dbName : string)
    (s : State) : nat * State :=
  let '(r, s) := alloc PAsync s in
  let '(c, s) := connectToDatabase url options 0 s in
  (r, suspend c (FGetDatabase dbName r) s).

(** [async function getCollection(url, options, dbName, collectionName)]. *)
Definition getCollection (url : string) (options : Options) (dbName collName : string)
    (s : State) : nat * State :=
  let '(r, s) := alloc PAsync s in
  let '(c, s) := connectToDatabase url options 0 s in
  (r, suspend c (FGetCollection dbName collName r) s).

(** [async function initializeDatabase(url, options)]. *)
Definition initializeDatabase (url : string) (options : Options)
    (s : State) : nat * State :=
  let '(r, s) := alloc PAsync s in
  let '(c, s) := connectToDatabase url options 0 s in
  (r, suspend c (FInitialize r) s).

(** [async function closeDatabase()]. *)
Definition closeDatabase (s : State) : nat * State :=
  let '(r, s) := alloc PAsync s in
  match client s with
  | SRef cid =>
      let '(p, s) := alloc (PClose cid) (emit (EvClose cid) s) in
      (r, suspend p (FClose r) s)
  | _ => (r, settle r (Fulfilled VUndefined) s)
  end.

(** The inner [shutdown()] of setupGracefulShutdown: [server.close(cb)]. *)
Definition shutdown (srv : nat) (s : State) : State :=
  set_closing (closing s ++ [srv]) (emit (EvServerClose srv) s).

(** The callback given to [server.close], up to [await closeDatabase()]. *)
Definition shutdown_callback (s : State) : State :=
  let s := emit (EvLog LogServerClosed) s in
  let '(c, s) := closeDatabase s in
  suspend c FShutdown s.

(** [function setupGracefulShutdown(server)]: two [process.on] calls. *)
Definition setupGracefulShutdown (srv : nat) (s : State) : State :=
  set_handlers (handlers s ++ [(SIGTERM, srv); (SIGINT, srv)]) s.

(** What a frame does when the promise it awaits has settled. *)
Definition resume (f : Frame) (out : PStatus) (s : State) : State :=
  match f, out with
  | _, Pending => s
  | FConnectAwait url options retries r, Fulfilled _ =>
      return_clientPromise r s
  | FConnectAwait url options retries r, Rejected e =>
      let s := emit (EvLog (LogInitialFailed e)) s in
      let s := set_clientPromise SNull s in
      if (retries <? maxRetries)%nat then
        let retries := S retries in
        let s := emit (EvLog (LogRetry retries retryDelay)) s in
        let '(t, s) := alloc (PTimer (now s + retryDelay)) (emit (EvSetTimeout retryDelay) s) in
        suspend t (FConnectSleep url options retries r) s
      else
        settle r (Rejected exhausted_error) s
  | FConnectSleep url options retries r, Fulfilled _ =>
      (* return connectToDatabase(url, options, retries) *)
      let '(c, s) := connectToDatabase url options retries s in
      suspend c (FForward r) s
  | FConnectSleep url options retries r, Rejected e =>
      settle r (Rejected e) s
  | FForward r, _ => settle r out s
  | FGetDatabase dbName r, Fulfilled c =>
      match db_of c dbName with
      | inl db => settle r (Fulfilled db) s
      | inr e => settle r (Rejected e) s
      end
  | FGetCollection dbName collName r, Fulfilled c =>
      match db_of c dbName with
      | inl db =>
          let s := emit (EvLog LogConnected) s in
          match collection_of db collName with
          | inl coll =>
              if truthy (error_of coll)
              then settle r (Rejected (error_of coll)) s
              else settle r (Fulfilled coll) s
          | inr e => settle r (Rejected e) s
          end
      | inr e => settle r (Rejected e) s
      end
  | FInitialize r, Fulfilled _ =>
      settle r (Fulfilled VUndefined) (emit (EvLog LogInitialized) s)
  | FClose r, Fulfilled _ =>
      let s := set_clientPromise SNull (set_client SNull s) in
      settle r (Fulfilled VUndefined) (emit (EvLog LogClosed) s)
  | FGetDatabase _ r, Rejected e
  | FGetCollection _ _ r, Rejected e
  | FInitialize r, Rejected e
  | FClose r, Rejected e => settle r (Rejected e) s
  | FShutdown, Fulfilled _ =>
      (* process.exit(0) *)
      set_exited (Some 0%Z) (emit (EvExit 0) s)
  | FShutdown, Rejected _ => s
  end.

(** ** Labels and steps *)

(** The functions a caller can invoke.  [connectToDatabase] and
    [closeDatabase] are not exported; they are listed so that they can be
    studied on their own, as the exported functions and the shutdown callback
    call them. *)
Inductive Op :=
| OpConnect (url : string) (options : Options)
| OpGetDatabase (url : string) (options : Options) (dbName : string)
| OpGetCollection (url : string) (options : Options) (dbName collName : string)
| OpInitialize (url : string) (options : Options)
| OpClose.

Definition call (op : Op) (s : State) : nat * State :=
  match op with
  | OpConnect url options => connectToDatabase url options 0 s
  | OpGetDatabase url options dbName => getDatabase url options dbName s
  | OpGetCollection url options dbName collName =>
      getCollection url options dbName collName s
  | OpInitialize url options => initializeDatabase url options s
  | OpClose => closeDatabase s
  end.

Inductive Label :=
| LCall (op : Op)                          (* the host calls a function *)
| LSetup (srv : nat)                       (* the host calls setupGracefulShutdown(srv) *)
| LSignal (sig : Signal)                   (* the process receives a signal *)
| LServerClosed (i : nat)                  (* the server invokes a callback given to [close] *)
| LSettle (p : nat) (out : Value + Value)  (* the driver settles a [connect] or [close] promise *)
| LAdvance (dt : nat)                      (* time passes *)
| LTimer (p : nat)                         (* a timer that is due fires *)
| LResume (t : nat).                       (* a frame whose promise is settled runs on *)

Definition signal_eqb (a b : Signal) : bool :=
  match a, b with
  | SIGTERM, SIGTERM | SIGINT, SIGINT => true
  | _, _ => false
  end.

Definition listeners (sig : Signal) (s : State) : list nat :=
  snd <$> filter (λ h, signal_eqb (fst h) sig = true) (handlers s).

Definition outcome (out : Value + Value) : PStatus :=
  match out with
  | inl v => Fulfilled v
  | inr e => Rejected e
  end.

(** One step of the machine; [None] when the label is not enabled.  Nothing
    runs after [process.exit].  A signal with no listener is left to the host
    (its default action ends the process without entering the module). *)
Definition step (l : Label) (s : State) : option State :=
  match exited s with
  | Some _ => None
  | None =>
    match l with
    | LCall op => Some (snd (call op s))
    | LSetup srv => Some (setupGracefulShutdown srv s)
    | LSignal sig =>
        match listeners sig s with
        | [] => None
        | ls => Some (foldl (λ s srv, shutdown srv s) s ls)
        end
    | LServerClosed i =>
        match closing s !! i with
        | Some _ => Some (shutdown_callback (set_closing (delete i (closing s)) s))
        | None => None
        end
    | LSettle p out =>
        match promises s !! p with
        | Some {| pkind := PConnect _; pstatus := Pending |}
        | Some {| pkind := PClose _; pstatus := Pending |} =>
            Some (settle p (outcome out) s)
        | _ => None
        end
    | LAdvance dt => Some (set_now (now s + dt) s)
    | LTimer p =>
        match promises s !! p with
        | Some {| pkind := PTimer d; pstatus := Pending |} =>
            if (d <=? now s)%nat then Some (settle p (Fulfilled VUndefined) s) else None
        | _ => None
        end
    | LResume t =>
        match tasks s !! t with
        | Some tk =>
            match status s (awaiting tk) with
            | Some Pending | None => None
            | Some out => Some (resume (frame tk) out (set_tasks (delete t (tasks s)) s))
            end
        | None => None
        end
    end
  end.

Fixpoint exec (ls : list Label) (s : State) : option State :=
  match ls with
  | [] => Some s
  | l :: ls =>
      match step l s with
      | Some s' => exec ls s'
      | None => None
      end
  end.

Definition reachable (s : State) : Prop := ∃ ls, exec ls init_state = Some s.

End Manager.

(** ** [module.exports.init] *)

(** The object [init] returns: each entry is the call it forwards to
    ([setupGracefulShutdown] is passed through unchanged). *)
Record Instance := {
  inst_initializeDatabase : Op;
  inst_getDatabase : string → Op;
  inst_getCollection : string → string → Op
}.

(** [init(urlConnection, maxPoolSize)]; an omitted argument is [undefined].
    [{ ...defaultOptions, maxPoolSize }] copies the defaults and then writes
    the [maxPoolSize] property with the argument's value. *)
Definition init (urlConnection : string) (maxPoolSize : Value) : Instance :=
  let options := <["maxPoolSize"%string := maxPoolSize]> defaultOptions in
  {| inst_initializeDatabase := OpInitialize urlConnection options;
     inst_getDatabase := λ dbName, OpGetDatabase urlConnection options dbName;
     inst_getCollection := λ dbName collName,
       OpGetCollection urlConnection options dbName collName |}.

(** ** Notions used in the statements *)

Definition kind (s : State) (p : nat) : option PKind := pkind <$> promises s !! p.

(** Whenever [clientPromise] holds a promise, [client] holds a client and the
    promise is the one that client's [connect] returned. *)
Definition promise_of_client (s : State) : Prop :=
  ∀ p, clientPromise s = SRef p →
       ∃ cid, client s = SRef cid ∧ kind s p = Some (PConnect cid).

(** [s'] has the same two variables as [s] and keeps the kind of every
    promise of [s]. *)
Definition same_vars (s s' : State) : Prop :=
  client s' = client s ∧ clientPromise s' = clientPromise s ∧
  ∀ p kd, kind s p = Some kd → kind s' p = Some kd.

(** A driver whose collection handles carry no error. *)
Definition no_error : nat → string → string → Value := λ _ _ _, VUndefined.

Definition is_set (x : Slot) : bool :=
  match x with
  | SRef _ => true
  | _ => false
  end.

(** "Exactly one of: the connection is set, the pending attempt is set, both
    are unset", read on the pair ([client], [clientPromise]). *)
Definition exactly_one_of_three (s : State) : bool :=
  let a := is_set (client s) in
  let b := is_set (clientPromise s) in
  let c := negb a && negb b in
  Nat.eqb (Nat.b2n a + Nat.b2n b + Nat.b2n c) 1.

(** One call, answered by a driver that connects at once. *)
Definition connect_ok : list Label :=
  [LCall (OpConnect "mongodb://db:27017" defaultOptions);
   LSettle 1 (inl (VConn 0)); LResume 0; LResume 0].

(** The options of the client a call builds when no promise is memoized. *)
Definition built_options (op : Op) (s : State) : option Options :=
  snd <$> clients (call op s).2 !! length (clients s).

(** The three operations of the object [init] returns. *)
Definition init_ops (i : Instance) (dbName collName : string) : list Op :=
  [inst_initializeDatabase i; inst_getDatabase i dbName; inst_getCollection i dbName collName].

(** The state a successful first connection leaves behind. *)
Definition connected_state : State :=
  Eval vm_compute in
    default init_state (exec MAX_RETRIES RETRY_DELAY no_error connect_ok init_state).

Definition is_server_close (e : Event) : bool :=
  match e with
  | EvServerClose _ => true
  | _ => false
  end.

Definition is_close (e : Event) : bool :=
  match e with
  | EvClose _ => true
  | _ => false
  end.

Definition count {A} (P : A → bool) (l : list A) : nat :=
  length (filter (λ x, P x = true) l).

(** Both signals arrive before the server has finished closing; the server
    then invokes both callbacks it was given. *)
Definition two_signals : list Label :=
  [LSetup 0; LSignal SIGTERM; LSignal SIGINT; LServerClosed 0; LServerClosed 0].

(** [clientPromise] holds [p], and [p] is fulfilled with [v]. *)
Definition memoized (s : State) (p : nat) (v : Value) : Prop :=
  clientPromise s = SRef p ∧ status s p = Some (Fulfilled v).

(** A sequence of connectToDatabase calls, each one resumed before the next
    is made; [n] is the number of frames suspended beforehand. *)
Definition acquire_all (n : nat) (reqs : list (string * Options)) : list Label :=
  flat_map (λ req, [LCall (OpConnect req.1 req.2); LResume n]) reqs.

Definition is_connect (e : Event) : bool :=
  match e with
  | EvConnect _ => true
  | _ => false
  end.

(** A driver that marks the handle of the collection "missing". *)
Definition missing_collection : nat → string → string → Value :=
  λ _ _ collName,
    if String.eqb collName "missing" then VError "ns does not exist" else VUndefined.

(** What the trace shows of one request chain: connection attempts and the
    waits between them. *)
Inductive Tick :=
| Attempt
| Wait (ms : nat).

Definition tick_of (e : Event) : option Tick :=
  match e with
  | EvConnect _ => Some Attempt
  | EvSetTimeout ms => Some (Wait ms)
  | _ => None
  end.

Definition ticks (tr : list Event) : list Tick := omap tick_of tr.

(** [k] further attempts, each after a wait of [d]. *)
Definition retries_after (k d : nat) : list Tick :=
  concat (replicate k [Wait d; Attempt]).

(** An initial attempt followed by [k] retries. *)
Definition attempts (k d : nat) : list Tick := Attempt :: retries_after k d.

Definition total_wait (l : list Tick) : nat :=
  foldr (λ t acc, match t with Wait ms => ms + acc | Attempt => acc end) 0 l.

(** The labels of a run in which the driver fails every attempt and nobody
    else calls into the module: failed driver promises, clock and timers,
    resumptions. *)
Definition failing_alone (l : Label) : bool :=
  match l with
  | LSettle _ (inr _) | LAdvance _ | LTimer _ | LResume _ => true
  | _ => false
  end.

(** The forwarding frames of a chain of nested calls [rs]: each call's
    promise is adopted by the promise of the call that made it. *)
Fixpoint fwds (rs : list nat) : list Task :=
  match rs with
  | a :: rest =>
      match rest with
      | b :: _ => {| awaiting := a; frame := FForward b |} :: fwds rest
      | [] => []
      end
  | [] => []
  end.

Definition pending_async (ps : list Promise) (r : nat) : Prop :=
  ps !! r = Some {| pkind := PAsync; pstatus := Pending |}.

(** Where a chain that runs alone against a failing driver can be: waiting
    for an attempt, waiting for the timer before the next attempt, or handing
    the final error back through the calls nested by the retries.  [rs] lists
    the promises of the nested calls, innermost first; the outermost is [r0].
    [tr0] and [t0] are the ticks and the clock when the chain started. *)
Inductive phase (maxRetries retryDelay : nat) (url : string) (options : Options)
    (r0 : nat) (tr0 : list Tick) (t0 : nat)
    (ts : list Task) (ps : list Promise) (cp : Slot)
    (tr : list Event) (nw : nat) : Prop :=
| PhAttempt j rs p cid st :
    ts ≡ₚ {| awaiting := p; frame := FConnectAwait url options j (hd 0 rs) |} :: fwds rs →
    ps !! p = Some {| pkind := PConnect cid; pstatus := st |} →
    (st = Pending ∨ ∃ e, st = Rejected e) →
    Forall (pending_async ps) rs → NoDup rs →
    length rs = S j → last rs = Some r0 → j ≤ maxRetries →
    ticks tr = tr0 ++ attempts j retryDelay →
    t0 + j * retryDelay ≤ nw →
    phase maxRetries retryDelay url options r0 tr0 t0 ts ps cp tr nw
| PhSleep j rs t D st :
    ts ≡ₚ {| awaiting := t; frame := FConnectSleep url options (S j) (hd 0 rs) |} :: fwds rs →
    ps !! t = Some {| pkind := PTimer D; pstatus := st |} →
    (st = Pending ∨ (st = Fulfilled VUndefined ∧ D ≤ nw)) →
    t0 + S j * retryDelay ≤ D →
    is_set cp = false →
    Forall (pending_async ps) rs → NoDup rs →
    length rs = S j → last rs = Some r0 → S j ≤ maxRetries →
    ticks tr = tr0 ++ attempts j retryDelay ++ [Wait retryDelay] →
    phase maxRetries retryDelay url options r0 tr0 t0 ts ps cp tr nw
| PhUnwind a rest :
    ts ≡ₚ fwds (a :: rest) →
    ps !! a = Some {| pkind := PAsync; pstatus := Rejected exhausted_error |} →
    Forall (pending_async ps) rest → NoDup (a :: rest) →
    last (a :: rest) = Some r0 →
    ticks tr = tr0 ++ attempts maxRetries retryDelay →
    t0 + maxRetries * retryDelay ≤ nw →
    phase maxRetries retryDelay url options r0 tr0 t0 ts ps cp tr nw.

Definition alone (maxRetries retryDelay : nat) (url : string) (options : Options)
    (r0 : nat) (tr0 : list Tick) (t0 : nat) (s : State) : Prop :=
  exited s = None
  ∧ phase maxRetries retryDelay url options r0 tr0 t0
      (tasks s) (promises s) (clientPromise s) (trace s) (now s).

Definition is_attempt (t : Tick) : bool :=
  match t with
  | Attempt => true
  | Wait _ => false
  end.

(** The retry counters of the attempts a call starts. *)
Definition started_retries (op : Op) (s : State) : list nat :=
  omap (λ t, match frame t with
             | FConnectAwait _ _ j _ => Some j
             | _ => None
             end)
       (drop (length (tasks s)) (tasks (call op s).2)).

Definition join_all (reqs : list (string * Options)) : list Label :=
  (λ req, LCall (OpConnect req.1 req.2)) <$> reqs.

Definition forwards (p : nat) (rs : list nat) : list Task :=
  (λ r, {| awaiting := p; frame := FForward r |}) <$> rs.

Definition pending_promise : Promise := {| pkind := PAsync; pstatus := Pending |}.

(** Two callers; the first attempt fails, the retry succeeds. *)
Definition joined_then_retried : list Label :=
  [LCall (OpConnect "mongodb://db:27017" ∅);
   LCall (OpConnect "mongodb://db:27017" ∅);
   LSettle 1 (inr (VError "ECONNREFUSED"));
   LResume 0; LResume 0;
   LAdvance RETRY_DELAY; LTimer 3; LResume 0;
   LSettle 5 (inl (VConn 0));
   LResume 0; LResume 1; LResume 0].

(** The labels of a run in which callers keep calling connectToDatabase
    while the driver's only answer is to fulfil the promise [p] with [v]. *)
Definition sharing_label (p : nat) (v : Value) (l : Label) : Prop :=
  match l with
  | LCall (OpConnect _ _) | LAdvance _ | LTimer _ | LResume _ => True
  | LSettle q out => q = p ∧ out = inl v
  | _ => False
  end.

(** A frame that waits for the shared promise [p] on behalf of a call whose
    own promise is [r]. *)
Definition waits_for (p r : nat) (tk : Task) : Prop :=
  awaiting tk = p
  ∧ (frame tk = FForward r ∨ ∃ url options j, frame tk = FConnectAwait url options j r).

(** All callers since the store had [L] promises share the attempt [p]:
    [clientPromise] holds [p], every suspended frame waits for [p], every
    caller's promise is pending or fulfilled with [v], and the trace has not
    grown beyond [tr]. *)
Definition shared (L p : nat) (v : Value) (tr : list Event) (s : State) : Prop :=
  exited s = None
  ∧ clientPromise s = SRef p
  ∧ trace s = tr
  ∧ L ≤ length (promises s)
  ∧ (∃ cid st, promises s !! p = Some {| pkind := PConnect cid; pstatus := st |}
               ∧ (st = Pending ∨ st = Fulfilled v))
  ∧ Forall (λ tk, ∃ r, L ≤ r ∧ kind s r = Some PAsync ∧ waits_for p r tk) (tasks s)
  ∧ (∀ r st, L ≤ r → promises s !! r = Some {| pkind := PAsync; pstatus := st |} →
             st = Pending ∨ st = Fulfilled v).

(** *** Further notions: what holds in every run *)

(** The listeners [setupGracefulShutdown] leaves behind for the servers
    [srvs]: one for each signal, per call. *)
Definition registered (srvs : list nat) : list (Signal * nat) :=
  flat_map (λ srv, [(SIGTERM, srv); (SIGINT, srv)]) srvs.

Definition retries_in_range (maxRetries : nat) (tk : Task) : bool :=
  match frame tk with
  | FConnectAwait _ _ j _ => (j <=? maxRetries)%nat
  | FConnectSleep _ _ j _ => (1 <=? j)%nat && (j <=? maxRetries)%nat
  | _ => true
  end.

Definition backoff_fixed (maxRetries retryDelay : nat) (e : Event) : bool :=
  match e with
  | EvSetTimeout ms => Nat.eqb ms retryDelay
  | EvLog (LogRetry n ms) =>
      (1 <=? n)%nat && (n <=? maxRetries)%nat && Nat.eqb ms retryDelay
  | _ => true
  end.

Definition timer_within (horizon : nat) (pr : Promise) : bool :=
  match pkind pr with
  | PTimer d => (d <=? horizon)%nat
  | _ => true
  end.

Definition is_construction (e : Event) : bool :=
  match e with
  | EvNewClient _ _ _ | EvConnect _ => true
  | _ => false
  end.

(** [new MongoClient(url, options)] followed by [connect()], for each client
    in turn. *)
Definition constructions (cl : list (string * Options)) : list Event :=
  concat (imap (λ cid uo, [EvNewClient cid uo.1 uo.2; EvConnect cid]) cl).

(** A run of the module in which no signal is delivered (and closeDatabase,
    which is not exported, is not called from outside). *)
Definition without_signal (l : Label) : bool :=
  match l with
  | LSignal _ | LCall OpClose => false
  | _ => true
  end.

(** What only the shutdown path does: [server.close], the client's [close],
    [process.exit] and their console lines. *)
Definition is_shutdown_event (e : Event) : bool :=
  match e with
  | EvServerClose _ | EvClose _ | EvExit _
  | EvLog LogServerClosed | EvLog LogClosed => true
  | _ => false
  end.

Definition closes (f : Frame) : bool :=
  match f with
  | FClose _ | FShutdown => true
  | _ => false
  end.

(** A frame that can neither drop the memoized promise [p] nor settle it. *)
Definition keeps (p : nat) (tk : Task) : bool :=
  match frame tk with
  | FConnectAwait _ _ _ r => Nat.eqb (awaiting tk) p && negb (Nat.eqb r p)
  | FForward r | FGetDatabase _ r | FGetCollection _ _ r | FInitialize r =>
      negb (Nat.eqb r p)
  | FConnectSleep _ _ _ _ | FClose _ | FShutdown => false
  end.

(** Anything the module does other than writing a console line. *)
Definition is_effect (e : Event) : bool :=
  match e with
  | EvLog _ => false
  | _ => true
  end.

(** The connection made is kept: [clientPromise] holds [p], fulfilled with
    [v]; no frame can drop it; the clients, [client] and the effects are
    those of the start. *)
Definition kept (p : nat) (v : Value) (cl0 : list (string * Options)) (c0 : Slot)
    (tr0 : list Event) (s : State) : Prop :=
  exited s = None ∧ closing s = []
  ∧ clientPromise s = SRef p
  ∧ (∃ k, promises s !! p = Some {| pkind := k; pstatus := Fulfilled v |})
  ∧ Forall (λ tk, keeps p tk = true) (tasks s)
  ∧ clients s = cl0 ∧ client s = c0
  ∧ filter (λ e, is_effect e = true) (trace s) = tr0.

(** No shutdown has begun: the process runs, no [server.close] is
    outstanding, no frame belongs to closeDatabase or to the shutdown
    callback, [client] has not been reset; [tr0] lists the shutdown events
    written so far. *)
Definition calm (tr0 : list Event) (s : State) : Prop :=
  exited s = None ∧ closing s = []
  ∧ Forall (λ tk, closes (frame tk) = false) (tasks s)
  ∧ filter (λ e, is_shutdown_event e = true) (trace s) = tr0
  ∧ client s ≠ SNull.

(** The promises that suspended connectToDatabase frames wait for at
    [await clientPromise]. *)
Definition awaited_attempt (tk : Task) : option nat :=
  match frame tk with
  | FConnectAwait _ _ _ _ => Some (awaiting tk)
  | _ => None
  end.

Definition awaits (ts : list Task) : list nat := omap awaited_attempt ts.

(** At most one attempt is in flight, and [clientPromise] holds it. *)
Definition single_flight (s : State) : Prop :=
  Forall (λ x, clientPromise s = SRef x) (awaits (tasks s))
  ∧ length (awaits (tasks s)) ≤ 1
  ∧ ∀ q cid, promises s !! q = Some {| pkind := PConnect cid; pstatus := Pending |} →
             clientPromise s = SRef q.

(** *** Further notions: a chain with any driver *)

(** What the driver answered during a run, in order. *)
Definition answer (l : Label) : option (Value + Value) :=
  match l with
  | LSettle _ out => Some out
  | _ => None
  end.

Definition answers (ls : list Label) : list (Value + Value) := omap answer ls.

(** [j] failures, numbered from [i], and then a success with [v]. *)
Definition fails_then (errs : nat → Value) (i j : nat) (v : Value) :
    list (Value + Value) :=
  ((λ k, inr (errs k)) <$> seq i j) ++ [inl v].

(** The labels of a run in which nobody else calls into the module: the
    driver answers as it likes, time passes, timers fire, frames resume. *)
Definition solo_label (l : Label) : bool :=
  match l with
  | LSettle _ _ | LAdvance _ | LTimer _ | LResume _ => true
  | _ => false
  end.

(** The exported functions that start with [await connectToDatabase(...)]. *)
Inductive Wrapper :=
| WGetDatabase (dbName : string)
| WGetCollection (dbName collName : string)
| WInitialize.

Definition wrapper_frame (w : Wrapper) (r : nat) : Frame :=
  match w with
  | WGetDatabase dbName => FGetDatabase dbName r
  | WGetCollection dbName collName => FGetCollection dbName collName r
  | WInitialize => FInitialize r
  end.

Definition wrapper_op (url : string) (options : Options) (w : Wrapper) : Op :=
  match w with
  | WGetDatabase dbName => OpGetDatabase url options dbName
  | WGetCollection dbName collName => OpGetCollection url options dbName collName
  | WInitialize => OpInitialize url options
  end.

(** What the function makes of the outcome of its connectToDatabase call:
    lines 41, 47-51 and 57 of the source. *)
Definition wrapper_returns (collectionError : nat → string → string → Value)
    (w : Wrapper) (out : PStatus) : PStatus :=
  match out with
  | Pending => Pending
  | Rejected e => Rejected e
  | Fulfilled c =>
      match w with
      | WGetDatabase dbName =>
          match db_of c dbName with
          | inl db => Fulfilled db
          | inr e => Rejected e
          end
      | WGetCollection dbName collName =>
          match db_of c dbName with
          | inl db =>
              match collection_of collectionError db collName with
              | inl coll =>
                  if truthy (error_of coll) then Rejected (error_of coll)
                  else Fulfilled coll
              | inr e => Rejected e
              end
          | inr e => Rejected e
          end
      | WInitialize => Fulfilled VUndefined
      end
  end.

(** The frame of the exported function around the chain, if the chain was
    started by one: it waits for [r0] and answers on [R]. *)
Definition around (r0 : nat) (w : option (Wrapper * nat)) : list Task :=
  match w with
  | Some (w, R) => [{| awaiting := r0; frame := wrapper_frame w R |}]
  | None => []
  end.

Definition answer_on (w : option (Wrapper * nat)) : list nat :=
  match w with
  | Some (_, R) => [R]
  | None => []
  end.

(** How a chain ends: with the final error after [maxRetries] retries, or
    with the value of the attempt that succeeded, which stays memoized. *)
Definition concluded (maxRetries retryDelay : nat) (tr0 : list Tick) (t0 : nat)
    (out : PStatus) (ps : list Promise) (cp : Slot) (tr : list Event) (nw : nat) : Prop :=
  (out = Rejected exhausted_error
   ∧ ticks tr = tr0 ++ attempts maxRetries retryDelay
   ∧ t0 + maxRetries * retryDelay ≤ nw
   ∧ cp = SNull)
  ∨ (∃ v j p cid,
       out = Fulfilled v ∧ j ≤ maxRetries
       ∧ ticks tr = tr0 ++ attempts j retryDelay
       ∧ t0 + j * retryDelay ≤ nw
       ∧ cp = SRef p
       ∧ ps !! p = Some {| pkind := PConnect cid; pstatus := Fulfilled v |}).

(** Where a chain that runs alone can be, whatever the driver answers:
    waiting for an attempt, waiting for the timer before the next one,
    returning the promise of the attempt that succeeded, handing the outcome
    back through the calls nested by the retries, or done. *)
Inductive course (maxRetries retryDelay : nat)
    (collectionError : nat → string → string → Value)
    (url : string) (options : Options)
    (r0 : nat) (w : option (Wrapper * nat)) (tr0 : list Tick) (t0 : nat)
    (ts : list Task) (ps : list Promise) (cp : Slot)
    (tr : list Event) (nw : nat) : Prop :=
| CoAttempt j rs p cid st :
    ts ≡ₚ {| awaiting := p; frame := FConnectAwait url options j (hd 0 rs) |}
          :: fwds rs ++ around r0 w →
    ps !! p = Some {| pkind := PConnect cid; pstatus := st |} →
    cp = SRef p →
    Forall (pending_async ps) (rs ++ answer_on w) → NoDup (rs ++ answer_on w) →
    length rs = S j → last rs = Some r0 → j ≤ maxRetries →
    ticks tr = tr0 ++ attempts j retryDelay →
    t0 + j * retryDelay ≤ nw →
    course maxRetries retryDelay collectionError url options r0 w tr0 t0 ts ps cp tr nw
| CoSleep j rs t D st :
    ts ≡ₚ {| awaiting := t; frame := FConnectSleep url options (S j) (hd 0 rs) |}
          :: fwds rs ++ around r0 w →
    ps !! t = Some {| pkind := PTimer D; pstatus := st |} →
    (st = Pending ∨ (st = Fulfilled VUndefined ∧ D ≤ nw)) →
    t0 + S j * retryDelay ≤ D →
    is_set cp = false →
    Forall (pending_async ps) (rs ++ answer_on w) → NoDup (rs ++ answer_on w) →
    length rs = S j → last rs = Some r0 → S j ≤ maxRetries →
    ticks tr = tr0 ++ attempts j retryDelay ++ [Wait retryDelay] →
    course maxRetries retryDelay collectionError url options r0 w tr0 t0 ts ps cp tr nw
| CoReturn j rs p cid v :
    ts ≡ₚ {| awaiting := p; frame := FForward (hd 0 rs) |}
          :: fwds rs ++ around r0 w →
    ps !! p = Some {| pkind := PConnect cid; pstatus := Fulfilled v |} →
    cp = SRef p →
    Forall (pending_async ps) (rs ++ answer_on w) → NoDup (rs ++ answer_on w) →
    length rs = S j → last rs = Some r0 → j ≤ maxRetries →
    ticks tr = tr0 ++ attempts j retryDelay →
    t0 + j * retryDelay ≤ nw →
    course maxRetries retryDelay collectionError url options r0 w tr0 t0 ts ps cp tr nw
| CoUnwind a rest out :
    ts ≡ₚ fwds (a :: rest) ++ around r0 w →
    ps !! a = Some {| pkind := PAsync; pstatus := out |} →
    out ≠ Pending →
    Forall (pending_async ps) (rest ++ answer_on w) →
    NoDup (a :: rest ++ answer_on w) →
    last (a :: rest) = Some r0 →
    concluded maxRetries retryDelay tr0 t0 out ps cp tr nw →
    course maxRetries retryDelay collectionError url options r0 w tr0 t0 ts ps cp tr nw
| CoDone wr R out :
    w = Some (wr, R) →
    ts = [] →
    ps !! r0 = Some {| pkind := PAsync; pstatus := out |} →
    ps !! R = Some {| pkind := PAsync;
                      pstatus := wrapper_returns collectionError wr out |} →
    out ≠ Pending →
    concluded maxRetries retryDelay tr0 t0 out ps cp tr nw →
    course maxRetries retryDelay collectionError url options r0 w tr0 t0 ts ps cp tr nw.

Definition solo (maxRetries retryDelay : nat)
    (collectionError : nat → string → string → Value)
    (url : string) (options : Options)
    (r0 : nat) (w : option (Wrapper * nat)) (tr0 : list Tick) (t0 : nat)
    (s : State) : Prop :=
  exited s = None
  ∧ course maxRetries retryDelay collectionError url options r0 w tr0 t0
      (tasks s) (promises s) (clientPromise s) (trace s) (now s).

(** The console lines a wrapper writes once its connection is there. *)
Definition wrapper_log (w : Wrapper) : list Event :=
  match w with
  | WGetDatabase _ => []
  | WGetCollection _ _ => [EvLog LogConnected]
  | WInitialize => [EvLog LogInitialized]
  end.

(** One call whose first attempt fails: the chain is left waiting for the
    timer before its first retry. *)
Definition first_attempt_fails : list Label :=
  [LCall (OpConnect "mongodb://db:27017" ∅);
   LSettle 1 (inr (VError "ECONNREFUSED")); LResume 0].

(** What a chain does from the failure of attempt number [i] on, when [k]
    retries are left and the driver fails them all: the failure is written
    to the console, and each retry announces itself, sets the timer, and
    builds and connects a new client, numbered from [cid]. *)
Fixpoint failing_chain (url : string) (options : Options) (errs : nat → Value)
    (retryDelay cid i k : nat) : list Event :=
  EvLog (LogInitialFailed (errs i)) ::
  match k with
  | 0 => []
  | S k' =>
      [EvLog (LogRetry (S i) retryDelay); EvSetTimeout retryDelay;
       EvNewClient cid url options; EvConnect cid]
      ++ failing_chain url options errs retryDelay (S cid) (S i) k'
  end.

(** Two callers, [A] and then [B]; [B] calls while [A] waits for its first
    retry.  The driver fails the attempt of [A] with [e0] and that of [B]
    with [e1].  [r] and [n] are the sizes of the promise store and of the
    task list beforehand. *)
Definition call_during_retry_delay (urlA urlB : string) (optA optB : Options)
    (e0 e1 : Value) (retryDelay r n : nat) : list Label :=
  [LCall (OpConnect urlA optA); LSettle (r + 1) (inr e0); LResume n;
   LCall (OpConnect urlB optB);
   LAdvance retryDelay; LTimer (r + 2); LResume n;
   LSettle (r + 4) (inr e1); LResume n; LResume n; LResume n].

(** ** Basic facts about the promise store *)

Lemma kind_alloc k s p kd : kind s p = Some kd → kind (alloc k s).2 p = Some kd.
Proof.
  unfold kind; simpl. intros H.
  destruct (promises s !! p) eqn:E; [|done].
  by rewrite (lookup_app_l_Some _ _ _ _ E).
Qed.

Lemma kind_settle q st s p : kind (settle q st s) p = kind s p.
Proof.
  unfold kind; simpl.
  destruct (decide (q = p)) as [->|Hne].
  - rewrite list_lookup_alter_eq. by destruct (promises s !! p).
  - by rewrite list_lookup_alter_ne.
Qed.

Lemma status_settle_eq p st s :
  p < length (promises s) → status (settle p st s) p = Some st.
Proof.
  unfold status; simpl. intros H. rewrite list_lookup_alter_eq.
  destruct (lookup_lt_is_Some_2 _ _ H) as [x ->]. done.
Qed.

Lemma status_settle_ne q p st s : q ≠ p → status (settle q st s) p = status s p.
Proof. unfold status; simpl. intros H. by rewrite list_lookup_alter_ne. Qed.

(** ** The invariant the two module variables do satisfy *)

Lemma same_vars_trans s1 s2 s3 : same_vars s1 s2 → same_vars s2 s3 → same_vars s1 s3.
Proof.
  intros (A1 & B1 & C1) (A2 & B2 & C2). repeat split; [congruence..|eauto].
Qed.

Lemma same_vars_inv s s' : same_vars s s' → promise_of_client s → promise_of_client s'.
Proof.
  intros (A & B & C) I p Hp. rewrite B in Hp.
  destruct (I p Hp) as (cid & Hc & Hk). exists cid. rewrite A. eauto.
Qed.

Lemma same_vars_alloc k s : same_vars s (alloc k s).2.
Proof. repeat split; [done..|]. intros p kd. apply kind_alloc. Qed.

Lemma same_vars_settle p st s : same_vars s (settle p st s).
Proof. repeat split; [done..|]. intros q kd. by rewrite kind_settle. Qed.

Lemma same_vars_suspend p f s : same_vars s (suspend p f s).
Proof. by repeat split. Qed.

Lemma same_vars_emit e s : same_vars s (emit e s).
Proof. by repeat split. Qed.

Lemma null_promise_inv s : clientPromise s = SNull → promise_of_client s.
Proof. intros H p Hp. congruence. Qed.

Lemma return_clientPromise_same_vars r s : same_vars s (return_clientPromise r s).
Proof.
  unfold return_clientPromise. destruct (clientPromise s);
    auto using same_vars_settle, same_vars_suspend.
Qed.

Lemma connectToDatabase_inv url options retries s :
  promise_of_client s → promise_of_client (connectToDatabase url options retries s).2.
Proof.
  intros I. unfold connectToDatabase.
  destruct (alloc PAsync s) as [r s1] eqn:E1.
  assert (V1 : same_vars s s1).
  { change s1 with (r, s1).2. rewrite <- E1. apply same_vars_alloc. }
  assert (I1 := same_vars_inv _ _ V1 I).
  destruct (clientPromise s1) eqn:Ec; simpl;
    try (eapply same_vars_inv; [apply return_clientPromise_same_vars|done]).
  all: intros p Hp; simpl in Hp; injection Hp as <-;
    eexists; split; [reflexivity|];
    unfold kind; simpl; by rewrite list_lookup_middle.
Qed.

Lemma closeDatabase_same_vars s : same_vars s (closeDatabase s).2.
Proof.
  unfold closeDatabase. simpl. destruct (client s) eqn:Ec; simpl.
  1,2: (eapply same_vars_trans; [apply (same_vars_alloc PAsync)|apply same_vars_settle]).
  repeat split; [done..|]. intros p kd H. unfold kind in *. simpl.
  destruct (promises s !! p) eqn:E; [|done].
  rewrite <- app_assoc. by rewrite (lookup_app_l_Some _ _ _ _ E).
Qed.

Section Invariant.

Variables (maxRetries retryDelay : nat).
Variable collectionError : nat → string → string → Value.

Local Abbreviation resume := (resume maxRetries retryDelay collectionError).
Local Abbreviation step := (step maxRetries retryDelay collectionError).
Local Abbreviation exec := (exec maxRetries retryDelay collectionError).

Lemma resume_inv f out s : promise_of_client s → promise_of_client (resume f out s).
Proof.
  intros I.
  assert (K : ∀ r st, promise_of_client (settle r st s)).
  { intros. eapply same_vars_inv; [apply same_vars_settle|done]. }
  destruct f, out; simpl; try done; try apply K.
  - eapply same_vars_inv; [apply return_clientPromise_same_vars|done].
  - destruct (retries <? maxRetries)%nat; by apply null_promise_inv.
  - destruct (connectToDatabase url options retries s) as [c s1] eqn:E.
    eapply same_vars_inv; [apply same_vars_suspend|].
    change s1 with (c, s1).2. rewrite <- E. by apply connectToDatabase_inv.
  - destruct (db_of v dbName); apply K.
  - destruct (db_of v dbName) as [db|e]; [|apply K].
    destruct (collection_of collectionError db collName) as [coll|e];
      [destruct (truthy _)|];
      (eapply same_vars_inv; [apply same_vars_settle|]);
      (eapply same_vars_inv; [apply same_vars_emit|done]).
Qed.

Lemma shutdown_same_vars srv s : same_vars s (shutdown srv s).
Proof. by repeat split. Qed.

Lemma shutdown_all_inv ls s :
  promise_of_client s → promise_of_client (foldl (λ s srv, shutdown srv s) s ls).
Proof.
  revert s. induction ls as [|x ls IH]; intros s I; simpl; [done|].
  apply IH. eapply same_vars_inv; [apply shutdown_same_vars|done].
Qed.

Lemma step_inv l s s' : step l s = Some s' → promise_of_client s → promise_of_client s'.
Proof.
  unfold step. destruct (exited s); [done|].
  destruct l as [op|srv|sig|i|p out|dt|p|t]; intros H I.
  - injection H as <-. destruct op; simpl.
    + by apply connectToDatabase_inv.
    + unfold getDatabase.
      destruct (alloc PAsync s) as [r s1] eqn:E1.
      destruct (connectToDatabase url options 0 s1) as [c s2] eqn:E2.
      eapply same_vars_inv; [apply same_vars_suspend|].
      change s2 with (c, s2).2. rewrite <- E2. apply connectToDatabase_inv.
      eapply same_vars_inv; [|exact I].
      change s1 with (r, s1).2. rewrite <- E1. apply same_vars_alloc.
    + unfold getCollection.
      destruct (alloc PAsync s) as [r s1] eqn:E1.
      destruct (connectToDatabase url options 0 s1) as [c s2] eqn:E2.
      eapply same_vars_inv; [apply same_vars_suspend|].
      change s2 with (c, s2).2. rewrite <- E2. apply connectToDatabase_inv.
      eapply same_vars_inv; [|exact I].
      change s1 with (r, s1).2. rewrite <- E1. apply same_vars_alloc.
    + unfold initializeDatabase.
      destruct (alloc PAsync s) as [r s1] eqn:E1.
      destruct (connectToDatabase url options 0 s1) as [c s2] eqn:E2.
      eapply same_vars_inv; [apply same_vars_suspend|].
      change s2 with (c, s2).2. rewrite <- E2. apply connectToDatabase_inv.
      eapply same_vars_inv; [|exact I].
      change s1 with (r, s1).2. rewrite <- E1. apply same_vars_alloc.
    + eapply same_vars_inv; [apply closeDatabase_same_vars|done].
  - injection H as <-. intros p Hp. destruct (I p Hp) as (cid & ? & ?). by exists cid.
  - destruct (listeners sig s) as [|srv ls]; [done|]. injection H as <-.
    by apply shutdown_all_inv.
  - destruct (closing s !! i); [|done]. injection H as <-.
    unfold shutdown_callback.
    set (s1 := emit _ _).
    destruct (closeDatabase s1) as [c s2] eqn:E2.
    eapply same_vars_inv; [apply same_vars_suspend|].
    change s2 with (c, s2).2. rewrite <- E2.
    eapply same_vars_inv; [apply closeDatabase_same_vars|].
    intros p Hp. destruct (I p Hp) as (cid & ? & ?). by exists cid.
  - destruct (promises s !! p) as [[[] []]|]; try done; injection H as <-;
      (eapply same_vars_inv; [apply same_vars_settle|done]).
  - injection H as <-. intros p Hp. destruct (I p Hp) as (cid & ? & ?). by exists cid.
  - destruct (promises s !! p) as [[[] []]|]; try done.
    destruct (deadline <=? now s)%nat; [|done]. injection H as <-.
    eapply same_vars_inv; [apply same_vars_settle|done].
  - destruct (tasks s !! t) as [tk|]; [|done].
    destruct (status s (awaiting tk)) as [[]|]; try done; injection H as <-;
      apply resume_inv; intros p Hp; destruct (I p Hp) as (cid & ? & ?); by exists cid.
Qed.

Lemma exec_inv ls s s' : exec ls s = Some s' → promise_of_client s → promise_of_client s'.
Proof.
  revert s. induction ls as [|l ls IH]; intros s H I; simpl in H.
  - by injection H as <-.
  - destruct (step l s) as [s1|] eqn:E; [|done]. eauto using step_inv.
Qed.

End Invariant.

(** ** Single steps, under the conditions that enable them *)

Section Steps.

Variables (maxRetries retryDelay : nat).
Variable collectionError : nat → string → string → Value.

Local Abbreviation resume := (resume maxRetries retryDelay collectionError).
Local Abbreviation step := (step maxRetries retryDelay collectionError).
Local Abbreviation exec := (exec maxRetries retryDelay collectionError).

Lemma step_call op s :
  exited s = None → step (LCall op) s = Some (call op s).2.
Proof. intros E. unfold step. by rewrite E. Qed.

Lemma step_settle_connect p cid out s :
  exited s = None →
  promises s !! p = Some {| pkind := PConnect cid; pstatus := Pending |} →
  step (LSettle p out) s = Some (settle p (outcome out) s).
Proof. intros E H. unfold step. by rewrite E, H. Qed.

Lemma step_settle_close p cid out s :
  exited s = None →
  promises s !! p = Some {| pkind := PClose cid; pstatus := Pending |} →
  step (LSettle p out) s = Some (settle p (outcome out) s).
Proof. intros E H. unfold step. by rewrite E, H. Qed.

Lemma step_advance dt s :
  exited s = None → step (LAdvance dt) s = Some (set_now (now s + dt) s).
Proof. intros E. unfold step. by rewrite E. Qed.

Lemma step_timer p d s :
  exited s = None →
  promises s !! p = Some {| pkind := PTimer d; pstatus := Pending |} →
  d ≤ now s →
  step (LTimer p) s = Some (settle p (Fulfilled VUndefined) s).
Proof.
  intros E H Hd. unfold step. rewrite E, H.
  by rewrite (proj2 (Nat.leb_le _ _) Hd).
Qed.

Lemma step_resume t tk out s :
  exited s = None →
  tasks s !! t = Some tk →
  status s (awaiting tk) = Some out →
  out ≠ Pending →
  step (LResume t) s = Some (resume (frame tk) out (set_tasks (delete t (tasks s)) s)).
Proof.
  intros E Ht Hs Hp. unfold step. rewrite E, Ht, Hs. by destruct out.
Qed.

Lemma exec_step l ls s s1 s' :
  step l s = Some s1 → exec ls s1 = Some s' → exec (l :: ls) s = Some s'.
Proof. intros H1 H2. simpl. by rewrite H1. Qed.

Lemma exec_nil_eq s s' : s = s' → exec [] s = Some s'.
Proof. by intros ->. Qed.

Lemma exec_app ls1 ls2 s s1 :
  exec ls1 s = Some s1 → exec (ls1 ++ ls2) s = exec ls2 s1.
Proof.
  revert s. induction ls1 as [|l ls1 IH]; intros s H; simpl in *.
  - by injection H as <-.
  - destruct (step l s); [eauto|done].
Qed.

Lemma exec_call_inv op ls s s' :
  exited s = None → exec (LCall op :: ls) s = Some s' →
  exec ls (call op s).2 = Some s'.
Proof. intros He. simpl. unfold step. by rewrite He. Qed.

End Steps.

Arguments exec : simpl never.
Arguments step : simpl never.

Lemma alter_at {A} (f : A → A) (l1 l2 : list A) x n :
  n = length l1 → alter f n (l1 ++ x :: l2) = l1 ++ f x :: l2.
Proof. intros ->. induction l1; simpl; [done|]. by f_equal. Qed.

Lemma delete_at {A} (l1 l2 : list A) x n :
  n = length l1 → delete n (l1 ++ x :: l2) = l1 ++ l2.
Proof. intros ->. apply delete_middle. Qed.

Lemma delete_app_lt {A} (l1 l2 : list A) n :
  n < length l1 → delete n (l1 ++ l2) = delete n l1 ++ l2.
Proof.
  revert n. induction l1 as [|a l1 IH]; intros [|n] H; simpl in *; try lia; [done|].
  f_equal. apply IH. lia.
Qed.

(** Side conditions on positions in the stores. *)
Ltac len := repeat first [rewrite length_app | rewrite length_alter]; simpl; lia.

(** Reads and writes at a position given relative to the end of a store. *)
Ltac stores :=
  repeat first
    [ rewrite alter_at by len
    | rewrite alter_app_l by len
    | rewrite delete_at by len
    | rewrite delete_app_lt by len
    | rewrite list_lookup_middle by len
    | rewrite lookup_app_l by len
    | rewrite app_nil_r ].

Ltac side := unfold status; simpl; stores; simpl; try done; try reflexivity.

(** One label of a schedule, fired through the lemma that enables it; the
    state reached is put back in normal form. *)
Ltac flat :=
  cbv beta iota zeta delta
    [settle suspend emit alloc set_client set_clientPromise set_clients
     set_promises set_tasks set_handlers set_closing set_now set_exited
     resume return_clientPromise connectToDatabase getDatabase getCollection
     initializeDatabase closeDatabase shutdown shutdown_callback
     setupGracefulShutdown call outcome frame awaiting client clientPromise
     clients promises tasks handlers closing now exited trace fst snd
     db_of collection_of error_of].
Ltac settled := simpl; flat; stores; simpl.
Ltac fire_call := eapply exec_step; [eapply step_call; side|settled].
Ltac fire_connect := eapply exec_step; [eapply step_settle_connect; [side|side]|settled].
Ltac fire_close := eapply exec_step; [eapply step_settle_close; [side|side]|settled].
Ltac fire_advance := eapply exec_step; [eapply step_advance; side|settled].
Ltac fire_timer :=
  eapply exec_step; [eapply step_timer; [side|side|side; try lia]|settled].
Ltac fire_resume := eapply exec_step; [eapply step_resume; [side|side|side|side]|settled].

(** The call that starts an attempt, written out. *)
Lemma connect_fresh s url options j :
  is_set (clientPromise s) = false →
  connectToDatabase url options j s
  = (length (promises s),
     {| client := SRef (length (clients s));
        clientPromise := SRef (S (length (promises s)));
        clients := clients s ++ [(url, options)];
        promises := promises s
          ++ [pending_promise;
              {| pkind := PConnect (length (clients s)); pstatus := Pending |}];
        tasks := tasks s
          ++ [{| awaiting := S (length (promises s));
                 frame := FConnectAwait url options j (length (promises s)) |}];
        handlers := handlers s; closing := closing s; now := now s;
        exited := exited s;
        trace := trace s ++ [EvNewClient (length (clients s)) url options;
                             EvConnect (length (clients s))] |}).
Proof.
  intros Hc. destruct s as [c cp cl ps ts hs cg nw ex tr]; simpl in *.
  destruct cp; try discriminate Hc; flat.
  all: f_equal; f_equal; rewrite <- ?app_assoc; simpl; repeat f_equal; len.
Qed.

(** ** C7: the state invariant *)

(** C7, as stated, fails: after one successful connectToDatabase both
    [client] and [clientPromise] are set, so "exactly one of the three" does
    not hold in a reachable state. *)
Lemma both_variables_set_after_connect :
  ∃ s, reachable MAX_RETRIES RETRY_DELAY no_error s ∧ exactly_one_of_three s = false.
Proof.
  eexists. split.
  - exists connect_ok. vm_compute. reflexivity.
  - vm_compute. reflexivity.
Qed.

(** C7, amended: in every state reachable by any interleaving of calls,
    driver answers, timers, signals and resumptions, [clientPromise] is set
    only together with [client], and it is then the promise returned by the
    [connect] of that very client; a promise never outlives its client and
    never belongs to another one. *)
Theorem reachable_promise_of_client maxRetries retryDelay collectionError s :
  reachable maxRetries retryDelay collectionError s → promise_of_client s.
Proof.
  intros [ls H]. eapply exec_inv; [exact H|].
  intros p Hp. discriminate Hp.
Qed.

Lemma reachable_promise_of_client_witness :
  ∃ s, exec MAX_RETRIES RETRY_DELAY no_error connect_ok init_state = Some s ∧
       promise_of_client s.
Proof.
  eexists. split; [vm_compute; reflexivity|].
  apply (reachable_promise_of_client MAX_RETRIES RETRY_DELAY no_error).
  exists connect_ok. vm_compute. reflexivity.
Defined.

(** ** C8: the default pool size *)

(** C8: whichever operation of [init(url, v)] first builds the client, the
    options it passes to the driver carry [maxPoolSize = v]; with the argument
    omitted ([v] is [undefined]) that is [undefined], not the 10 of
    [defaultOptions]. *)
Theorem init_maxPoolSize url (v : Value) s dbName collName :
  is_set (clientPromise s) = false →
  Forall (λ op, (λ o, prop o "maxPoolSize") <$> built_options op s = Some v)
         (init_ops (init url v) dbName collName)
  ∧ (v = VUndefined → v ≠ prop defaultOptions "maxPoolSize").
Proof.
  intros Hs. split; [|by intros ->].
  unfold init_ops, built_options.
  repeat apply Forall_cons_2; [..|apply Forall_nil_2]; simpl;
    unfold initializeDatabase, getDatabase, getCollection, connectToDatabase; simpl;
    destruct (clientPromise s); try discriminate Hs; simpl;
    rewrite list_lookup_middle by done; simpl;
    unfold prop; by rewrite lookup_insert_eq.
Qed.

Lemma init_maxPoolSize_witness :
  Forall (λ op, (λ o, prop o "maxPoolSize") <$> built_options op init_state = Some VUndefined)
         (init_ops (init "mongodb://db:27017" VUndefined) "app" "users")
  ∧ (VUndefined = VUndefined → VUndefined ≠ prop defaultOptions "maxPoolSize").
Proof.
  apply (init_maxPoolSize "mongodb://db:27017" VUndefined init_state "app" "users").
  reflexivity.
Defined.

(** ** C4: closeDatabase *)

Section Close.

Variables (maxRetries retryDelay : nat).
Variable collectionError : nat → string → string → Value.

Local Abbreviation exec := (exec maxRetries retryDelay collectionError).

(** With no client, closeDatabase touches nothing and is fulfilled at once. *)
Lemma close_without_client s :
  exited s = None → is_set (client s) = false →
  ∃ s', exec [LCall OpClose] s = Some s'
    ∧ status s' (length (promises s)) = Some (Fulfilled VUndefined)
    ∧ client s' = client s ∧ clientPromise s' = clientPromise s
    ∧ tasks s' = tasks s ∧ trace s' = trace s
    ∧ promises s' = promises s ++ [{| pkind := PAsync; pstatus := Fulfilled VUndefined |}].
Proof.
  intros He Hc.
  destruct s as [c cp cl ps ts hs cg nw ex tr]; simpl in *; subst.
  eexists; split; [fire_call; reflexivity|].
  destruct c; try discriminate Hc; side.
Qed.

(** With a client, closeDatabase calls its [close] and waits for the answer. *)
Lemma close_with_client s cid out :
  exited s = None → client s = SRef cid →
  let r := length (promises s) in
  ∃ s', exec [LCall OpClose; LSettle (S r) out; LResume (length (tasks s))] s = Some s'
    ∧ tasks s' = tasks s ∧ exited s' = None
    ∧ length (promises s') = length (promises s) + 2
    ∧ match out with
      | inl _ => client s' = SNull ∧ clientPromise s' = SNull
                 ∧ status s' r = Some (Fulfilled VUndefined)
                 ∧ trace s' = trace s ++ [EvClose cid; EvLog LogClosed]
      | inr e => client s' = client s ∧ clientPromise s' = clientPromise s
                 ∧ status s' r = Some (Rejected e)
                 ∧ trace s' = trace s ++ [EvClose cid]
      end.
Proof.
  intros He Hc r. subst r.
  destruct s as [c cp cl ps ts hs cg nw ex tr]; simpl in *; subst.
  destruct out as [v|e]; simpl.
  all: eexists; split;
    [fire_call; fire_close; fire_resume; reflexivity|].
  all: side.
  all: repeat split; try len; rewrite <- app_assoc; done.
Qed.

(** C4, amended: with [client] unset closeDatabase is a no-op that is
    fulfilled at once; with [client] set it calls the driver's [close], and
    when that succeeds it clears [client] and [clientPromise] and is
    fulfilled, so that a second closeDatabase right after is again a no-op;
    when the driver's [close] fails, closeDatabase is rejected with that
    error and both variables keep their values. *)
Theorem closeDatabase_outcomes s :
  exited s = None →
  let r := length (promises s) in
  let n := length (tasks s) in
  (is_set (client s) = false →
     ∃ s', exec [LCall OpClose] s = Some s'
       ∧ status s' r = Some (Fulfilled VUndefined)
       ∧ client s' = client s ∧ clientPromise s' = clientPromise s
       ∧ tasks s' = tasks s ∧ trace s' = trace s)
  ∧ (∀ cid v, client s = SRef cid →
     ∃ s', exec [LCall OpClose; LSettle (S r) (inl v); LResume n] s = Some s'
       ∧ status s' r = Some (Fulfilled VUndefined)
       ∧ client s' = SNull ∧ clientPromise s' = SNull
       ∧ trace s' = trace s ++ [EvClose cid; EvLog LogClosed])
  ∧ (∀ cid e, client s = SRef cid →
     ∃ s', exec [LCall OpClose; LSettle (S r) (inr e); LResume n] s = Some s'
       ∧ status s' r = Some (Rejected e)
       ∧ client s' = client s ∧ clientPromise s' = clientPromise s
       ∧ trace s' = trace s ++ [EvClose cid])
  ∧ (∀ cid v, client s = SRef cid →
     ∃ s', exec [LCall OpClose; LSettle (S r) (inl v); LResume n; LCall OpClose] s = Some s'
       ∧ status s' r = Some (Fulfilled VUndefined)
       ∧ status s' (r + 2) = Some (Fulfilled VUndefined)
       ∧ client s' = SNull ∧ clientPromise s' = SNull
       ∧ trace s' = trace s ++ [EvClose cid; EvLog LogClosed]).
Proof.
  intros He r n. repeat split.
  - intros Hc. destruct (close_without_client s He Hc) as (s' & ? & ? & ? & ? & ? & ? & _).
    eauto 10.
  - intros cid v Hc.
    destruct (close_with_client s cid (inl v) He Hc)
      as (s' & H & _ & _ & _ & ? & ? & ? & ?). eauto 10.
  - intros cid e Hc.
    destruct (close_with_client s cid (inr e) He Hc)
      as (s' & H & _ & _ & _ & ? & ? & ? & ?). eauto 10.
  - intros cid v Hc.
    destruct (close_with_client s cid (inl v) He Hc)
      as (s1 & H1 & Ht & He1 & Hl & Hc1 & Hp1 & Hs1 & Htr1).
    destruct (close_without_client s1 He1) as (s2 & H2 & Hs2 & Hc2 & Hp2 & _ & Htr2 & Hpr2).
    { by rewrite Hc1. }
    exists s2. split.
    { change [LCall OpClose; LSettle (S r) (inl v); LResume n; LCall OpClose]
        with ([LCall OpClose; LSettle (S r) (inl v); LResume n] ++ [LCall OpClose]).
      erewrite exec_app; [exact H2|exact H1]. }
    rewrite Hl in Hs2. fold r in Hs2.
    repeat split; try congruence.
    unfold status in *. rewrite Hpr2. rewrite lookup_app_l by (fold r in Hl; lia).
    exact Hs1.
Qed.

End Close.

Lemma connected_state_reached :
  exec MAX_RETRIES RETRY_DELAY no_error connect_ok init_state = Some connected_state.
Proof. vm_compute. reflexivity. Qed.

Lemma closeDatabase_outcomes_witness :
  ∃ s', exec MAX_RETRIES RETRY_DELAY no_error
          [LCall OpClose; LSettle 3 (inl VUndefined); LResume 0] connected_state = Some s'
    ∧ status s' 2 = Some (Fulfilled VUndefined)
    ∧ client s' = SNull ∧ clientPromise s' = SNull
    ∧ trace s' = trace connected_state ++ [EvClose 0; EvLog LogClosed].
Proof.
  pose proof (closeDatabase_outcomes MAX_RETRIES RETRY_DELAY no_error connected_state) as H.
  specialize (H eq_refl). destruct H as (_ & H & _).
  exact (H 0 VUndefined eq_refl).
Defined.

(** C4, as stated, fails: when the driver's [close] reports an error, the
    error reaches the caller of closeDatabase and neither variable is
    cleared. *)
Lemma close_error_escapes :
  ∃ s', exec MAX_RETRIES RETRY_DELAY no_error
          [LCall OpClose; LSettle 3 (inr (VError "close failed")); LResume 0]
          connected_state = Some s'
    ∧ status s' 2 = Some (Rejected (VError "close failed"))
    ∧ is_set (client s') = true ∧ is_set (clientPromise s') = true.
Proof.
  eexists. split; [vm_compute; reflexivity|].
  vm_compute. repeat split; reflexivity.
Qed.

(** ** C5: graceful shutdown *)


Section Shutdown.

Variables (maxRetries retryDelay : nat).
Variable collectionError : nat → string → string → Value.

Local Abbreviation exec := (exec maxRetries retryDelay collectionError).
Local Abbreviation step := (step maxRetries retryDelay collectionError).

Lemma step_setup srv s :
  exited s = None → step (LSetup srv) s = Some (setupGracefulShutdown srv s).
Proof. intros E. unfold step. by rewrite E. Qed.

Lemma step_signal sig srv ls s :
  exited s = None → listeners sig s = srv :: ls →
  step (LSignal sig) s = Some (foldl (λ s srv, shutdown srv s) s (srv :: ls)).
Proof. intros E H. unfold step. by rewrite E, H. Qed.

Lemma step_server_closed i srv s :
  exited s = None → closing s !! i = Some srv →
  step (LServerClosed i) s
  = Some (shutdown_callback (set_closing (delete i (closing s)) s)).
Proof. intros E H. unfold step. by rewrite E, H. Qed.

Lemma step_exited l s c : exited s = Some c → step l s = None.
Proof. intros E. unfold step. by rewrite E. Qed.

Ltac fire_setup := eapply exec_step; [eapply step_setup; side|settled].
Ltac fire_signal := eapply exec_step; [eapply step_signal; [side|side]|settled].
Ltac fire_server_closed :=
  eapply exec_step; [eapply step_server_closed; [side|side]|settled].


End Shutdown.


(** ** Callers that share one attempt: every run *)

Section Sharing.

Variables (maxRetries retryDelay : nat).
Variable collectionError : nat → string → string → Value.
Variables (L p : nat) (v : Value) (tr : list Event).

Local Abbreviation exec := (exec maxRetries retryDelay collectionError).
Local Abbreviation step := (step maxRetries retryDelay collectionError).
Local Abbreviation shared := (shared L p v tr).

Lemma shared_intro s :
  exited s = None → clientPromise s = SRef p → trace s = tr →
  L ≤ length (promises s) →
  (∃ cid st, promises s !! p = Some {| pkind := PConnect cid; pstatus := st |}
             ∧ (st = Pending ∨ st = Fulfilled v)) →
  Forall (λ tk, ∃ r, L ≤ r ∧ kind s r = Some PAsync ∧ waits_for p r tk) (tasks s) →
  (∀ r st, L ≤ r → promises s !! r = Some {| pkind := PAsync; pstatus := st |} →
           st = Pending ∨ st = Fulfilled v) →
  shared s.
Proof. by repeat split. Qed.

Lemma shared_step l s s' :
  sharing_label p v l → step l s = Some s' → shared s → shared s'.
Proof.
  intros Hl H (He & Hcp & Htr & HL & (cid & st & Hp & Hst) & Hts & Hrs).
  unfold step in H. rewrite He in H.
  destruct s as [c cp cl ps ts hs cg nw ex trc]; simpl in *; subst.
  destruct l as [[url options| | | |]| | | |q out|dt|q|idx]; try done.
  - (* one more caller *)
    injection H as <-. flat. apply shared_intro; simpl; try done.
    + rewrite length_app. simpl. lia.
    + exists cid, st. split; [|done]. by apply lookup_app_l_Some.
    + apply Forall_app. split.
      * eapply Forall_impl; [exact Hts|]. intros tk (r & Hr & Hk & Hw).
        exists r. repeat split; try done; try apply Hw. unfold kind in *. simpl in *.
        destruct (ps !! r) eqn:E; [|done]. by rewrite (lookup_app_l_Some _ _ _ _ E).
      * apply Forall_singleton. exists (length ps). split; [lia|]. split.
        -- unfold kind. simpl. by rewrite list_lookup_middle.
        -- split; [done|by left].
    + intros r st' Hr Hlk.
      destruct (decide (r < length ps)) as [Hlt|Hge].
      * rewrite lookup_app_l in Hlk by done. by eapply Hrs.
      * apply lookup_app_Some in Hlk as [Hlk|[_ Hlk]].
        { apply lookup_lt_Some in Hlk. lia. }
        apply list_lookup_singleton_Some in Hlk as [_ Hlk]. injection Hlk as <-. by left.
  - (* the driver fulfils the attempt *)
    destruct Hl as [-> ->]. rewrite Hp in H.
    destruct st; try done. injection H as <-. flat. apply shared_intro; simpl; try done.
    + by rewrite length_alter.
    + exists cid, (Fulfilled v). split; [|by right].
      rewrite list_lookup_alter_eq, Hp. done.
    + eapply Forall_impl; [exact Hts|]. intros tk (r & Hr & Hk & Hw).
      exists r. repeat split; try done; try apply Hw. unfold kind in *. simpl in *.
      rewrite list_lookup_alter_ne; [done|]. intros <-. rewrite Hp in Hk. done.
    + intros r st' Hr Hlk. eapply Hrs; [exact Hr|].
      rewrite list_lookup_alter_ne in Hlk; [done|]. intros <-.
      rewrite list_lookup_alter_eq, Hp in Hlk. done.
  - (* time passes *)
    injection H as <-. flat. apply shared_intro; simpl; try done. eauto.
  - (* an unrelated timer *)
    destruct (ps !! q) as [[[] []]|] eqn:Eq; try done.
    destruct (deadline <=? nw); [|done]. injection H as <-. flat.
    assert (Hqp : q ≠ p) by (intros ->; rewrite Hp in Eq; done).
    apply shared_intro; simpl; try done.
    + by rewrite length_alter.
    + exists cid, st. split; [|done]. by rewrite list_lookup_alter_ne.
    + eapply Forall_impl; [exact Hts|]. intros tk (r & Hr & Hk & Hw).
      exists r. repeat split; try done; try apply Hw. unfold kind in *. simpl in *.
      rewrite list_lookup_alter_ne; [done|]. intros <-. rewrite Eq in Hk. done.
    + intros r st' Hr Hlk. eapply Hrs; [exact Hr|].
      rewrite list_lookup_alter_ne in Hlk; [done|]. intros <-.
      rewrite list_lookup_alter_eq, Eq in Hlk. done.
  - (* a caller is handed the outcome *)
    destruct (ts !! idx) as [tk|] eqn:Etk; [|done].
    pose proof (Forall_lookup_1 _ _ _ _ Hts Etk) as (r & Hr & Hk & [Haw Hfr]).
    unfold status in H. simpl in H. rewrite Haw, Hp in H. simpl in H.
    assert (Hd : Forall (λ tk, ∃ r, L ≤ r ∧ kind
                  {| client := c; clientPromise := SRef p; clients := cl; promises := ps;
                     tasks := ts; handlers := hs; closing := cg; now := nw;
                     exited := None; trace := tr |} r = Some PAsync
                  ∧ waits_for p r tk) (delete idx ts)).
    { rewrite Forall_forall in Hts |- *. intros x Hx. apply Hts.
      apply list_elem_of_lookup in Hx as [i Hi].
      destruct (decide (i < idx)).
      - rewrite list_lookup_delete_lt in Hi by done. by eapply list_elem_of_lookup_2.
      - rewrite list_lookup_delete_ge in Hi by lia. by eapply list_elem_of_lookup_2. }
    destruct Hst as [-> | ->]; [done|]. injection H as <-.
    unfold kind in Hk. simpl in Hk.
    destruct (ps !! r) as [[kr sr]|] eqn:Er; [|done]. simpl in Hk. injection Hk as ->.
    assert (Hrp : r ≠ p) by (intros ->; rewrite Hp in Er; done).
    destruct Hfr as [Hfr|(url & options & j & Hfr)]; rewrite Hfr; flat.
    + (* its promise adopts the value *)
      apply shared_intro; simpl; try done.
      * by rewrite length_alter.
      * exists cid, (Fulfilled v). split; [|by right]. by rewrite list_lookup_alter_ne.
      * eapply Forall_impl; [exact Hd|]. intros tk' (r' & Hr' & Hk' & Hw').
        exists r'. repeat split; try done; try apply Hw'. unfold kind in *. simpl in *.
        destruct (decide (r = r')) as [<-|Hne].
        -- rewrite list_lookup_alter_eq, Er. done.
        -- by rewrite list_lookup_alter_ne.
      * intros r' st' Hr' Hlk.
        destruct (decide (r = r')) as [<-|Hne].
        -- rewrite list_lookup_alter_eq, Er in Hlk. injection Hlk as <-. by right.
        -- rewrite list_lookup_alter_ne in Hlk by done. by eapply Hrs.
    + (* the caller that started the attempt returns [clientPromise] *)
      apply shared_intro; simpl; try done.
      * eauto.
      * apply Forall_app. split; [exact Hd|].
        apply Forall_singleton. exists r. split; [done|]. split.
        -- unfold kind. simpl. by rewrite Er.
        -- split; [done|by left].
Qed.

Lemma shared_exec ls s s' :
  Forall (sharing_label p v) ls → exec ls s = Some s' → shared s → shared s'.
Proof.
  revert s. induction ls as [|l ls IH]; intros s Hls H Hs.
  - unfold exec in H. simpl in H. by injection H as <-.
  - apply Forall_cons in Hls as [Hl Hls].
    unfold exec in H. simpl in H. fold exec in H.
    destruct (step l s) as [s1|] eqn:E; [|done].
    apply (IH s1 Hls H). by eapply shared_step.
Qed.

Lemma shared_result s r out :
  shared s → L ≤ r → kind s r = Some PAsync →
  status s r = Some out → out ≠ Pending → out = Fulfilled v.
Proof.
  intros (_ & _ & _ & _ & _ & _ & Hrs) Hr Hk Hs Hout.
  unfold kind, status in *. destruct (promises s !! r) as [[k st]|] eqn:E; [|done].
  simpl in *. injection Hk as ->. injection Hs as ->.
  destruct (Hrs r out Hr E) as [->| ->]; done.
Qed.

End Sharing.

Section SharingStart.

Variables (maxRetries retryDelay : nat).
Variable collectionError : nat → string → string → Value.

Local Abbreviation exec := (exec maxRetries retryDelay collectionError).

(** The call that starts the attempt, on a module with nothing suspended. *)
Lemma shared_start s url options v :
  exited s = None → is_set (clientPromise s) = false → tasks s = [] →
  shared (length (promises s)) (S (length (promises s))) v
    (trace s ++ [EvNewClient (length (clients s)) url options;
                 EvConnect (length (clients s))])
    (call (OpConnect url options) s).2.
Proof.
  intros He Hc Ht. unfold call. rewrite connect_fresh by done.
  apply shared_intro; simpl; try done.
  - rewrite length_app. lia.
  - eexists _, Pending. split; [|by left].
    rewrite lookup_app_r by lia. by rewrite Nat.sub_succ_l, Nat.sub_diag.
  - rewrite Ht. simpl. apply Forall_singleton. exists (length (promises s)).
    split; [done|]. split.
    + unfold kind. simpl. by rewrite list_lookup_middle.
    + split; [done|]. right. eauto.
  - intros r st Hr Hlk. apply lookup_app_Some in Hlk as [Hlk|[_ Hlk]].
    { apply lookup_lt_Some in Hlk. lia. }
    destruct (r - length (promises s)) as [|[|k]] eqn:E; simpl in Hlk; try done.
    injection Hlk as <-. by left.
Qed.

(** Every run in which callers keep joining and the driver fulfils the
    attempt with [v]. *)
Lemma shared_runs s url options v ls s' :
  exited s = None → is_set (clientPromise s) = false → tasks s = [] →
  Forall (sharing_label (S (length (promises s))) v) ls →
  exec (LCall (OpConnect url options) :: ls) s = Some s' →
  trace s' = trace s ++ [EvNewClient (length (clients s)) url options;
                         EvConnect (length (clients s))]
  ∧ ∀ r out, length (promises s) ≤ r → kind s' r = Some PAsync →
             status s' r = Some out → out ≠ Pending → out = Fulfilled v.
Proof.
  intros He Hc Ht Hls H.
  assert (H1 : exec ls (call (OpConnect url options) s).2 = Some s').
  { by eapply exec_call_inv. }
  pose proof (shared_exec maxRetries retryDelay collectionError _ _ _ _ _ _ _
                Hls H1 (shared_start s url options v He Hc Ht)) as Hsh.
  split.
  - by destruct Hsh as (_ & _ & ? & _).
  - intros r out. eapply shared_result. exact Hsh.
Qed.

End SharingStart.

(** ** C2 and C10: the memoized promise *)

Section Memo.

Variables (maxRetries retryDelay : nat).
Variable collectionError : nat → string → string → Value.

Local Abbreviation exec := (exec maxRetries retryDelay collectionError).

(** A first call on a module that holds no promise, answered by a driver
    that connects: the value is memoized. *)
Lemma first_call_memoizes s url options v :
  exited s = None → is_set (clientPromise s) = false →
  let r := length (promises s) in
  let n := length (tasks s) in
  ∃ s', exec [LCall (OpConnect url options); LSettle (S r) (inl v);
              LResume n; LResume n] s = Some s'
    ∧ memoized s' (S r) v ∧ status s' r = Some (Fulfilled v)
    ∧ exited s' = None ∧ tasks s' = tasks s ∧ now s' = now s
    ∧ length (promises s') = r + 2
    ∧ trace s' = trace s ++ [EvNewClient (length (clients s)) url options;
                             EvConnect (length (clients s))].
Proof.
  intros He Hc r n. subst r n.
  destruct s as [c cp cl ps ts hs cg nw ex tr]; simpl in *; subst.
  destruct cp; try discriminate Hc.
  all: eexists; split;
    [fire_call; fire_connect; fire_resume; fire_resume; reflexivity|].
  all: unfold memoized; side.
  all: repeat split; try len; try (f_equal; len); by rewrite <- app_assoc.
Qed.

(** A call on a module whose promise is fulfilled: one resumption hands
    the memoized value over, and nothing else changes. *)
Lemma memoized_call s p v url options :
  exited s = None → memoized s p v →
  ∃ s', exec [LCall (OpConnect url options); LResume (length (tasks s))] s = Some s'
    ∧ promises s' = promises s ++ [{| pkind := PAsync; pstatus := Fulfilled v |}]
    ∧ client s' = client s ∧ clientPromise s' = clientPromise s
    ∧ clients s' = clients s ∧ tasks s' = tasks s ∧ trace s' = trace s
    ∧ now s' = now s ∧ exited s' = None.
Proof.
  intros He [Hc Hp].
  assert (Hlt : p < length (promises s)).
  { unfold status in Hp. destruct (promises s !! p) eqn:E; [|done].
    by eapply lookup_lt_Some. }
  destruct s as [c cp cl ps ts hs cg nw ex tr]; simpl in *; subst.
  unfold status in Hp; simpl in Hp.
  eexists. split.
  { fire_call. eapply exec_step; [|reflexivity].
    eapply step_resume; [side|side| |].
    - unfold status; simpl; stores. exact Hp.
    - done. }
  side.
Qed.

Lemma memoized_calls reqs s p v :
  exited s = None → memoized s p v →
  ∃ s', exec (acquire_all (length (tasks s)) reqs) s = Some s'
    ∧ promises s' = promises s
        ++ replicate (length reqs) {| pkind := PAsync; pstatus := Fulfilled v |}
    ∧ client s' = client s ∧ clientPromise s' = clientPromise s
    ∧ clients s' = clients s ∧ tasks s' = tasks s ∧ trace s' = trace s
    ∧ now s' = now s ∧ exited s' = None.
Proof.
  revert s. induction reqs as [|[url options] reqs IH]; intros s He Hm.
  - exists s. simpl. rewrite app_nil_r. done.
  - destruct (memoized_call s p v url options He Hm)
      as (s1 & H1 & Hp1 & Hc1 & Hcp1 & Hcl1 & Ht1 & Htr1 & Hn1 & He1).
    assert (Hm1 : memoized s1 p v).
    { destruct Hm as [Hc Hp]. split; [congruence|].
      unfold status in *. rewrite Hp1.
      destruct (promises s !! p) eqn:E; [|done].
      by rewrite (lookup_app_l_Some _ _ _ _ E). }
    destruct (IH s1 He1 Hm1) as (s2 & H2 & Hp2 & Hc2 & Hcp2 & Hcl2 & Ht2 & Htr2 & Hn2 & He2).
    exists s2. split.
    { change (acquire_all (length (tasks s)) ((url, options) :: reqs))
        with ([LCall (OpConnect url options); LResume (length (tasks s))]
                ++ acquire_all (length (tasks s)) reqs).
      erewrite exec_app; [|exact H1]. by rewrite <- Ht1. }
    rewrite Hp2, Hp1, <- app_assoc. simpl.
    repeat split; congruence.
Qed.



End Memo.



(** ** C6: getCollection and the error marker of the handle *)

Section Lookup.

Variables (maxRetries retryDelay : nat).
Variable collectionError : nat → string → string → Value.

Local Abbreviation exec := (exec maxRetries retryDelay collectionError).
Local Abbreviation resume := (resume maxRetries retryDelay collectionError).

Lemma getCollection_never_fulfils_marked s r out dbName collName h :
  status s r = Some Pending →
  status (resume (FGetCollection dbName collName r) out s) r = Some (Fulfilled h) →
  truthy (error_of h) = false.
Proof.
  intros Hp.
  assert (Hlt : r < length (promises s)).
  { unfold status in Hp. destruct (promises s !! r) eqn:E; [|done].
    by eapply lookup_lt_Some. }
  destruct out as [|c|e]; simpl.
  - rewrite Hp. discriminate.
  - destruct (db_of c dbName) as [db|e]; [|by rewrite status_settle_eq].
    destruct (collection_of collectionError db collName) as [coll|e];
      [|by rewrite status_settle_eq].
    destruct (truthy (error_of coll)) eqn:Et;
      rewrite status_settle_eq by done; [done|].
    by intros [= <-].
  - by rewrite status_settle_eq.
Qed.

(** C6: when the connection succeeds and the driver's handle for the
    collection carries a truthy [error], getCollection is rejected with that
    very value, whether the connection is made by this call or was
    memoized before; and whatever getCollection is resumed with, it never
    fulfils its promise with a handle whose [error] is truthy. *)
Theorem getCollection_propagates_error s url options dbName collName c :
  exited s = None →
  truthy (collectionError c dbName collName) = true →
  let r := length (promises s) in
  let n := length (tasks s) in
  let op := OpGetCollection url options dbName collName in
  (is_set (clientPromise s) = false →
     ∃ s', exec [LCall op; LSettle (r + 2) (inl (VConn c));
                 LResume n; LResume (S n); LResume n] s = Some s'
       ∧ status s' r = Some (Rejected (collectionError c dbName collName)))
  ∧ (∀ p, memoized s p (VConn c) →
     ∃ s', exec [LCall op; LResume n; LResume n] s = Some s'
       ∧ status s' r = Some (Rejected (collectionError c dbName collName)))
  ∧ (∀ s0 r0 out h,
       status s0 r0 = Some Pending →
       status (resume (FGetCollection dbName collName r0) out s0) r0
         = Some (Fulfilled h) →
       truthy (error_of h) = false).
Proof.
  intros He Ht r n op. subst r n op.
  repeat split.
  - intros Hc.
    destruct s as [c0 cp cl ps ts hs cg nw ex tr]; simpl in *; subst.
    destruct cp; try discriminate Hc.
    all: eexists; split;
      [fire_call; fire_connect; fire_resume; fire_resume; fire_resume; reflexivity|].
    all: rewrite Ht; side.
  - intros p [Hcp Hs].
    assert (Hlt : p < length (promises s)).
    { unfold status in Hs. destruct (promises s !! p) eqn:E'; [|done].
      by eapply lookup_lt_Some. }
    destruct s as [c0 cp cl ps ts hs cg nw ex tr]; simpl in *; subst.
    unfold status in Hs; simpl in Hs.
    eexists. split.
    { fire_call.
      eapply exec_step.
      { eapply step_resume; [side|side| |].
        - unfold status; simpl; stores. exact Hs.
        - done. }
      settled. fire_resume. reflexivity. }
    rewrite Ht; side.
  - intros s0 r0 out h. apply getCollection_never_fulfils_marked.
Qed.

End Lookup.

Lemma getCollection_propagates_error_witness :
  ∃ s', exec MAX_RETRIES RETRY_DELAY missing_collection
          [LCall (OpGetCollection "mongodb://db:27017" ∅ "db" "missing");
           LSettle (0 + 2) (inl (VConn 0)); LResume 0; LResume 1; LResume 0]
          init_state = Some s'
    ∧ status s' 0 = Some (Rejected (VError "ns does not exist")).
Proof.
  pose proof (getCollection_propagates_error MAX_RETRIES RETRY_DELAY missing_collection
                init_state "mongodb://db:27017" ∅ "db" "missing" 0
                eq_refl eq_refl) as (H & _).
  exact (H eq_refl).
Defined.

(** ** A chain against a failing driver: one run *)

Section Retry.

Variables (maxRetries retryDelay : nat).
Variable collectionError : nat → string → string → Value.

Local Abbreviation exec := (exec maxRetries retryDelay collectionError).
Local Abbreviation step := (step maxRetries retryDelay collectionError).

Lemma ticks_app tr1 tr2 : ticks (tr1 ++ tr2) = ticks tr1 ++ ticks tr2.
Proof. apply omap_app. Qed.

Lemma retries_after_S k d : retries_after (S k) d = [Wait d; Attempt] ++ retries_after k d.
Proof. reflexivity. Qed.

Lemma total_wait_app l1 l2 : total_wait (l1 ++ l2) = total_wait l1 + total_wait l2.
Proof.
  induction l1 as [|[|ms] l1 IH]; simpl; [done|done|]. rewrite IH. lia.
Qed.

Lemma total_wait_retries k d : total_wait (retries_after k d) = k * d.
Proof.
  induction k as [|k IH]; [done|].
  rewrite retries_after_S, total_wait_app, IH. simpl. lia.
Qed.

Lemma status_lt s p st : status s p = Some st → p < length (promises s).
Proof.
  unfold status. intros H. destruct (promises s !! p) eqn:E; [|done].
  by eapply lookup_lt_Some.
Qed.

(** A pending attempt of a chain that has [k] retries left, driven by a
    driver that fails it and every later one: the chain makes [k] more
    attempts, [retryDelay] apart, and its promise [r] is rejected with the
    final error.  Frames suspended around the chain ([A], [X]) are left
    alone. *)
Lemma exhaust_from_attempt k : ∀ j S A X p r url options cid (errs : nat → Value),
  j + k = maxRetries →
  exited S = None →
  tasks S = A ++ {| awaiting := p; frame := FConnectAwait url options j r |} :: X →
  promises S !! p = Some {| pkind := PConnect cid; pstatus := Pending |} →
  status S r = Some Pending →
  p ≠ r →
  ∃ ls S',
    forallb failing_alone ls = true
    ∧ exec ls S = Some S'
    ∧ tasks S' = A ++ X
    ∧ status S' r = Some (Rejected exhausted_error)
    ∧ ticks (trace S') = ticks (trace S) ++ retries_after k retryDelay
    ∧ now S' = now S + k * retryDelay
    ∧ exited S' = None
    ∧ clientPromise S' = SNull
    ∧ length (promises S) ≤ length (promises S')
    ∧ (∀ q, q < length (promises S) → q ≠ p → q ≠ r →
            promises S' !! q = promises S !! q).
Proof.
  induction k as [|k IH]; intros j S A X p r url options cid errs Hj He Ht Hp Hr Hne.
  - (* the budget is spent: the failure of this attempt is final *)
    assert (Hrl := status_lt _ _ _ Hr).
    destruct S as [c cp cl ps ts hs cg nw ex tr]; simpl in *; subst.
    unfold status in Hr; simpl in Hr.
    exists [LSettle p (inr (errs j)); LResume (length A)]. eexists.
    split; [done|]. split.
    { eapply exec_step; [eapply step_settle_connect; [done|exact Hp]|settled].
      eapply exec_step; [|reflexivity].
      eapply step_resume; [done|side| |].
      - unfold status; simpl. rewrite list_lookup_alter_eq, Hp. reflexivity.
      - done. }
    simpl. rewrite Nat.add_0_r, Nat.ltb_irrefl. simpl.
    unfold status. simpl. stores.
    repeat split; try done.
    + rewrite list_lookup_alter_eq.
      rewrite list_lookup_alter_ne by done.
      destruct (ps !! r); simpl in *; [done|discriminate Hr].
    + rewrite ticks_app. simpl. by rewrite app_nil_r.
    + len.
    + intros q Hq Hqp Hqr. by rewrite !list_lookup_alter_ne.
  - (* a retry remains: wait, attempt again, and pass the outcome on *)
    assert (Hrl := status_lt _ _ _ Hr).
    assert (Hpl : p < length (promises S)) by (by eapply lookup_lt_Some).
    assert (Hlt : (j <? maxRetries) = true) by (apply Nat.ltb_lt; lia).
    destruct S as [c cp cl ps ts hs cg nw ex tr]; simpl in *; subst ts ex.
    unfold status in Hr; simpl in Hr.
    set (t := length ps).
    set (S5 :=
      {| client := SRef (length cl);
         clientPromise := SRef (t + 2);
         clients := cl ++ [(url, options)];
         promises :=
           alter (λ pr, {| pkind := pkind pr; pstatus := Rejected (errs j) |}) p ps
           ++ [{| pkind := PTimer (nw + retryDelay); pstatus := Fulfilled VUndefined |};
               {| pkind := PAsync; pstatus := Pending |};
               {| pkind := PConnect (length cl); pstatus := Pending |}];
         tasks := (A ++ X)
           ++ {| awaiting := t + 2; frame := FConnectAwait url options (S j) (t + 1) |}
           :: [{| awaiting := t + 1; frame := FForward r |}];
         handlers := hs; closing := cg; now := nw + retryDelay; exited := None;
         trace := tr ++ [EvLog (LogInitialFailed (errs j));
                         EvLog (LogRetry (S j) retryDelay);
                         EvSetTimeout retryDelay;
                         EvNewClient (length cl) url options;
                         EvConnect (length cl)] |}).
    assert (H5 : exec [LSettle p (inr (errs j)); LResume (length A);
                       LAdvance retryDelay; LTimer t; LResume (length (A ++ X))]
                   {| client := c; clientPromise := cp; clients := cl; promises := ps;
                      tasks := A ++ {| awaiting := p; frame := FConnectAwait url options j r |} :: X;
                      handlers := hs; closing := cg; now := nw; exited := None; trace := tr |}
                 = Some S5).
    { eapply exec_step; [eapply step_settle_connect; [done|exact Hp]|settled].
      eapply exec_step.
      { eapply step_resume; [done|side| |].
        - unfold status; simpl. rewrite list_lookup_alter_eq, Hp. reflexivity.
        - done. }
      settled. rewrite Hlt. settled.
      fire_advance. fire_timer. fire_resume.
      apply exec_nil_eq. unfold S5, t.
      f_equal; rewrite <- ?app_assoc; simpl; repeat f_equal; len. }
    assert (Hp5 : promises S5 !! (t + 2)
                  = Some {| pkind := PConnect (length cl); pstatus := Pending |}).
    { simpl. rewrite lookup_app_r by len.
      rewrite length_alter. by replace (t + 2 - length ps) with 2 by (unfold t; lia). }
    assert (Hr5 : status S5 (t + 1) = Some Pending).
    { unfold status. simpl. rewrite lookup_app_r by len.
      rewrite length_alter. by replace (t + 1 - length ps) with 1 by (unfold t; lia). }
    destruct (IH (S j) S5 (A ++ X) [{| awaiting := t + 1; frame := FForward r |}]
                (t + 2) (t + 1) url options (length cl) errs)
      as (ls & S6 & Hls & H6 & Ht6 & Hs6 & Htr6 & Hn6 & He6 & Hc6 & Hl6 & Hq6);
      [lia|done|done|exact Hp5|exact Hr5|lia|].
    assert (Hr6 : status S6 r = Some Pending).
    { unfold status. rewrite Hq6; [|simpl; len|unfold t; lia|unfold t; lia].
      simpl. rewrite lookup_app_l by len.
      rewrite list_lookup_alter_ne by done. exact Hr. }
    exists ([LSettle p (inr (errs j)); LResume (length A);
             LAdvance retryDelay; LTimer t; LResume (length (A ++ X))]
            ++ ls ++ [LResume (length (A ++ X))]).
    eexists. split.
    { rewrite !forallb_app, Hls. reflexivity. }
    split.
    { erewrite exec_app; [|exact H5]. erewrite exec_app; [|exact H6].
      eapply exec_step; [|reflexivity].
      eapply step_resume with (tk := {| awaiting := t + 1; frame := FForward r |});
        [done| |exact Hs6|done].
      rewrite Ht6. by rewrite list_lookup_middle. }
    simpl. rewrite Ht6, delete_middle, app_nil_r.
    repeat split; try done.
    + apply status_settle_eq. by eapply status_lt.
    + rewrite Htr6. simpl. rewrite !ticks_app. simpl.
      rewrite retries_after_S. by rewrite <- app_assoc.
    + rewrite Hn6. simpl. lia.
    + rewrite length_alter. etrans; [|exact Hl6]. simpl. len.
    + intros q Hq Hqp Hqr. rewrite list_lookup_alter_ne by done.
      rewrite Hq6; [|simpl; len|unfold t; lia|unfold t; lia].
      simpl. rewrite lookup_app_l by len. by rewrite list_lookup_alter_ne.
Qed.

(** One whole chain: a call on a module that holds no promise, with a driver
    that fails every attempt. *)
Lemma exhausted_chain s url options (errs : nat → Value) :
  exited s = None → is_set (clientPromise s) = false →
  ∃ ls s',
    forallb failing_alone ls = true
    ∧ exec (LCall (OpConnect url options) :: ls) s = Some s'
    ∧ status s' (length (promises s)) = Some (Rejected exhausted_error)
    ∧ ticks (trace s') = ticks (trace s) ++ attempts maxRetries retryDelay
    ∧ now s' = now s + maxRetries * retryDelay
    ∧ tasks s' = tasks s ∧ clientPromise s' = SNull ∧ exited s' = None.
Proof.
  intros He Hc.
  destruct s as [c cp cl ps ts hs cg nw ex tr]; simpl in *; subst.
  set (S1 :=
    {| client := SRef (length cl);
       clientPromise := SRef (length ps + 1);
       clients := cl ++ [(url, options)];
       promises := ps ++ [{| pkind := PAsync; pstatus := Pending |};
                          {| pkind := PConnect (length cl); pstatus := Pending |}];
       tasks := ts ++ [{| awaiting := length ps + 1;
                          frame := FConnectAwait url options 0 (length ps) |}];
       handlers := hs; closing := cg; now := nw; exited := None;
       trace := tr ++ [EvNewClient (length cl) url options; EvConnect (length cl)] |}).
  destruct (exhaust_from_attempt maxRetries 0 S1 ts [] (length ps + 1) (length ps)
              url options (length cl) errs)
    as (ls & s' & Hls & H & Ht & Hs & Htr & Hn & He' & Hcp & _ & _);
    [done|done|done| | |lia|].
  { simpl. by rewrite lookup_app_r, Nat.add_comm, Nat.add_sub by lia. }
  { unfold status. simpl. by rewrite list_lookup_middle. }
  exists ls, s'. split; [done|]. split.
  { eapply exec_step; [by eapply step_call|]. rewrite <- H. f_equal.
    destruct cp; try discriminate Hc; flat; unfold S1;
      f_equal; rewrite <- ?app_assoc; simpl; repeat f_equal; len. }
  rewrite app_nil_r in Ht. repeat split; try done.
  rewrite Htr. unfold S1. simpl. rewrite ticks_app, <- app_assoc. done.
Qed.

End Retry.

(** ** A chain against a failing driver: every run *)

Lemma fwds_cons a b rest :
  fwds (a :: b :: rest) = {| awaiting := a; frame := FForward b |} :: fwds (b :: rest).
Proof. reflexivity. Qed.

Lemma fwds_awaiting rs x : x ∈ fwds rs → awaiting x ∈ rs.
Proof.
  induction rs as [|a [|b rest] IH]; intros H.
  - by apply elem_of_nil in H.
  - by apply elem_of_nil in H.
  - rewrite fwds_cons in H.
    apply elem_of_cons in H as [->|H]; [left|right; by apply IH].
Qed.

Lemma fwds_head a rest x :
  NoDup (a :: rest) → x ∈ fwds (a :: rest) → awaiting x = a →
  ∃ b rest', rest = b :: rest' ∧ x = {| awaiting := a; frame := FForward b |}.
Proof.
  intros Hnd Hx Ha. destruct rest as [|b rest'].
  - by apply elem_of_nil in Hx.
  - rewrite fwds_cons in Hx. apply elem_of_cons in Hx as [->|Hx]; [eauto|].
    apply fwds_awaiting in Hx. rewrite Ha in Hx.
    apply NoDup_cons in Hnd as [Hn _]. done.
Qed.

Lemma pending_async_alter f q ps r x :
  pending_async ps r → ps !! q = Some x →
  (pkind x ≠ PAsync ∨ pstatus x ≠ Pending) →
  pending_async (alter f q ps) r.
Proof.
  unfold pending_async. intros Hr Hq Hx.
  destruct (decide (q = r)) as [->|Hne].
  - rewrite Hr in Hq. injection Hq as <-. simpl in Hx. destruct Hx as [Hx|Hx]; by destruct Hx.
  - by rewrite list_lookup_alter_ne.
Qed.

Lemma pending_async_app ps extra r : pending_async ps r → pending_async (ps ++ extra) r.
Proof. unfold pending_async. intros H. by apply lookup_app_l_Some. Qed.

Lemma retries_after_snoc k d : retries_after (S k) d = retries_after k d ++ [Wait d; Attempt].
Proof.
  unfold retries_after. induction k as [|k IH]; [done|].
  change (concat (replicate (S (S k)) [Wait d; Attempt]))
    with ([Wait d; Attempt] ++ concat (replicate (S k) [Wait d; Attempt])).
  rewrite IH at 1. by rewrite app_assoc.
Qed.

Section Alone.

Variables (maxRetries retryDelay : nat).
Variable collectionError : nat → string → string → Value.
Variables (url : string) (options : Options).
Variables (r0 : nat) (tr0 : list Tick) (t0 : nat).

Local Abbreviation exec := (exec maxRetries retryDelay collectionError).
Local Abbreviation step := (step maxRetries retryDelay collectionError).

Local Abbreviation alone := (alone maxRetries retryDelay url options r0 tr0 t0).

Lemma alone_settle q e s s' :
  step (LSettle q (inr e)) s = Some s' → alone s → alone s'.
Proof.
  intros H [He Hph]. unfold step in H. rewrite He in H.
  destruct (promises s !! q) as [x|] eqn:Eq; [|done].
  assert (Hx : (pkind x ≠ PAsync ∨ pstatus x ≠ Pending) ∧ pstatus x = Pending
               ∧ (∀ D, pkind x ≠ PTimer D)
               ∧ s' = settle q (Rejected e) s).
  { destruct x as [[] []]; simpl in H; try done; injection H as <-;
      (split; [by left|]); repeat split; done. }
  destruct Hx as (Hx & Hxp & Hxt & ->). clear H.
  split; [done|]. simpl.
  destruct Hph as [j rs p cid st Ht Hp Hst Hrs Hnd Hl Hla Hj Htr Hn
                  |j rs t D st Ht Hp Hst HD Hcp Hrs Hnd Hl Hla Hj Htr
                  |a rest Ht Ha Hrs Hnd Hla Htr Hn].
  - destruct (decide (q = p)) as [->|Hne].
    + eapply PhAttempt with (p := p) (st := Rejected e); eauto.
      * rewrite list_lookup_alter_eq, Hp. done.
      * eapply Forall_impl; [exact Hrs|]. intros r Hr.
        eapply pending_async_alter; [exact Hr|exact Eq|exact Hx].
    + eapply PhAttempt with (p := p); eauto.
      * by rewrite list_lookup_alter_ne.
      * eapply Forall_impl; [exact Hrs|]. intros r Hr.
        eapply pending_async_alter; [exact Hr|exact Eq|exact Hx].
  - eapply PhSleep with (t := t); eauto.
    + rewrite list_lookup_alter_ne; [done|]. intros ->. rewrite Hp in Eq.
      injection Eq as <-. by eapply Hxt.
    + eapply Forall_impl; [exact Hrs|]. intros r Hr.
        eapply pending_async_alter; [exact Hr|exact Eq|exact Hx].
  - eapply PhUnwind; eauto.
    + rewrite list_lookup_alter_ne; [done|]. intros ->. rewrite Ha in Eq.
      injection Eq as <-. done.
    + eapply Forall_impl; [exact Hrs|]. intros r Hr.
        eapply pending_async_alter; [exact Hr|exact Eq|exact Hx].
Qed.

Lemma alone_advance dt s s' :
  step (LAdvance dt) s = Some s' → alone s → alone s'.
Proof.
  intros H [He Hph]. unfold step in H. rewrite He in H. injection H as <-.
  split; [done|]. simpl.
  destruct Hph as [j rs p cid st Ht Hp Hst Hrs Hnd Hl Hla Hj Htr Hn
                  |j rs t D st Ht Hp Hst HD Hcp Hrs Hnd Hl Hla Hj Htr
                  |a rest Ht Ha Hrs Hnd Hla Htr Hn].
  - eapply PhAttempt; eauto. lia.
  - eapply PhSleep; eauto. destruct Hst as [?|[? ?]]; [by left|right; split; [done|lia]].
  - eapply PhUnwind; eauto. lia.
Qed.

Lemma alone_timer q s s' :
  step (LTimer q) s = Some s' → alone s → alone s'.
Proof.
  intros H [He Hph]. unfold step in H. rewrite He in H.
  destruct (promises s !! q) as [x|] eqn:Eq; [|done].
  assert (Hx : ∃ D, x = {| pkind := PTimer D; pstatus := Pending |} ∧ D ≤ now s
               ∧ s' = settle q (Fulfilled VUndefined) s).
  { destruct x as [[] []]; try done.
    destruct (deadline <=? now s) eqn:El; [|done]. injection H as <-.
    apply Nat.leb_le in El. eauto. }
  destruct Hx as (D' & -> & HD' & ->). clear H.
  split; [done|]. simpl.
  destruct Hph as [j rs p cid st Ht Hp Hst Hrs Hnd Hl Hla Hj Htr Hn
                  |j rs t D st Ht Hp Hst HD Hcp Hrs Hnd Hl Hla Hj Htr
                  |a rest Ht Ha Hrs Hnd Hla Htr Hn].
  - eapply PhAttempt with (p := p); eauto.
    + rewrite list_lookup_alter_ne; [done|]. intros ->. rewrite Hp in Eq. done.
    + eapply Forall_impl; [exact Hrs|]. intros r Hr.
      eapply pending_async_alter; [done|exact Eq|by left].
  - destruct (decide (q = t)) as [->|Hne].
    + rewrite Hp in Eq. injection Eq as -> ->.
      eapply PhSleep with (t := t) (st := Fulfilled VUndefined); eauto.
      * rewrite list_lookup_alter_eq, Hp. done.
      * eapply Forall_impl; [exact Hrs|]. intros r Hr.
        eapply pending_async_alter; [done|exact Hp|by left].
    + eapply PhSleep with (t := t); eauto.
      * by rewrite list_lookup_alter_ne.
      * eapply Forall_impl; [exact Hrs|]. intros r Hr.
        eapply pending_async_alter; [done|exact Eq|by left].
  - eapply PhUnwind; eauto.
    + rewrite list_lookup_alter_ne; [done|]. intros ->. rewrite Ha in Eq. done.
    + eapply Forall_impl; [exact Hrs|]. intros r Hr.
      eapply pending_async_alter; [done|exact Eq|by left].
Qed.

Lemma alone_resume idx s s' :
  step (LResume idx) s = Some s' → alone s → alone s'.
Proof.
  intros H [He Hph]. unfold step in H. rewrite He in H.
  destruct (tasks s !! idx) as [tk|] eqn:Etk; [|done].
  destruct (status s (awaiting tk)) as [out|] eqn:Est; [|done].
  assert (Hout : out ≠ Pending
                 ∧ s' = resume maxRetries retryDelay collectionError (frame tk) out
                          (set_tasks (delete idx (tasks s)) s)).
  { destruct out; [done| |]; injection H as <-; done. }
  destruct Hout as [Hout ->]. clear H.
  pose proof (delete_Permutation _ _ _ Etk) as Hperm.
  assert (Hin : tk ∈ tasks s) by (by eapply list_elem_of_lookup_2).
  destruct s as [c cp cl ps ts hs cg nw ex tr]; simpl in *. subst ex.
  unfold status in Est; simpl in Est.
  assert (Hpend : ∀ rs, Forall (pending_async ps) rs → tk ∈ fwds rs → False).
  { intros rs Hrs Hx. apply fwds_awaiting in Hx.
    rewrite Forall_forall in Hrs. specialize (Hrs _ Hx).
    unfold pending_async in Hrs. rewrite Hrs in Est. simpl in Est.
    injection Est as <-. done. }
  destruct Hph as [j rs p cid st Ht Hp Hst Hrs Hnd Hl Hla Hj Htr Hn
                  |j rs t D st Ht Hp Hst HD Hcp Hrs Hnd Hl Hla Hj Htr
                  |a rest Ht Ha Hrs Hnd Hla Htr Hn].
  - (* an attempt is in flight *)
    rewrite Ht in Hin. apply elem_of_cons in Hin as [->|Hin]; [|by destruct (Hpend rs)].
    simpl in Est. rewrite Hp in Est. simpl in Est. injection Est as <-.
    destruct Hst as [->|[e ->]]; [done|].
    assert (Hd : delete idx ts ≡ₚ fwds rs).
    { eapply Permutation_cons_inv. etrans; [symmetry; exact Hperm|exact Ht]. }
    destruct rs as [|a rest]; [done|].
    split; [simpl; by destruct (j <? maxRetries)|].
    simpl. destruct (j <? maxRetries) eqn:Elt; simpl.
    + apply Nat.ltb_lt in Elt.
      eapply PhSleep with (j := j) (rs := a :: rest) (t := length ps)
                          (D := nw + retryDelay) (st := Pending); eauto.
      * rewrite Hd. symmetry. apply Permutation_cons_append.
      * by rewrite list_lookup_middle.
      * simpl. lia.
      * eapply Forall_impl; [exact Hrs|]. intros r. apply pending_async_app.
      * rewrite <- !app_assoc. simpl. rewrite ticks_app, Htr. simpl.
        by rewrite <- app_assoc.
    + apply Nat.ltb_ge in Elt. assert (j = maxRetries) as -> by lia.
      apply Forall_cons in Hrs as [Hra Hrs]. apply NoDup_cons in Hnd as Hnd'.
      destruct Hnd' as [Hna Hnd'].
      eapply PhUnwind with (a := a) (rest := rest); eauto.
      * rewrite list_lookup_alter_eq. unfold pending_async in Hra. by rewrite Hra.
      * rewrite Forall_forall in Hrs |- *. intros r Hr.
        unfold pending_async. rewrite list_lookup_alter_ne; [by apply Hrs|].
        intros ->. done.
      * rewrite ticks_app, Htr. simpl. by rewrite app_nil_r.
  - (* waiting for the timer *)
    rewrite Ht in Hin. apply elem_of_cons in Hin as [->|Hin]; [|by destruct (Hpend rs)].
    simpl in Est. rewrite Hp in Est. simpl in Est. injection Est as <-.
    destruct Hst as [->|[-> HDn]]; [done|].
    assert (Hd : delete idx ts ≡ₚ fwds rs).
    { eapply Permutation_cons_inv. etrans; [symmetry; exact Hperm|exact Ht]. }
    destruct rs as [|a rest]; [done|].
    assert (Hlen : ∀ r, r ∈ a :: rest → r < length ps).
    { intros r Hr. rewrite Forall_forall in Hrs. specialize (Hrs _ Hr).
      by eapply lookup_lt_Some. }
    destruct cp as [| |x]; [| |done].
    all: split; [done|]; simpl.
    all: eapply PhAttempt with (j := S j) (rs := length ps :: a :: rest)
           (p := length (ps ++ [{| pkind := PAsync; pstatus := Pending |}]))
           (cid := length cl) (st := Pending); eauto.
    all: try (by rewrite list_lookup_middle).
    all: try (simpl; lia).
    all: try (rewrite fwds_cons, Hd; simpl;
              rewrite <- app_assoc; simpl;
              etrans; [symmetry; apply Permutation_middle|]; simpl;
              apply perm_skip; symmetry; apply Permutation_cons_append).
    all: try (apply Forall_cons; split;
              [unfold pending_async; rewrite lookup_app_l by len;
               by rewrite list_lookup_middle
              |eapply Forall_impl; [exact Hrs|]; intros r Hr;
               rewrite <- app_assoc; by apply pending_async_app]).
    all: try (apply NoDup_cons; split; [|done];
              intros Hr; apply Hlen in Hr; lia).
    all: try (simpl in *; lia).
    all: rewrite !ticks_app, Htr; simpl; unfold attempts;
         rewrite retries_after_snoc, <- !app_assoc; simpl; by rewrite <- app_assoc.
  - (* the final error travels back through the nested calls *)
    rewrite Ht in Hin.
    assert (Haw : awaiting tk = a).
    { apply fwds_awaiting in Hin. apply elem_of_cons in Hin as [?|Hin]; [done|].
      rewrite Forall_forall in Hrs. specialize (Hrs _ Hin).
      unfold pending_async in Hrs. rewrite Hrs in Est. simpl in Est.
      injection Est as <-. done. }
    destruct (fwds_head a rest tk Hnd Hin Haw) as (b & rest' & -> & ->).
    simpl in Est. rewrite Ha in Est. simpl in Est. injection Est as <-.
    assert (Hd : delete idx ts ≡ₚ fwds (b :: rest')).
    { eapply Permutation_cons_inv. etrans; [symmetry; exact Hperm|].
      by rewrite <- fwds_cons. }
    apply Forall_cons in Hrs as [Hrb Hrs]. apply NoDup_cons in Hnd as [Hna Hnd].
    apply NoDup_cons in Hnd as Hnd'. destruct Hnd' as [Hnb Hnd'].
    split; [done|]. simpl.
    eapply PhUnwind with (a := b) (rest := rest'); eauto.
    + rewrite list_lookup_alter_eq. unfold pending_async in Hrb. by rewrite Hrb.
    + rewrite Forall_forall in Hrs |- *. intros r Hr.
      unfold pending_async. rewrite list_lookup_alter_ne; [by apply Hrs|].
      intros ->. done.
Qed.

Lemma alone_exec ls s s' :
  forallb failing_alone ls = true → exec ls s = Some s' → alone s → alone s'.
Proof.
  revert s. induction ls as [|l ls IH]; intros s Hls H Ha.
  - unfold exec in H. simpl in H. by injection H as <-.
  - simpl in Hls. apply andb_prop in Hls as [Hl Hls].
    unfold exec in H. simpl in H. fold exec in H.
    destruct (step l s) as [s1|] eqn:E; [|done].
    apply (IH s1 Hls H).
    destruct l as [| | | |q [v|e]| | |]; try discriminate Hl.
    + by eapply alone_settle.
    + by eapply alone_advance.
    + by eapply alone_timer.
    + by eapply alone_resume.
Qed.

Lemma alone_result s out :
  alone s → status s r0 = Some out → out ≠ Pending →
  out = Rejected exhausted_error
  ∧ ticks (trace s) = tr0 ++ attempts maxRetries retryDelay
  ∧ t0 + maxRetries * retryDelay ≤ now s.
Proof.
  intros [He Hph] Hs Hout. unfold status in Hs.
  assert (Hpend : ∀ rs, Forall (pending_async (promises s)) rs → r0 ∈ rs → False).
  { intros rs Hrs Hx. rewrite Forall_forall in Hrs. specialize (Hrs _ Hx).
    unfold pending_async in Hrs. rewrite Hrs in Hs. simpl in Hs.
    injection Hs as <-. done. }
  destruct Hph as [j rs p cid st Ht Hp Hst Hrs Hnd Hl Hla Hj Htr Hn
                  |j rs t D st Ht Hp Hst HD Hcp Hrs Hnd Hl Hla Hj Htr
                  |a rest Ht Ha Hrs Hnd Hla Htr Hn].
  - apply last_Some_elem_of in Hla. by destruct (Hpend rs).
  - apply last_Some_elem_of in Hla. by destruct (Hpend rs).
  - destruct rest as [|b rest].
    + simpl in Hla. injection Hla as ->. rewrite Ha in Hs. simpl in Hs.
      injection Hs as <-. done.
    + rewrite last_cons_cons in Hla. apply last_Some_elem_of in Hla.
      by destruct (Hpend (b :: rest)).
Qed.

End Alone.

Section AloneStart.

Variables (maxRetries retryDelay : nat).
Variable collectionError : nat → string → string → Value.

Local Abbreviation exec := (exec maxRetries retryDelay collectionError).

Lemma alone_start s url options :
  exited s = None → is_set (clientPromise s) = false → tasks s = [] →
  alone maxRetries retryDelay url options (length (promises s)) (ticks (trace s)) (now s)
    (call (OpConnect url options) s).2.
Proof.
  intros He Hc Ht.
  destruct s as [c cp cl ps ts hs cg nw ex tr]; simpl in *; subst.
  destruct cp; try discriminate Hc.
  all: split; [done|]; simpl.
  all: eapply PhAttempt with (j := 0) (rs := [length ps])
         (p := length (ps ++ [{| pkind := PAsync; pstatus := Pending |}]))
         (cid := length cl) (st := Pending); eauto.
  all: try (by rewrite list_lookup_middle).
  all: try (simpl; lia).
  all: try (apply Forall_singleton; unfold pending_async;
            rewrite lookup_app_l by len; by rewrite list_lookup_middle).
  all: try apply NoDup_singleton.
  all: rewrite !ticks_app; simpl; by rewrite <- app_assoc.
Qed.

End AloneStart.

(** ** C1 and C9: the bound on retries and the scope of the counter *)

Lemma count_app {A} (P : A → bool) l1 l2 : count P (l1 ++ l2) = count P l1 + count P l2.
Proof. unfold count. by rewrite filter_app, length_app. Qed.

Lemma count_connect_ticks tr : count is_connect tr = count is_attempt (ticks tr).
Proof.
  induction tr as [|e tr IH]; [done|].
  change (e :: tr) with ([e] ++ tr).
  rewrite ticks_app, !count_app, IH. f_equal. by destruct e.
Qed.

Lemma count_attempts k d : count is_attempt (attempts k d) = k + 1.
Proof.
  unfold attempts. change (Attempt :: retries_after k d) with ([Attempt] ++ retries_after k d).
  rewrite count_app. induction k as [|k IH]; [done|].
  rewrite retries_after_S, count_app.
  change (count is_attempt [Attempt]) with 1 in *.
  change (count is_attempt [Wait d; Attempt]) with 1. lia.
Qed.

Lemma chain_counts tr tr' k d :
  ticks tr' = ticks tr ++ attempts k d →
  count is_connect tr' = count is_connect tr + (k + 1)
  ∧ total_wait (ticks tr') = total_wait (ticks tr) + k * d.
Proof.
  intros H. rewrite !count_connect_ticks, H, count_app, count_attempts.
  split; [done|]. rewrite total_wait_app. f_equal.
  unfold attempts. simpl. apply total_wait_retries.
Qed.

Section RetryBound.

Variables (maxRetries retryDelay : nat).
Variable collectionError : nat → string → string → Value.

Local Abbreviation exec := (exec maxRetries retryDelay collectionError).

(** Every run of one chain alone against a failing driver, read at the
    moment the promise of the call is settled. *)
Lemma alone_chain s url options ls s' out :
  exited s = None → is_set (clientPromise s) = false → tasks s = [] →
  forallb failing_alone ls = true →
  exec (LCall (OpConnect url options) :: ls) s = Some s' →
  status s' (length (promises s)) = Some out → out ≠ Pending →
  out = Rejected exhausted_error
  ∧ ticks (trace s') = ticks (trace s) ++ attempts maxRetries retryDelay
  ∧ now s + maxRetries * retryDelay ≤ now s'.
Proof.
  intros He Hc Ht Hls H Hs Hout.
  assert (H1 : exec ls (call (OpConnect url options) s).2 = Some s').
  { by eapply exec_call_inv. }
  eapply alone_result; [|exact Hs|exact Hout].
  eapply alone_exec; [exact Hls|exact H1|].
  by apply alone_start.
Qed.


End RetryBound.

Section RetryScope.

Variables (maxRetries retryDelay : nat).
Variable collectionError : nat → string → string → Value.

Local Abbreviation exec := (exec maxRetries retryDelay collectionError).

Lemma started_at_zero s url options dbName collName :
  is_set (clientPromise s) = false →
  Forall (λ op, started_retries op s = [0])
    [OpConnect url options; OpGetDatabase url options dbName;
     OpGetCollection url options dbName collName; OpInitialize url options].
Proof.
  intros Hc. destruct s as [c cp cl ps ts hs cg nw ex tr]; simpl in *.
  repeat apply Forall_cons_2; [..|apply Forall_nil_2].
  all: unfold started_retries; destruct cp; try discriminate Hc; flat; simpl length.
  all: rewrite <- ?app_assoc; by rewrite drop_app_length.
Qed.

(** C9: the retry counter belongs to one chain.  Every entry point starts
    its attempt with [retries = 0]; and after a chain that used up all its
    retries, the next call starts at 0 again and, against a driver that still
    fails, makes the full [maxRetries + 1] attempts of its own before it is
    rejected. *)
Theorem retry_count_starts_at_zero
    s url options url' options' dbName collName (errs errs' : nat → Value) :
  exited s = None → is_set (clientPromise s) = false → tasks s = [] →
  Forall (λ op, started_retries op s = [0])
    [OpConnect url options; OpGetDatabase url options dbName;
     OpGetCollection url options dbName collName; OpInitialize url options]
  ∧ ∃ ls1 s1,
      forallb failing_alone ls1 = true
      ∧ exec (LCall (OpConnect url options) :: ls1) s = Some s1
      ∧ status s1 (length (promises s)) = Some (Rejected exhausted_error)
      ∧ ticks (trace s1) = ticks (trace s) ++ attempts maxRetries retryDelay
      ∧ started_retries (OpConnect url' options') s1 = [0]
      ∧ (∃ ls2 s2,
           forallb failing_alone ls2 = true
           ∧ exec (LCall (OpConnect url' options') :: ls2) s1 = Some s2
           ∧ status s2 (length (promises s1)) = Some (Rejected exhausted_error))
      ∧ (∀ ls2 s2 out,
           forallb failing_alone ls2 = true →
           exec (LCall (OpConnect url' options') :: ls2) s1 = Some s2 →
           status s2 (length (promises s1)) = Some out → out ≠ Pending →
           out = Rejected exhausted_error
           ∧ ticks (trace s2) = ticks (trace s1) ++ attempts maxRetries retryDelay
           ∧ count is_connect (trace s2)
             = count is_connect (trace s) + 2 * (maxRetries + 1)).
Proof.
  intros He Hc Ht. split; [by apply started_at_zero|].
  destruct (exhausted_chain maxRetries retryDelay collectionError s url options errs He Hc)
    as (ls1 & s1 & Hls1 & H1 & Hs1 & Htr1 & Hn1 & Ht1 & Hcp1 & He1).
  assert (Hc1 : is_set (clientPromise s1) = false) by (by rewrite Hcp1).
  rewrite Ht in Ht1.
  exists ls1, s1. do 4 (split; [done|]). split; [|split].
  - pose proof (started_at_zero s1 url' options' dbName collName Hc1) as Hz.
    by apply Forall_cons in Hz as [Hz _].
  - destruct (exhausted_chain maxRetries retryDelay collectionError s1 url' options' errs'
                He1 Hc1) as (ls2 & s2 & Hls2 & H2 & Hs2 & _). eauto.
  - intros ls2 s2 out Hls2 H2 Hs2 Hout.
    destruct (alone_chain maxRetries retryDelay collectionError
                s1 url' options' ls2 s2 out He1 Hc1 Ht1 Hls2 H2 Hs2 Hout)
      as (-> & Htr2 & _).
    split; [done|]. split; [done|].
    destruct (chain_counts _ _ _ _ Htr2) as [-> _].
    destruct (chain_counts _ _ _ _ Htr1) as [-> _]. lia.
Qed.

End RetryScope.

(** With the module's own constants: six attempts, five timers of five
    seconds. *)
Example module_constants :
  count is_attempt (attempts MAX_RETRIES RETRY_DELAY) = 6
  ∧ total_wait (attempts MAX_RETRIES RETRY_DELAY) = 5 * RETRY_DELAY.
Proof. split; [apply count_attempts|apply (total_wait_retries MAX_RETRIES)]. Qed.


Lemma retry_count_starts_at_zero_witness :
  Forall (λ op, started_retries op init_state = [0])
    [OpConnect "mongodb://db:27017" ∅; OpGetDatabase "mongodb://db:27017" ∅ "app";
     OpGetCollection "mongodb://db:27017" ∅ "app" "users";
     OpInitialize "mongodb://db:27017" ∅].
Proof.
  exact (proj1 (retry_count_starts_at_zero MAX_RETRIES RETRY_DELAY no_error init_state
                  "mongodb://db:27017" ∅ "mongodb://db:27017" ∅ "app" "users"
                  (λ _, VError "ECONNREFUSED") (λ _, VError "ECONNREFUSED")
                  eq_refl eq_refl eq_refl)).
Defined.

(** ** C3: calls made while an attempt is in flight *)

Section Join.

Variables (maxRetries retryDelay : nat).
Variable collectionError : nat → string → string → Value.

Local Abbreviation exec := (exec maxRetries retryDelay collectionError).
Local Abbreviation step := (step maxRetries retryDelay collectionError).

(** Calls made while a promise is memoized only queue up behind it. *)
Lemma joiners reqs : ∀ s p,
  exited s = None → clientPromise s = SRef p →
  ∃ s', exec (join_all reqs) s = Some s'
    ∧ tasks s' = tasks s ++ forwards p (seq (length (promises s)) (length reqs))
    ∧ promises s' = promises s ++ replicate (length reqs) pending_promise
    ∧ trace s' = trace s ∧ clientPromise s' = SRef p ∧ exited s' = None.
Proof.
  induction reqs as [|[url options] reqs IH]; intros s p He Hc.
  - exists s. rewrite !app_nil_r. done.
  - destruct s as [c cp cl ps ts hs cg nw ex tr]; simpl in *; subst.
    edestruct (IH {| client := c; clientPromise := SRef p; clients := cl;
                     promises := ps ++ [pending_promise];
                     tasks := ts ++ [{| awaiting := p; frame := FForward (length ps) |}];
                     handlers := hs; closing := cg; now := nw; exited := None;
                     trace := tr |} p)
      as (s' & H & Ht & Hp & Htr & Hcp & He); [done|done|].
    exists s'. split.
    { eapply exec_step; [by eapply step_call|]. exact H. }
    simpl in *. rewrite Ht, Hp, length_app, <- !app_assoc. simpl.
    rewrite Nat.add_1_r. done.
Qed.

(** Frames that forward one settled promise [p], resumed one after another. *)
Lemma resume_forwards rs : ∀ s A p out,
  exited s = None → tasks s = A ++ forwards p rs →
  status s p = Some out → out ≠ Pending →
  p ∉ rs → Forall (λ r, r < length (promises s)) rs → NoDup rs →
  ∃ s', exec (replicate (length rs) (LResume (length A))) s = Some s'
    ∧ tasks s' = A
    ∧ (∀ r, r ∈ rs → status s' r = Some out)
    ∧ (∀ q, q ∉ rs → promises s' !! q = promises s !! q)
    ∧ length (promises s') = length (promises s)
    ∧ trace s' = trace s ∧ clientPromise s' = clientPromise s ∧ exited s' = None.
Proof.
  induction rs as [|r rs IH]; intros s A p out He Ht Hs Hout Hp Hlt Hnd.
  - exists s. simpl in Ht. rewrite app_nil_r in Ht. repeat split; try done.
    intros r Hr. by apply elem_of_nil in Hr.
  - apply not_elem_of_cons in Hp as [Hpr Hp].
    apply Forall_cons in Hlt as [Hr Hlt]. apply NoDup_cons in Hnd as [Hnr Hnd].
    set (s1 := settle r out (set_tasks (A ++ forwards p rs) s)).
    destruct (IH s1 A p out) as (s' & H & Ht' & Hs' & Hq' & Hl' & Htr' & Hcp' & He');
      try done.
    { unfold s1. by rewrite status_settle_ne. }
    { unfold s1. simpl. by rewrite length_alter. }
    exists s'. split.
    { simpl. eapply exec_step; [|exact H].
      erewrite step_resume; [| done | rewrite Ht; by apply list_lookup_middle | exact Hs | done].
      rewrite Ht. simpl forwards. rewrite delete_middle. unfold s1.
      by destruct out. }
    repeat split; try done.
    + intros r' Hr'. apply elem_of_cons in Hr' as [->|Hr']; [|by apply Hs'].
      unfold status. rewrite Hq' by done. unfold s1. simpl.
      rewrite list_lookup_alter_eq.
      destruct (lookup_lt_is_Some_2 _ _ Hr) as [x ->]. done.
    + intros q Hq. apply not_elem_of_cons in Hq as [Hqr Hq].
      rewrite Hq' by done. unfold s1. simpl. by rewrite list_lookup_alter_ne.
    + rewrite Hl'. unfold s1. simpl. by rewrite length_alter.
Qed.


End Join.



(** ** Every step of the machine, case by case *)

Lemma shutdown_all ls : ∀ s,
  foldl (λ s srv, shutdown srv s) s ls
  = {| client := client s; clientPromise := clientPromise s; clients := clients s;
       promises := promises s; tasks := tasks s; handlers := handlers s;
       closing := closing s ++ ls; now := now s; exited := exited s;
       trace := trace s ++ (EvServerClose <$> ls) |}.
Proof.
  induction ls as [|srv ls IH]; intros s; simpl.
  - destruct s; simpl. by rewrite !app_nil_r.
  - rewrite IH. simpl. by rewrite <- !app_assoc.
Qed.

Ltac unfold_module :=
  cbv beta iota zeta delta
    [settle suspend emit alloc set_client set_clientPromise set_clients
     set_promises set_tasks set_handlers set_closing set_now set_exited
     resume return_clientPromise connectToDatabase getDatabase getCollection
     initializeDatabase closeDatabase shutdown shutdown_callback
     setupGracefulShutdown call outcome frame awaiting client clientPromise
     clients promises tasks handlers closing now exited trace fst snd].

Ltac branches :=
  repeat (progress (
    first
      [ match goal with
        | |- context [match ?x with _ => _ end] => is_var x; destruct x
        end
      | match goal with
        | |- context [(?a <? ?b)%nat] =>
            let E := fresh "Elt" in destruct (a <? b)%nat eqn:E
        end
      | match goal with
        | |- context [db_of ?a ?b] => destruct (db_of a b)
        end
      | match goal with
        | |- context [collection_of ?a ?b ?c] => destruct (collection_of a b c)
        end
      | match goal with
        | |- context [truthy ?a] => destruct (truthy a)
        end ];
    unfold_module)).

(** Every way a step can be taken, with the state it leads to written out. *)
Ltac peel H :=
  repeat match type of H with
  | None = Some _ => discriminate H
  | context [awaiting ?tk] => is_var tk; destruct tk; simpl in H
  | match pstatus <$> ?y with _ => _ end = Some _ =>
      let E := fresh "Eaw" in destruct y as [[? ?]|] eqn:E; simpl in H
  | match ?x with _ => _ end = Some _ =>
      let E := fresh "E" in destruct x eqn:E; simpl in H
  end.

Ltac step_cases H :=
  match type of H with
  | step _ _ _ _ ?s = Some _ =>
      unfold step, status in H;
      tryif is_var s
      then (destruct s as [c cp cl ps ts hs cg nw ex tr]; simpl in *; subst)
      else idtac;
      simpl in H; peel H
  end;
  injection H as <-;
  rewrite ?shutdown_all;
  repeat match goal with
  | o : Op |- _ => destruct o
  | f : Frame |- _ => destruct f
  end;
  unfold_module; branches.

(** ** What holds in every reachable state *)

Section Always.
Variables (maxRetries retryDelay : nat).
Variable collectionError : nat → string → string → Value.
Local Abbreviation step := (step maxRetries retryDelay collectionError).
Local Abbreviation exec := (exec maxRetries retryDelay collectionError).
Local Abbreviation reachable := (reachable maxRetries retryDelay collectionError).

Lemma reachable_ind_step (P : State → Prop) :
  P init_state →
  (∀ l s s', step l s = Some s' → P s → P s') →
  ∀ s, reachable s → P s.
Proof.
  intros H0 HS s [ls H].
  enough (G : ∀ s0, P s0 → exec ls s0 = Some s → P s) by (by eapply G).
  clear H. induction ls as [|l ls IH]; intros s0 HP H.
  - unfold exec in H. simpl in H. by injection H as <-.
  - unfold exec in H. simpl in H. fold exec in H.
    destruct (step l s0) as [s1|] eqn:E; [|done]. eauto.
Qed.

Lemma step_handlers l s s' :
  step l s = Some s' →
  handlers s' = handlers s
  ∨ ∃ srv, handlers s' = handlers s ++ [(SIGTERM, srv); (SIGINT, srv)].
Proof.
  intros H. step_cases H.
  all: try (by left).
  all: try (right; by eexists).
Qed.

Lemma registered_app a b : registered (a ++ b) = registered a ++ registered b.
Proof. apply flat_map_app. Qed.

Lemma listeners_registered sig s srvs :
  handlers s = registered srvs → listeners sig s = srvs.
Proof.
  unfold listeners. intros ->. induction srvs as [|srv srvs IH]; [done|].
  change (registered (srv :: srvs))
    with ((SIGTERM, srv) :: (SIGINT, srv) :: registered srvs).
  rewrite !filter_cons.
  destruct sig; repeat case_decide; simpl in *; try done; by f_equal.
Qed.

Lemma reachable_registered s : reachable s → ∃ srvs, handlers s = registered srvs.
Proof.
  revert s. apply reachable_ind_step.
  - by exists [].
  - intros l s s' H [srvs Hs]. destruct (step_handlers l s s' H) as [->|[srv ->]].
    + by exists srvs.
    + exists (srvs ++ [srv]). by rewrite registered_app, Hs.
Qed.

(** X1: in every reachable state SIGTERM and SIGINT have the same
    listeners, and a run continues in the same way whichever of the two is
    delivered. *)
Theorem signals_handled_alike s :
  reachable s →
  listeners SIGTERM s = listeners SIGINT s
  ∧ ∀ ls, exec (LSignal SIGTERM :: ls) s = exec (LSignal SIGINT :: ls) s.
Proof.
  intros Hr. destruct (reachable_registered s Hr) as [srvs Hs].
  assert (E : listeners SIGTERM s = listeners SIGINT s).
  { by rewrite !(listeners_registered _ s srvs). }
  split; [done|]. intros ls. unfold exec. simpl. unfold step. by rewrite E.
Qed.

(** *** The retry counter and the timers *)

Lemma leb_true a b : a ≤ b → (a <=? b)%nat = true.
Proof. apply Nat.leb_le. Qed.

Lemma step_retries_in_range l s s' :
  step l s = Some s' →
  Forall (λ tk, retries_in_range maxRetries tk = true) (tasks s) →
  Forall (λ tk, retries_in_range maxRetries tk = true) (tasks s').
Proof.
  intros H Hi. step_cases H.
  all: try match goal with
       | E : _ !! _ = Some {| awaiting := _; frame := _ |} |- _ =>
           let K := fresh "K" in
           pose proof (Forall_lookup_1 _ _ _ _ Hi E) as K;
           unfold retries_in_range in K; simpl in K
       end.
  all: repeat first
         [ assumption
         | apply Forall_app_2
         | apply Forall_delete
         | apply Forall_cons_2
         | apply Forall_nil_2 ].
  all: unfold retries_in_range; simpl; try done.
  all: try (apply Nat.ltb_lt in Elt; apply leb_true; lia).
  all: try (apply andb_true_iff in K as [_ K]; exact K).
Qed.

Lemma step_backoff_fixed l s s' :
  step l s = Some s' →
  Forall (λ e, backoff_fixed maxRetries retryDelay e = true) (trace s) →
  Forall (λ e, backoff_fixed maxRetries retryDelay e = true) (trace s').
Proof.
  intros H Hi. step_cases H.
  all: repeat first
         [ assumption
         | apply Forall_app_2
         | apply Forall_cons_2
         | apply Forall_nil_2
         | apply Forall_fmap, Forall_true; done ].
  all: simpl; rewrite ?Nat.eqb_refl, ?andb_true_r; try done.
  all: apply Nat.ltb_lt in Elt; apply leb_true; lia.
Qed.

Lemma timer_within_mono h h' pr :
  h ≤ h' → timer_within h pr = true → timer_within h' pr = true.
Proof.
  unfold timer_within. destruct (pkind pr); try done.
  intros Hh Hd. apply Nat.leb_le in Hd. apply leb_true. lia.
Qed.

Lemma step_timer_within l s s' :
  step l s = Some s' →
  Forall (λ pr, timer_within (now s + retryDelay) pr = true) (promises s) →
  Forall (λ pr, timer_within (now s' + retryDelay) pr = true) (promises s').
Proof.
  intros H Hi. step_cases H.
  all: repeat first
         [ assumption
         | apply Forall_app_2
         | apply Forall_alter; [|by intros [] _]
         | apply Forall_cons_2
         | apply Forall_nil_2 ].
  all: try done.
  all: try (unfold timer_within; simpl; apply leb_true; lia).
  eapply Forall_impl; [exact Hi|]. intros pr. apply timer_within_mono. lia.
Qed.

(** X2: in every reachable state the retry counter of every suspended
    connectToDatabase is at most [maxRetries] (and at least 1 while it waits
    for the timer), every timer the module has set is [retryDelay] long,
    every "Retry attempt n" line has [1 <= n <= maxRetries], and no timer is
    due later than [retryDelay] from now. *)
Theorem retries_stay_in_range s :
  reachable s →
  Forall (λ tk, retries_in_range maxRetries tk = true) (tasks s)
  ∧ Forall (λ e, backoff_fixed maxRetries retryDelay e = true) (trace s)
  ∧ Forall (λ pr, timer_within (now s + retryDelay) pr = true) (promises s).
Proof.
  revert s. apply reachable_ind_step.
  - repeat split; apply Forall_nil_2.
  - intros l s s' H (A & B & C). split; [|split].
    + by eapply step_retries_in_range.
    + by eapply step_backoff_fixed.
    + by eapply step_timer_within.
Qed.

(** *** Clients and their one [connect] *)

Lemma constructions_snoc cl url options :
  constructions (cl ++ [(url, options)])
  = constructions cl ++ [EvNewClient (length cl) url options; EvConnect (length cl)].
Proof.
  unfold constructions. rewrite imap_app, concat_app. simpl.
  by rewrite Nat.add_0_r.
Qed.

Lemma filter_snoc {A} (f : A → bool) l x :
  filter (λ e, f e = true) (l ++ [x])
  = filter (λ e, f e = true) l ++ (if f x then [x] else []).
Proof.
  rewrite filter_app. f_equal. rewrite filter_cons, filter_nil.
  destruct (f x) eqn:E; case_decide; done.
Qed.

Lemma filter_server_close (f : Event → bool) l (srvs : list nat) :
  (∀ srv, f (EvServerClose srv) = false) →
  filter (λ e, f e = true) (l ++ (EvServerClose <$> srvs)) = filter (λ e, f e = true) l.
Proof.
  intros Hf. rewrite filter_app.
  rewrite <- (app_nil_r (filter _ l)) at 2. f_equal.
  induction srvs as [|x srvs IH]; [done|].
  simpl. rewrite filter_cons_False; [done|]. by rewrite Hf.
Qed.

Lemma step_constructions l s s' :
  step l s = Some s' →
  filter (λ e, is_construction e = true) (trace s) = constructions (clients s)
  ∧ (∀ cid, client s = SRef cid → S cid = length (clients s)) →
  filter (λ e, is_construction e = true) (trace s') = constructions (clients s')
  ∧ (∀ cid, client s' = SRef cid → S cid = length (clients s')).
Proof.
  intros H [Hi Hc]. step_cases H.
  all: split;
    [ rewrite ?constructions_snoc, ?filter_server_close, ?filter_snoc, ?Hi by done;
      simpl; rewrite ?app_nil_r, <- ?app_assoc; try done
    | try done; intros ? [= <-]; rewrite ?length_app; simpl; lia ].
Qed.

(** X3: in every reachable state the [new MongoClient] and [connect] calls
    of the trace are exactly one pair per client built, in the order the
    clients were built: every client is connected once, right after it is
    made, and never again; and [client], when it holds a client, holds the
    one built last. *)
Theorem every_client_is_connected_once s :
  reachable s →
  filter (λ e, is_construction e = true) (trace s) = constructions (clients s)
  ∧ (∀ cid, client s = SRef cid → S cid = length (clients s)).
Proof.
  revert s. apply reachable_ind_step.
  - done.
  - intros l s s' H I. by eapply step_constructions.
Qed.

(** *** Runs without a signal *)

Lemma exec_ind_labels (Q : Label → bool) (P : State → Prop) :
  (∀ l s s', Q l = true → step l s = Some s' → P s → P s') →
  ∀ ls s s', forallb Q ls = true → exec ls s = Some s' → P s → P s'.
Proof.
  intros HS. induction ls as [|l ls IH]; intros s s' Hq H HP.
  - unfold exec in H. simpl in H. by injection H as <-.
  - simpl in Hq. apply andb_true_iff in Hq as [Hl Hq].
    unfold exec in H. simpl in H. fold exec in H.
    destruct (step l s) as [s1|] eqn:E; [|done]. eauto.
Qed.

Lemma step_calm tr0 l s s' :
  without_signal l = true → step l s = Some s' → calm tr0 s → calm tr0 s'.
Proof.
  intros Hl H (He & Hc & Ht & Htr & Hcl). step_cases H.
  all: try discriminate Hl.
  all: try match goal with
       | E : _ !! _ = Some {| awaiting := _; frame := _ |} |- _ =>
           let K := fresh "K" in
           pose proof (Forall_lookup_1 _ _ _ _ Ht E) as K; simpl in K;
           try discriminate K
       end.
  all: unfold calm; simpl.
  all: rewrite ?filter_snoc; simpl; rewrite ?app_nil_r.
  all: repeat split; try done.
  all: repeat first
         [ assumption
         | apply Forall_app_2
         | apply Forall_delete
         | apply Forall_cons_2
         | apply Forall_nil_2 ]; try done.
Qed.

(** X4: from the initial state, a run in which no signal is delivered
    never calls [server.close], the client's [close] or [process.exit], and
    never resets [client]: the exported functions do not close what they
    opened. *)
Theorem never_closes_without_signal ls s :
  forallb without_signal ls = true → exec ls init_state = Some s →
  exited s = None ∧ closing s = []
  ∧ filter (λ e, is_shutdown_event e = true) (trace s) = []
  ∧ client s ≠ SNull.
Proof.
  intros Hl H.
  assert (Hc : calm [] s).
  { eapply exec_ind_labels; [apply step_calm|exact Hl|exact H|].
    repeat split; done. }
  by destruct Hc as (? & ? & _ & ? & ?).
Qed.

(** *** Once connected *)

Lemma neqb_true a b : a ≠ b → negb (Nat.eqb a b) = true.
Proof. intros H. apply negb_true_iff. by apply Nat.eqb_neq. Qed.

Lemma step_kept p v cl0 c0 tr0 l s s' :
  without_signal l = true → step l s = Some s' →
  kept p v cl0 c0 tr0 s → kept p v cl0 c0 tr0 s'.
Proof.
  intros Hl H (He & Hc & Hcp & (k0 & Hp) & Ht & Hcl & Hcl0 & Htr).
  assert (Hlt : p < length (promises s)) by (by eapply lookup_lt_Some).
  step_cases H.
  all: try discriminate Hl.
  all: try match goal with
       | E : _ !! _ = Some {| awaiting := _; frame := _ |} |- _ =>
           let K := fresh "K" in
           pose proof (Forall_lookup_1 _ _ _ _ Ht E) as K;
           unfold keeps in K; simpl in K;
           try discriminate K;
           try (apply andb_true_iff in K as [K ?]; apply Nat.eqb_eq in K; subst);
           repeat match goal with
                  | K' : negb (Nat.eqb _ _) = true |- _ =>
                      apply negb_true_iff, Nat.eqb_neq in K'
                  end
       end.
  all: try congruence.
  all: unfold kept; simpl.
  all: rewrite ?filter_snoc; simpl; rewrite ?app_nil_r.
  all: repeat split; try done.
  all: try (eexists; rewrite ?list_lookup_alter_ne by congruence;
            rewrite ?lookup_app_l by (rewrite ?length_app; simpl; lia);
            exact Hp).
  all: repeat first
         [ assumption
         | apply Forall_app_2
         | apply Forall_delete
         | apply Forall_cons_2
         | apply Forall_nil_2 ]; try done.
  all: unfold keeps; simpl; rewrite ?Nat.eqb_refl; simpl.
  all: try (apply neqb_true; rewrite ?length_app; simpl in *; lia).
Qed.

(** X5: once a connection is memoized on an idle module, no run without a
    signal drops or replaces it: [clientPromise] stays fulfilled with the
    same value, [client] and the list of clients are unchanged, and the run
    adds nothing to the trace but console lines. *)
Theorem connection_is_kept s p v ls s' :
  exited s = None → closing s = [] → tasks s = [] → memoized s p v →
  forallb without_signal ls = true → exec ls s = Some s' →
  memoized s' p v
  ∧ client s' = client s ∧ clients s' = clients s
  ∧ filter (λ e, is_effect e = true) (trace s')
    = filter (λ e, is_effect e = true) (trace s)
  ∧ exited s' = None.
Proof.
  intros He Hc Ht [Hcp Hp] Hl H.
  assert (Hk : kept p v (clients s) (client s)
                 (filter (λ e, is_effect e = true) (trace s)) s').
  { eapply exec_ind_labels; [apply step_kept|exact Hl|exact H|].
    repeat split; try done.
    - unfold status in Hp. destruct (promises s !! p) as [[k st]|]; [|done].
      simpl in Hp. injection Hp as ->. by exists k.
    - rewrite Ht. apply Forall_nil_2. }
  destruct Hk as (? & ? & ? & (k & Hk) & _ & ? & ? & ?).
  repeat split; try done. unfold status. by rewrite Hk.
Qed.

End Always.

(** ** At most one attempt in flight *)

Section Flight.

Variables (maxRetries retryDelay : nat).
Variable collectionError : nat → string → string → Value.

Local Abbreviation exec := (exec maxRetries retryDelay collectionError).
Local Abbreviation step := (step maxRetries retryDelay collectionError).

Lemma awaits_app a b : awaits (a ++ b) = awaits a ++ awaits b.
Proof. apply omap_app. Qed.

Lemma awaits_singleton tk :
  awaits [tk] = match awaited_attempt tk with Some x => [x] | None => [] end.
Proof. unfold awaits. simpl. by destruct (awaited_attempt tk). Qed.

Lemma awaits_delete ts idx tk :
  ts !! idx = Some tk → awaits ts ≡ₚ awaits [tk] ++ awaits (delete idx ts).
Proof.
  intros H. rewrite <- awaits_app. unfold awaits.
  apply omap_Permutation. simpl. by apply delete_Permutation.
Qed.

Lemma awaits_delete_Forall (P : nat → Prop) ts idx tk :
  ts !! idx = Some tk → Forall P (awaits ts) → Forall P (awaits (delete idx ts)).
Proof.
  intros H Ha. rewrite (awaits_delete _ _ _ H) in Ha.
  by apply Forall_app in Ha as [_ ?].
Qed.

Lemma awaits_delete_length ts idx tk :
  ts !! idx = Some tk →
  length (awaits [tk]) + length (awaits (delete idx ts)) = length (awaits ts).
Proof.
  intros H. pose proof (Permutation_length (awaits_delete _ _ _ H)) as E.
  rewrite length_app in E. lia.
Qed.

Lemma awaits_lookup (P : nat → Prop) ts idx tk x :
  ts !! idx = Some tk → awaited_attempt tk = Some x → Forall P (awaits ts) → P x.
Proof.
  intros H Hx Ha. rewrite (awaits_delete _ _ _ H) in Ha.
  apply Forall_app in Ha as [Ha _]. unfold awaits in Ha. simpl in Ha.
  rewrite Hx in Ha. by rewrite Forall_singleton in Ha.
Qed.

Lemma awaits_unset cp l :
  is_set cp = false → Forall (λ x, cp = SRef x) l → l = [].
Proof.
  intros Hc Hl. destruct l as [|x l]; [done|].
  apply Forall_cons in Hl as [-> _]. done.
Qed.

Lemma step_single_flight tr0 l s s' :
  without_signal l = true → step l s = Some s' →
  calm tr0 s → single_flight s → single_flight s'.
Proof.
  intros Hl H (He & Hc & Ht & _ & _) (Ha & Hn & Hp). step_cases H.
  all: try discriminate Hl.
  all: try match goal with
       | E : _ !! _ = Some {| awaiting := _; frame := _ |} |- _ =>
           let K := fresh "K" in
           pose proof (Forall_lookup_1 _ _ _ _ Ht E) as K; simpl in K;
           try discriminate K;
           let HaD := fresh "HaD" in
           pose proof (awaits_delete_Forall _ _ _ _ E Ha) as HaD;
           let HnD := fresh "HnD" in
           pose proof (awaits_delete_length _ _ _ E) as HnD;
           rewrite awaits_singleton in HnD; simpl in HnD;
           try (let Hcp := fresh "Hcp" in
                pose proof (awaits_lookup _ _ _ _ _ E eq_refl Ha) as Hcp;
                simpl in Hcp)
       end.
  all: try match goal with
       | H : Forall (λ x, SUndefined = SRef x) _ |- _ =>
           apply (awaits_unset SUndefined) in H; [|done]
       end.
  all: try match goal with
       | H : Forall (λ x, SNull = SRef x) _ |- _ =>
           apply (awaits_unset SNull) in H; [|done]
       end.
  all: try match goal with
       | H : Forall (λ x, SUndefined = SRef x) _ |- _ =>
           apply (awaits_unset SUndefined) in H; [|done]
       end.
  all: try match goal with
       | H : Forall (λ x, SNull = SRef x) _ |- _ =>
           apply (awaits_unset SNull) in H; [|done]
       end.
  all: try discriminate.
  all: unfold single_flight; simpl.
  all: rewrite ?awaits_app, ?awaits_singleton; simpl; rewrite ?app_nil_r.
  all: repeat match goal with H : awaits _ = [] |- _ => rewrite H in *; clear H end.
  all: try match goal with
       | HnD : S (length (awaits ?d)) = length (awaits ?t),
         Hn : length (awaits ?t) ≤ 1 |- _ =>
           let Z := fresh "Z" in
           assert (Z : awaits d = []) by (apply nil_length_inv; lia);
           rewrite Z in *
       end.
  all: split; [|split].
  all: try (simpl; repeat first
              [ assumption
              | apply Forall_app_2
              | apply Forall_cons_2
              | apply Forall_nil_2 ]; done).
  all: try (simpl; rewrite ?length_app; simpl; lia).
  all: intros q0 cid0 Hq.
  all: repeat match type of Hq with
       | alter _ _ _ !! _ = _ =>
           rewrite list_lookup_alter in Hq; case_decide; subst;
           [ match type of Hq with
             | _ <$> ?x = _ => destruct x as [[]|]; simpl in Hq; congruence
             end | ]
       | (_ ++ _) !! _ = _ =>
           apply lookup_app_Some in Hq as [Hq|[? Hq]];
           [ | apply list_lookup_singleton_Some in Hq as [? Hq];
               try discriminate Hq ]
       end.
  all: try (f_equal; rewrite ?length_app in *; simpl in *; lia).
  all: pose proof (Hp _ _ Hq); congruence.
Qed.

(** X6: with no signal delivered, the module never has two connection
    attempts in flight, however calls, driver answers, timers and
    resumptions are interleaved: a pending [connect] promise is the one
    [clientPromise] holds. *)
Theorem one_attempt_in_flight ls s :
  forallb without_signal ls = true → exec ls init_state = Some s →
  ∀ q q' cid cid',
    promises s !! q = Some {| pkind := PConnect cid; pstatus := Pending |} →
    promises s !! q' = Some {| pkind := PConnect cid'; pstatus := Pending |} →
    q = q' ∧ clientPromise s = SRef q.
Proof.
  intros Hl H.
  assert (Hi : calm [] s ∧ single_flight s).
  { eapply (exec_ind_labels maxRetries retryDelay collectionError without_signal
              (λ s, calm [] s ∧ single_flight s)); [|exact Hl|exact H|].
    - intros l s0 s1 Hl0 H0 [Hc Hf]. split.
      + by eapply step_calm.
      + by eapply step_single_flight.
    - split; [by repeat split|]. split; [apply Forall_nil_2|].
      split; [simpl; lia|done]. }
  destruct Hi as [_ (_ & _ & Hp)].
  intros q q' cid cid' Hq Hq'.
  pose proof (Hp _ _ Hq) as E. pose proof (Hp _ _ Hq') as E'.
  split; [congruence|done].
Qed.

End Flight.

(** ** A driver that fails some attempts and then connects *)

Section Recovery.

Variables (maxRetries retryDelay : nat).
Variable collectionError : nat → string → string → Value.

Local Abbreviation exec := (exec maxRetries retryDelay collectionError).
Local Abbreviation step := (step maxRetries retryDelay collectionError).

Lemma answers_app l1 l2 : answers (l1 ++ l2) = answers l1 ++ answers l2.
Proof. apply omap_app. Qed.

Lemma recover_from_attempt j : ∀ i S A X p r url options cid (errs : nat → Value) v,
  i + j ≤ maxRetries →
  exited S = None →
  clientPromise S = SRef p → client S = SRef cid →
  tasks S = A ++ {| awaiting := p; frame := FConnectAwait url options i r |} :: X →
  promises S !! p = Some {| pkind := PConnect cid; pstatus := Pending |} →
  status S r = Some Pending →
  p ≠ r →
  ∃ ls S' p' cid',
    answers ls = fails_then errs i j v
    ∧ exec ls S = Some S'
    ∧ tasks S' = A ++ X
    ∧ status S' r = Some (Fulfilled v)
    ∧ ticks (trace S') = ticks (trace S) ++ retries_after j retryDelay
    ∧ now S' = now S + j * retryDelay
    ∧ exited S' = None
    ∧ clientPromise S' = SRef p'
    ∧ promises S' !! p' = Some {| pkind := PConnect cid'; pstatus := Fulfilled v |}
    ∧ client S' = SRef cid'
    ∧ length (clients S') = length (clients S) + j
    ∧ length (promises S) ≤ length (promises S')
    ∧ (∀ q, q < length (promises S) → q ≠ p → q ≠ r →
            promises S' !! q = promises S !! q).
Proof.
  induction j as [|j IH]; intros i S A X p r url options cid errs v Hj He Hcp Hcl Ht Hp Hr Hne.
  - (* this attempt succeeds *)
    assert (Hrl := status_lt _ _ _ Hr).
    assert (Hpl : p < length (promises S)) by (by eapply lookup_lt_Some).
    destruct S as [c cp cl ps ts hs cg nw ex tr]; simpl in *; subst.
    unfold status in Hr; simpl in Hr.
    exists [LSettle p (inl v); LResume (length A); LResume (length (A ++ X))].
    eexists. exists p, cid.
    split; [done|]. split.
    { eapply exec_step; [eapply step_settle_connect; [done|exact Hp]|settled].
      eapply exec_step.
      { eapply step_resume; [done|side| |].
        - unfold status; simpl. rewrite list_lookup_alter_eq, Hp. reflexivity.
        - done. }
      settled.
      eapply exec_step; [|reflexivity].
      eapply step_resume; [done|side| |].
      - unfold status; simpl. rewrite list_lookup_alter_eq, Hp. reflexivity.
      - done. }
    simpl. unfold status. simpl. stores.
    repeat split; try done; try lia; try len.
    + rewrite list_lookup_alter_eq.
      rewrite list_lookup_alter_ne by done.
      destruct (ps !! r); simpl in *; [done|discriminate Hr].
    + rewrite list_lookup_alter_ne by done.
      by rewrite list_lookup_alter_eq, Hp.
    + intros q Hq Hqp Hqr. by rewrite !list_lookup_alter_ne.
  - (* this attempt fails: wait, attempt again, and pass the outcome on *)
    assert (Hrl := status_lt _ _ _ Hr).
    assert (Hpl : p < length (promises S)) by (by eapply lookup_lt_Some).
    assert (Hlt : (i <? maxRetries) = true) by (apply Nat.ltb_lt; lia).
    destruct S as [c cp cl ps ts hs cg nw ex tr]; simpl in *; subst ts ex cp c.
    unfold status in Hr; simpl in Hr.
    set (t := length ps).
    set (S5 :=
      {| client := SRef (length cl);
         clientPromise := SRef (t + 2);
         clients := cl ++ [(url, options)];
         promises :=
           alter (λ pr, {| pkind := pkind pr; pstatus := Rejected (errs i) |}) p ps
           ++ [{| pkind := PTimer (nw + retryDelay); pstatus := Fulfilled VUndefined |};
               {| pkind := PAsync; pstatus := Pending |};
               {| pkind := PConnect (length cl); pstatus := Pending |}];
         tasks := (A ++ X)
           ++ {| awaiting := t + 2; frame := FConnectAwait url options (S i) (t + 1) |}
           :: [{| awaiting := t + 1; frame := FForward r |}];
         handlers := hs; closing := cg; now := nw + retryDelay; exited := None;
         trace := tr ++ [EvLog (LogInitialFailed (errs i));
                         EvLog (LogRetry (S i) retryDelay);
                         EvSetTimeout retryDelay;
                         EvNewClient (length cl) url options;
                         EvConnect (length cl)] |}).
    assert (H5 : exec [LSettle p (inr (errs i)); LResume (length A);
                       LAdvance retryDelay; LTimer t; LResume (length (A ++ X))]
                   {| client := SRef cid; clientPromise := SRef p; clients := cl;
                      promises := ps;
                      tasks := A ++ {| awaiting := p; frame := FConnectAwait url options i r |} :: X;
                      handlers := hs; closing := cg; now := nw; exited := None; trace := tr |}
                 = Some S5).
    { eapply exec_step; [eapply step_settle_connect; [done|exact Hp]|settled].
      eapply exec_step.
      { eapply step_resume; [done|side| |].
        - unfold status; simpl. rewrite list_lookup_alter_eq, Hp. reflexivity.
        - done. }
      settled. rewrite Hlt. settled.
      fire_advance. fire_timer. fire_resume.
      apply exec_nil_eq. unfold S5, t.
      f_equal; rewrite <- ?app_assoc; simpl; repeat f_equal; len. }
    assert (Hp5 : promises S5 !! (t + 2)
                  = Some {| pkind := PConnect (length cl); pstatus := Pending |}).
    { simpl. rewrite lookup_app_r by len.
      rewrite length_alter. by replace (t + 2 - length ps) with 2 by (unfold t; lia). }
    assert (Hr5 : status S5 (t + 1) = Some Pending).
    { unfold status. simpl. rewrite lookup_app_r by len.
      rewrite length_alter. by replace (t + 1 - length ps) with 1 by (unfold t; lia). }
    destruct (IH (S i) S5 (A ++ X) [{| awaiting := t + 1; frame := FForward r |}]
                (t + 2) (t + 1) url options (length cl) errs v)
      as (ls & S6 & p' & cid' & Hls & H6 & Ht6 & Hs6 & Htr6 & Hn6 & He6 & Hc6 & Hp6
          & Hcl6 & Hlc6 & Hl6 & Hq6);
      [lia|done|done|done|done|exact Hp5|exact Hr5|lia|].
    assert (Hr6 : promises S6 !! r = ps !! r).
    { rewrite Hq6; [|simpl; len|unfold t; lia|unfold t; lia].
      simpl. rewrite lookup_app_l by len.
      by rewrite list_lookup_alter_ne. }
    assert (Hpr : p' ≠ r).
    { intros ->. rewrite Hp6 in Hr6. rewrite <- Hr6 in Hr. done. }
    exists ([LSettle p (inr (errs i)); LResume (length A);
             LAdvance retryDelay; LTimer t; LResume (length (A ++ X))]
            ++ ls ++ [LResume (length (A ++ X))]).
    eexists. exists p', cid'. split.
    { rewrite !answers_app, Hls. unfold fails_then. simpl.
      by rewrite app_nil_r. }
    split.
    { erewrite exec_app; [|exact H5]. erewrite exec_app; [|exact H6].
      eapply exec_step; [|reflexivity].
      eapply step_resume with (tk := {| awaiting := t + 1; frame := FForward r |});
        [done| |exact Hs6|done].
      rewrite Ht6. by rewrite list_lookup_middle. }
    simpl. rewrite Ht6, delete_middle, app_nil_r.
    repeat split; try done.
    + apply status_settle_eq. rewrite <- Hr6 in Hr.
      unfold status in Hr. destruct (promises S6 !! r) eqn:E; [|done].
      by eapply lookup_lt_Some.
    + rewrite Htr6. simpl. rewrite !ticks_app. simpl.
      rewrite retries_after_S. by rewrite <- app_assoc.
    + rewrite Hn6. simpl. lia.
    + by rewrite list_lookup_alter_ne.
    + rewrite Hlc6. simpl. rewrite length_app. simpl. lia.
    + rewrite length_alter. etrans; [|exact Hl6]. simpl. len.
    + intros q Hq Hqp Hqr. rewrite list_lookup_alter_ne by done.
      rewrite Hq6; [|simpl; len|unfold t; lia|unfold t; lia].
      simpl. rewrite lookup_app_l by len. by rewrite list_lookup_alter_ne.
Qed.

(** X7: a driver that fails the first [j <= maxRetries] attempts and then
    connects: the call is fulfilled with the value of the last attempt,
    which stays memoized, after exactly [j + 1] attempts and [j] timers of
    [retryDelay]. *)
Theorem recovers_after_failures s url options (errs : nat → Value) v j :
  exited s = None → is_set (clientPromise s) = false → j ≤ maxRetries →
  ∃ ls s' p,
    answers ls = fails_then errs 0 j v
    ∧ exec (LCall (OpConnect url options) :: ls) s = Some s'
    ∧ status s' (length (promises s)) = Some (Fulfilled v)
    ∧ memoized s' p v
    ∧ ticks (trace s') = ticks (trace s) ++ attempts j retryDelay
    ∧ count is_connect (trace s') = count is_connect (trace s) + (j + 1)
    ∧ total_wait (ticks (trace s')) = total_wait (ticks (trace s)) + j * retryDelay
    ∧ now s' = now s + j * retryDelay
    ∧ length (clients s') = length (clients s) + (j + 1)
    ∧ tasks s' = tasks s.
Proof.
  intros He Hc Hj.
  pose proof (connect_fresh s url options 0 Hc) as Hf.
  set (S1 := (connectToDatabase url options 0 s).2).
  assert (E1 : S1 = (connectToDatabase url options 0 s).2) by done.
  rewrite Hf in E1. simpl in E1.
  destruct (recover_from_attempt j 0 S1 (tasks s) [] (S (length (promises s)))
              (length (promises s)) url options (length (clients s)) errs v)
    as (ls & s' & p' & cid' & Hls & H & Ht & Hs & Htr & Hn & He' & Hcp & Hp & Hcl & Hlc & _ & _);
    rewrite ?E1; simpl; try done; try lia.
  { rewrite lookup_app_r by lia. by rewrite Nat.sub_succ_l, Nat.sub_diag. }
  { unfold status. simpl. by rewrite list_lookup_middle. }
  assert (Htr' : ticks (trace s') = ticks (trace s) ++ attempts j retryDelay).
  { rewrite Htr, E1. simpl. rewrite ticks_app, <- app_assoc. done. }
  destruct (chain_counts _ _ _ _ Htr') as [Hcnt Hw].
  exists ls, s', p'. split; [done|]. split.
  { eapply exec_step; [by eapply step_call|]. exact H. }
  rewrite app_nil_r in Ht.
  rewrite E1 in Hn, Hlc. simpl in Hn, Hlc. rewrite length_app in Hlc. simpl in Hlc.
  repeat split; try done; try lia.
  unfold status. by rewrite Hp.
Qed.

End Recovery.

(** ** One call alone, whatever the driver answers *)

Section Solo.

Variables (maxRetries retryDelay : nat).
Variable collectionError : nat → string → string → Value.
Variables (url : string) (options : Options).
Variables (r0 : nat) (w : option (Wrapper * nat)) (tr0 : list Tick) (t0 : nat).

Local Abbreviation exec := (exec maxRetries retryDelay collectionError).
Local Abbreviation step := (step maxRetries retryDelay collectionError).
Local Abbreviation solo :=
  (solo maxRetries retryDelay collectionError url options r0 w tr0 t0).
Local Abbreviation concluded := (concluded maxRetries retryDelay tr0 t0).

(** Settling a promise that is not a pending async one leaves the chain's
    own promises as they are. *)
Lemma pending_alter (f : Promise → Promise) q ps x rs :
  ps !! q = Some x → (pkind x ≠ PAsync ∨ pstatus x ≠ Pending) →
  Forall (pending_async ps) rs → Forall (pending_async (alter f q ps)) rs.
Proof.
  intros Hq Hx Hrs. eapply Forall_impl; [exact Hrs|]. intros r Hr.
  eapply pending_async_alter; [exact Hr|exact Hq|exact Hx].
Qed.

Lemma concluded_alter (f : Promise → Promise) q ps x out cp tr nw :
  ps !! q = Some x → pstatus x = Pending →
  concluded out ps cp tr nw → concluded out (alter f q ps) cp tr nw.
Proof.
  intros Hq Hx [H|(v & j & p & cid & ? & ? & ? & ? & ? & Hp)]; [by left|].
  right. exists v, j, p, cid. repeat split; try done.
  rewrite list_lookup_alter_ne; [done|]. intros ->. rewrite Hp in Hq.
  injection Hq as <-. done.
Qed.

Lemma concluded_later out ps cp tr nw nw' :
  nw ≤ nw' → concluded out ps cp tr nw → concluded out ps cp tr nw'.
Proof.
  intros Hn [(? & ? & ? & ?)|(v & j & p & cid & ? & ? & ? & ? & ? & Hp)].
  - left. repeat split; try done. lia.
  - right. exists v, j, p, cid. repeat split; try done. lia.
Qed.

(** The driver, or a timer, settles one of its own promises [q]. *)
Lemma solo_settled q st s x :
  promises s !! q = Some x → pstatus x = Pending → pkind x ≠ PAsync →
  (∀ D, pkind x = PTimer D → st = Fulfilled VUndefined ∧ D ≤ now s) →
  solo s → solo (settle q st s).
Proof.
  intros Eq Hxp Hxk Hxt [He Hph]. split; [done|]. simpl.
  assert (Hx : pkind x ≠ PAsync ∨ pstatus x ≠ Pending) by (by left).
  destruct Hph as [j rs p cid st0 Ht Hp Hcp Hrs Hnd Hl Hla Hj Htr Hn
                  |j rs t D st0 Ht Hp Hst HD Hcp Hrs Hnd Hl Hla Hj Htr
                  |j rs p cid v Ht Hp Hcp Hrs Hnd Hl Hla Hj Htr Hn
                  |a rest out Ht Ha Hout Hrs Hnd Hla Hfin
                  |wr R out Hw Ht Hr0 HR Hout Hfin].
  - destruct (decide (q = p)) as [->|Hne].
    + eapply CoAttempt with (p := p) (st := st); eauto using pending_alter.
      rewrite list_lookup_alter_eq, Hp. done.
    + eapply CoAttempt with (p := p); eauto using pending_alter.
      by rewrite list_lookup_alter_ne.
  - destruct (decide (q = t)) as [->|Hne].
    + rewrite Hp in Eq. injection Eq as <-. simpl in *. subst st0.
      destruct (Hxt D eq_refl) as [-> HDn].
      eapply CoSleep with (t := t) (st := Fulfilled VUndefined);
        eauto using pending_alter.
      rewrite list_lookup_alter_eq, Hp. done.
    + eapply CoSleep with (t := t); eauto using pending_alter.
      by rewrite list_lookup_alter_ne.
  - eapply CoReturn with (p := p); eauto using pending_alter.
    rewrite list_lookup_alter_ne; [done|]. intros ->. rewrite Hp in Eq.
    injection Eq as <-. done.
  - eapply CoUnwind; eauto using pending_alter, concluded_alter.
    rewrite list_lookup_alter_ne; [done|]. intros ->. rewrite Ha in Eq.
    injection Eq as <-. done.
  - eapply CoDone; eauto using concluded_alter.
    + rewrite list_lookup_alter_ne; [done|]. intros ->. rewrite Hr0 in Eq.
      injection Eq as <-. done.
    + rewrite list_lookup_alter_ne; [done|]. intros ->. rewrite HR in Eq.
      injection Eq as <-. done.
Qed.

Lemma solo_settle q out s s' :
  step (LSettle q out) s = Some s' → solo s → solo s'.
Proof.
  intros H Hs. pose proof Hs as [He _]. unfold step in H. rewrite He in H.
  destruct (promises s !! q) as [x|] eqn:Eq; [|done].
  destruct x as [[] []]; simpl in H; try done; injection H as <-.
  all: eapply solo_settled; [exact Eq|done|done|done|done].
Qed.

Lemma solo_timer q s s' :
  step (LTimer q) s = Some s' → solo s → solo s'.
Proof.
  intros H Hs. pose proof Hs as [He _]. unfold step in H. rewrite He in H.
  destruct (promises s !! q) as [x|] eqn:Eq; [|done].
  destruct x as [[] []]; try done.
  destruct (deadline <=? now s)%nat eqn:El; [|done]. injection H as <-.
  apply Nat.leb_le in El.
  eapply solo_settled; [exact Eq|done|done| |done].
  simpl. intros D [= <-]. done.
Qed.

Lemma solo_advance dt s s' :
  step (LAdvance dt) s = Some s' → solo s → solo s'.
Proof.
  intros H [He Hph]. unfold step in H. rewrite He in H. injection H as <-.
  split; [done|]. simpl.
  destruct Hph as [j rs p cid st0 Ht Hp Hcp Hrs Hnd Hl Hla Hj Htr Hn
                  |j rs t D st0 Ht Hp Hst HD Hcp Hrs Hnd Hl Hla Hj Htr
                  |j rs p cid v Ht Hp Hcp Hrs Hnd Hl Hla Hj Htr Hn
                  |a rest out Ht Ha Hout Hrs Hnd Hla Hfin
                  |wr R out Hw Ht Hr0 HR Hout Hfin].
  - eapply CoAttempt; eauto. lia.
  - eapply CoSleep; eauto. destruct Hst as [?|[? ?]]; [by left|right; split; [done|lia]].
  - eapply CoReturn; eauto. lia.
  - eapply CoUnwind; eauto. eapply concluded_later; [|exact Hfin]. lia.
  - eapply CoDone; eauto. eapply concluded_later; [|exact Hfin]. lia.
Qed.

Lemma concluded_log out ps cp tr nw l :
  concluded out ps cp tr nw → concluded out ps cp (tr ++ [EvLog l]) nw.
Proof.
  intros [(? & Htr & ? & ?)|(v & j & p & cid & ? & ? & Htr & ? & ? & Hp)].
  - left. repeat split; try done. rewrite ticks_app. simpl. by rewrite app_nil_r.
  - right. exists v, j, p, cid. repeat split; try done.
    rewrite ticks_app. simpl. by rewrite app_nil_r.
Qed.

Lemma pending_lt ps rs r : Forall (pending_async ps) rs → r ∈ rs → r < length ps.
Proof.
  intros Hrs Hr. rewrite Forall_forall in Hrs. specialize (Hrs _ Hr).
  by eapply lookup_lt_Some.
Qed.

Lemma pending_settle_other (f : Promise → Promise) ps a rs :
  a ∉ rs → Forall (pending_async ps) rs → Forall (pending_async (alter f a ps)) rs.
Proof.
  intros Ha Hrs. rewrite Forall_forall in Hrs |- *. intros r Hr.
  unfold pending_async. rewrite list_lookup_alter_ne; [by apply Hrs|].
  intros ->. done.
Qed.

Lemma solo_resume idx s s' :
  step (LResume idx) s = Some s' → solo s → solo s'.
Proof.
  intros H [He Hph]. unfold step in H. rewrite He in H.
  destruct (tasks s !! idx) as [tk|] eqn:Etk; [|done].
  destruct (status s (awaiting tk)) as [out|] eqn:Est; [|done].
  assert (Hout : out ≠ Pending
                 ∧ s' = resume maxRetries retryDelay collectionError (frame tk) out
                          (set_tasks (delete idx (tasks s)) s)).
  { destruct out; [done| |]; injection H as <-; done. }
  destruct Hout as [Hout ->]. clear H.
  pose proof (delete_Permutation _ _ _ Etk) as Hperm.
  assert (Hin : tk ∈ tasks s) by (by eapply list_elem_of_lookup_2).
  destruct s as [c cp cl ps ts hs cg nw ex tr]; simpl in *. subst ex.
  unfold status in Est; simpl in Est.
  assert (Hpend : ∀ rs, Forall (pending_async ps) rs → awaiting tk ∈ rs → False).
  { intros rs Hrs Hx. rewrite Forall_forall in Hrs. specialize (Hrs _ Hx).
    unfold pending_async in Hrs. rewrite Hrs in Est. simpl in Est.
    injection Est as <-. done. }
  assert (Haround : tk ∈ around r0 w → awaiting tk = r0).
  { destruct w as [[wr R]|]; simpl; [|by intros ?%elem_of_nil].
    by intros ->%list_elem_of_singleton. }
  assert (Hrest : ∀ rs, Forall (pending_async ps) (rs ++ answer_on w) →
                        last rs = Some r0 → tk ∈ fwds rs ++ around r0 w → False).
  { intros rs Hrs Hla Hx. apply elem_of_app in Hx as [Hx|Hx].
    - apply fwds_awaiting in Hx. eapply Hpend; [exact Hrs|]. apply elem_of_app. by left.
    - apply Haround in Hx. apply last_Some_elem_of in Hla.
      eapply Hpend; [exact Hrs|]. rewrite Hx. apply elem_of_app. by left. }
  destruct Hph as [j rs p cid st0 Ht Hp Hcp Hrs Hnd Hl Hla Hj Htr Hn
                  |j rs t D st0 Ht Hp Hst HD Hcp Hrs Hnd Hl Hla Hj Htr
                  |j rs p cid v Ht Hp Hcp Hrs Hnd Hl Hla Hj Htr Hn
                  |a rest out0 Ht Ha Hout0 Hrs Hnd Hla Hfin
                  |wr R out0 Hw Ht Hr0 HR Hout0 Hfin].
  - (* an attempt is in flight *)
    rewrite Ht in Hin. apply elem_of_cons in Hin as [->|Hin]; [|by destruct (Hrest rs)].
    simpl in Est. rewrite Hp in Est. simpl in Est. injection Est as <-.
    assert (Hd : delete idx ts ≡ₚ fwds rs ++ around r0 w).
    { eapply Permutation_cons_inv. etrans; [symmetry; exact Hperm|exact Ht]. }
    destruct rs as [|a rest]; [done|].
    destruct st0 as [|v|e]; [done| |].
    + (* it succeeded: [return clientPromise] *)
      subst cp. split; [done|]. simpl.
      eapply CoReturn with (j := j) (rs := a :: rest) (p := p) (cid := cid) (v := v); eauto.
      rewrite Hd. symmetry. apply Permutation_cons_append.
    + (* it failed *)
      split; [simpl; by destruct (j <? maxRetries)|].
      simpl. destruct (j <? maxRetries) eqn:Elt; simpl.
      * apply Nat.ltb_lt in Elt.
        eapply CoSleep with (j := j) (rs := a :: rest) (t := length ps)
                            (D := nw + retryDelay) (st := Pending); eauto.
        -- rewrite Hd. symmetry. apply Permutation_cons_append.
        -- by rewrite list_lookup_middle.
        -- simpl. lia.
        -- eapply Forall_impl; [exact Hrs|]. intros r. apply pending_async_app.
        -- rewrite <- !app_assoc. simpl. rewrite ticks_app, Htr. simpl.
           by rewrite <- app_assoc.
      * apply Nat.ltb_ge in Elt. assert (j = maxRetries) as -> by lia.
        simpl in Hrs, Hnd.
        apply Forall_cons in Hrs as [Hra Hrs]. apply NoDup_cons in Hnd as [Hna Hnd].
        eapply CoUnwind with (a := a) (rest := rest) (out := Rejected exhausted_error); eauto.
        -- rewrite list_lookup_alter_eq. unfold pending_async in Hra. by rewrite Hra.
        -- by apply pending_settle_other.
        -- by apply NoDup_cons.
        -- left. repeat split; try done.
           rewrite ticks_app, Htr. simpl. by rewrite app_nil_r.
  - (* waiting for the timer *)
    rewrite Ht in Hin. apply elem_of_cons in Hin as [->|Hin]; [|by destruct (Hrest rs)].
    simpl in Est. rewrite Hp in Est. simpl in Est. injection Est as <-.
    destruct Hst as [->|[-> HDn]]; [done|].
    assert (Hd : delete idx ts ≡ₚ fwds rs ++ around r0 w).
    { eapply Permutation_cons_inv. etrans; [symmetry; exact Hperm|exact Ht]. }
    destruct rs as [|a rest]; [done|].
    assert (Hlen : ∀ r, r ∈ (a :: rest) ++ answer_on w → r < length ps).
    { intros r. by apply pending_lt. }
    destruct cp as [| |x]; [| |done].
    all: split; [done|]; simpl.
    all: eapply CoAttempt with (j := S j) (rs := length ps :: a :: rest)
           (p := length (ps ++ [{| pkind := PAsync; pstatus := Pending |}]))
           (cid := length cl) (st := Pending); eauto.
    all: try (by rewrite list_lookup_middle).
    all: try (simpl; lia).
    all: try (rewrite fwds_cons, Hd; simpl;
              rewrite <- !Permutation_cons_append; apply perm_swap).
    all: try (f_equal; len).
    all: try (change ((length ps :: a :: rest) ++ answer_on w)
                with (length ps :: (a :: rest) ++ answer_on w);
              apply Forall_cons; split;
              [unfold pending_async; rewrite lookup_app_l by len;
               by rewrite list_lookup_middle
              |eapply Forall_impl; [exact Hrs|]; intros r Hr;
               rewrite <- app_assoc; by apply pending_async_app]).
    all: try (change ((length ps :: a :: rest) ++ answer_on w)
                with (length ps :: (a :: rest) ++ answer_on w);
              apply NoDup_cons; split; [|done];
              intros Hr; apply Hlen in Hr; lia).
    all: try (simpl in *; lia).
    all: rewrite !ticks_app, Htr; simpl; unfold attempts;
         rewrite retries_after_snoc, <- !app_assoc; simpl; by rewrite <- app_assoc.
  - (* the attempt has succeeded and its promise was returned *)
    rewrite Ht in Hin. apply elem_of_cons in Hin as [->|Hin]; [|by destruct (Hrest rs)].
    simpl in Est. rewrite Hp in Est. simpl in Est. injection Est as <-.
    assert (Hd : delete idx ts ≡ₚ fwds rs ++ around r0 w).
    { eapply Permutation_cons_inv. etrans; [symmetry; exact Hperm|exact Ht]. }
    destruct rs as [|a rest]; [done|].
    simpl in Hrs, Hnd.
    apply Forall_cons in Hrs as [Hra Hrs]. apply NoDup_cons in Hnd as [Hna Hnd].
    split; [done|]. simpl.
    eapply CoUnwind with (a := a) (rest := rest) (out := Fulfilled v); eauto.
    + rewrite list_lookup_alter_eq. unfold pending_async in Hra. by rewrite Hra.
    + by apply pending_settle_other.
    + by apply NoDup_cons.
    + right. exists v, j, p, cid. repeat split; try done.
      rewrite list_lookup_alter_ne; [done|]. intros ->.
      unfold pending_async in Hra. rewrite Hra in Hp. done.
  - (* the outcome travels back through the nested calls *)
    rewrite Ht in Hin. apply elem_of_app in Hin as [Hin|Hin].
    + assert (Haw : awaiting tk = a).
      { apply fwds_awaiting in Hin. apply elem_of_cons in Hin as [?|Hin]; [done|].
        exfalso. eapply Hpend; [exact Hrs|]. apply elem_of_app. by left. }
      assert (Hnd' : NoDup (a :: rest)).
      { change (a :: rest ++ answer_on w) with ((a :: rest) ++ answer_on w) in Hnd.
        by apply NoDup_app in Hnd as [? _]. }
      destruct (fwds_head a rest tk Hnd' Hin Haw) as (b & rest' & -> & ->).
      simpl in Est. rewrite Ha in Est. simpl in Est. injection Est as <-.
      assert (Hd : delete idx ts ≡ₚ fwds (b :: rest') ++ around r0 w).
      { eapply Permutation_cons_inv. etrans; [symmetry; exact Hperm|].
        by rewrite Ht, fwds_cons. }
      simpl in Hrs, Hnd.
      apply Forall_cons in Hrs as [Hrb Hrs]. apply NoDup_cons in Hnd as [Hna Hnd].
      apply NoDup_cons in Hnd as Hndb. destruct Hndb as [Hnb Hndb].
      destruct out0 as [|v0|e0]; [done| |].
      all: split; [done|]; simpl.
      all: eapply CoUnwind with (a := b) (rest := rest'); eauto.
      all: try (rewrite list_lookup_alter_eq; unfold pending_async in Hrb; by rewrite Hrb).
      all: try (by apply pending_settle_other).
      all: eapply concluded_alter; [exact Hrb|done|exact Hfin].
    + (* the function that made the call takes the outcome *)
      destruct w as [[wr R]|]; simpl in Hin; [|by apply elem_of_nil in Hin].
      apply list_elem_of_singleton in Hin as ->. simpl in *.
      destruct rest as [|b rest].
      2: { exfalso. rewrite last_cons_cons in Hla. apply last_Some_elem_of in Hla.
           eapply Hpend; [exact Hrs|]. apply elem_of_app. by left. }
      simpl in Hla. injection Hla as ->. simpl in *.
      rewrite Ha in Est. simpl in Est. injection Est as <-.
      assert (Hd : delete idx ts = []).
      { apply Permutation_nil_r. eapply Permutation_cons_inv.
        etrans; [symmetry; exact Hperm|exact Ht]. }
      rewrite Hd.
      rewrite Forall_singleton in Hrs. unfold pending_async in Hrs.
      assert (Hne : R ≠ r0).
      { intros ->. rewrite Hrs in Ha. injection Ha as <-. done. }
      split; [destruct wr, out0; simpl; try done;
              repeat first [destruct (db_of _ _) | destruct (collection_of _ _ _)
                           | destruct (truthy _)]; done|].
      destruct wr, out0 as [|c0|e0]; try done; simpl.
      all: repeat match goal with
           | |- context [db_of ?x ?y] => destruct (db_of x y) eqn:?
           | |- context [collection_of ?x ?y ?z] => destruct (collection_of x y z) eqn:?
           | |- context [truthy ?x] => destruct (truthy x) eqn:?
           end; simpl.
      all: eapply CoDone with (R := R); [reflexivity|reflexivity| | |exact Hout0|].
      all: try (rewrite list_lookup_alter_ne by done; exact Ha).
      all: try (rewrite list_lookup_alter_eq, Hrs; simpl;
                repeat match goal with E : _ = _ |- _ => rewrite E end; done).
      all: try (eapply concluded_alter; [exact Hrs|done|]);
           try apply concluded_log; exact Hfin.
  - (* nothing is left to resume *)
    subst ts. done.
Qed.

Lemma solo_exec ls s s' :
  forallb solo_label ls = true → exec ls s = Some s' → solo s → solo s'.
Proof.
  revert s. induction ls as [|l ls IH]; intros s Hls H Ha.
  - unfold exec in H. simpl in H. by injection H as <-.
  - simpl in Hls. apply andb_prop in Hls as [Hl Hls].
    unfold exec in H. simpl in H. fold exec in H.
    destruct (step l s) as [s1|] eqn:E; [|done].
    apply (IH s1 Hls H).
    destruct l; try discriminate Hl.
    + by eapply solo_settle.
    + by eapply solo_advance.
    + by eapply solo_timer.
    + by eapply solo_resume.
Qed.

Lemma solo_result s out :
  solo s → status s r0 = Some out → out ≠ Pending →
  concluded out (promises s) (clientPromise s) (trace s) (now s).
Proof.
  intros [He Hph] Hs Hout. unfold status in Hs.
  assert (Hpend : ∀ rs, Forall (pending_async (promises s)) rs → r0 ∈ rs → False).
  { intros rs Hrs Hx. rewrite Forall_forall in Hrs. specialize (Hrs _ Hx).
    unfold pending_async in Hrs. rewrite Hrs in Hs. simpl in Hs.
    injection Hs as <-. done. }
  destruct Hph as [j rs p cid st0 Ht Hp Hcp Hrs Hnd Hl Hla Hj Htr Hn
                  |j rs t D st0 Ht Hp Hst HD Hcp Hrs Hnd Hl Hla Hj Htr
                  |j rs p cid v Ht Hp Hcp Hrs Hnd Hl Hla Hj Htr Hn
                  |a rest out0 Ht Ha Hout0 Hrs Hnd Hla Hfin
                  |wr R out0 Hw Ht Hr0 HR Hout0 Hfin].
  1-3: apply last_Some_elem_of in Hla; exfalso;
       (eapply Hpend; [exact Hrs|]); apply elem_of_app; by left.
  - destruct rest as [|b rest].
    + simpl in Hla. injection Hla as ->. rewrite Ha in Hs. simpl in Hs.
      by injection Hs as <-.
    + rewrite last_cons_cons in Hla. apply last_Some_elem_of in Hla.
      exfalso. eapply Hpend; [exact Hrs|]. apply elem_of_app. by left.
  - rewrite Hr0 in Hs. simpl in Hs. by injection Hs as <-.
Qed.

Lemma solo_wrapped_result wr R s outR :
  w = Some (wr, R) →
  solo s → status s R = Some outR → outR ≠ Pending →
  ∃ out, out ≠ Pending
    ∧ concluded out (promises s) (clientPromise s) (trace s) (now s)
    ∧ outR = wrapper_returns collectionError wr out.
Proof.
  intros Hw [He Hph] Hs Hout. unfold status in Hs.
  assert (Hpend : ∀ rs, Forall (pending_async (promises s)) (rs ++ answer_on w) → False).
  { intros rs Hrs. rewrite Forall_forall in Hrs. specialize (Hrs R).
    unfold pending_async in Hrs. rewrite Hrs in Hs.
    - simpl in Hs. injection Hs as <-. done.
    - rewrite Hw. simpl. apply elem_of_app. right. by apply list_elem_of_singleton. }
  destruct Hph as [j rs p cid st0 Ht Hp Hcp Hrs Hnd Hl Hla Hj Htr Hn
                  |j rs t D st0 Ht Hp Hst HD Hcp Hrs Hnd Hl Hla Hj Htr
                  |j rs p cid v Ht Hp Hcp Hrs Hnd Hl Hla Hj Htr Hn
                  |a rest out0 Ht Ha Hout0 Hrs Hnd Hla Hfin
                  |wr' R' out0 Hw' Ht Hr0 HR Hout0 Hfin].
  1-4: by destruct (Hpend _ Hrs).
  rewrite Hw in Hw'. injection Hw' as <- <-.
  rewrite HR in Hs. simpl in Hs. injection Hs as <-. eauto.
Qed.

End Solo.

Section SoloStart.

Variables (maxRetries retryDelay : nat).
Variable collectionError : nat → string → string → Value.

Local Abbreviation exec := (exec maxRetries retryDelay collectionError).

Lemma solo_start s url options :
  exited s = None → is_set (clientPromise s) = false → tasks s = [] →
  solo maxRetries retryDelay collectionError url options
    (length (promises s)) None (ticks (trace s)) (now s)
    (call (OpConnect url options) s).2.
Proof.
  intros He Hc Ht.
  destruct s as [c cp cl ps ts hs cg nw ex tr]; simpl in *; subst.
  destruct cp; try discriminate Hc.
  all: split; [done|]; simpl.
  all: eapply CoAttempt with (j := 0) (rs := [length ps])
         (p := length (ps ++ [{| pkind := PAsync; pstatus := Pending |}]))
         (cid := length cl) (st := Pending); eauto.
  all: try (by rewrite list_lookup_middle).
  all: try (simpl; lia).
  all: try (simpl; apply Forall_singleton; unfold pending_async;
            rewrite lookup_app_l by len; by rewrite list_lookup_middle).
  all: try (simpl; apply NoDup_singleton).
  all: try (f_equal; len).
  all: rewrite !ticks_app; simpl; by rewrite <- app_assoc.
Qed.

Lemma solo_start_wrapped s url options wr :
  exited s = None → is_set (clientPromise s) = false → tasks s = [] →
  solo maxRetries retryDelay collectionError url options
    (S (length (promises s))) (Some (wr, length (promises s)))
    (ticks (trace s)) (now s)
    (call (wrapper_op url options wr) s).2.
Proof.
  intros He Hc Ht.
  destruct s as [c cp cl ps ts hs cg nw ex tr]; simpl in *; subst.
  destruct wr, cp; try discriminate Hc.
  all: split; [done|]; simpl.
  all: eapply CoAttempt with (j := 0) (rs := [S (length ps)])
         (p := S (S (length ps))) (cid := length cl) (st := Pending); eauto.
  all: try (simpl; lia).
  all: try (simpl; repeat f_equal; len).
  all: try (rewrite <- !app_assoc; simpl; rewrite lookup_app_r by lia;
            by replace (S (S (length ps)) - length ps) with 2 by lia).
  all: try (f_equal; len).
  all: try (simpl; repeat apply Forall_cons_2; [..|apply Forall_nil_2];
            unfold pending_async; rewrite <- !app_assoc; simpl;
            rewrite lookup_app_r by lia;
            [by replace (S (length ps) - length ps) with 1 by lia
            |by rewrite Nat.sub_diag]).
  all: try (simpl; apply NoDup_cons; split; [|apply NoDup_singleton];
            rewrite list_elem_of_singleton; lia).
  all: try (simpl; rewrite !length_app; simpl; rewrite !Nat.add_1_r; reflexivity).
  all: rewrite !ticks_app; simpl; by rewrite <- app_assoc.
Qed.

End SoloStart.

Section SoloOutcomes.

Variables (maxRetries retryDelay : nat).
Variable collectionError : nat → string → string → Value.

Local Abbreviation exec := (exec maxRetries retryDelay collectionError).

Lemma concluded_outcome (tr0 tr : list Event) t0 out ps cp nw :
  concluded maxRetries retryDelay (ticks tr0) t0 out ps cp tr nw →
  ∃ j, j ≤ maxRetries
    ∧ ticks tr = ticks tr0 ++ attempts j retryDelay
    ∧ count is_connect tr = count is_connect tr0 + (j + 1)
    ∧ t0 + j * retryDelay ≤ nw
    ∧ ((out = Rejected exhausted_error ∧ j = maxRetries ∧ cp = SNull)
       ∨ ∃ v p cid, out = Fulfilled v ∧ cp = SRef p
           ∧ ps !! p = Some {| pkind := PConnect cid; pstatus := Fulfilled v |}).
Proof.
  intros [(-> & Htr & Hn & ?)|(v & j & p & cid & -> & Hj & Htr & Hn & Hcp & Hp)].
  - exists maxRetries. destruct (chain_counts _ _ _ _ Htr) as [Hc _].
    repeat split; try done. by left.
  - exists j. destruct (chain_counts _ _ _ _ Htr) as [Hc _].
    repeat split; try done. right. eauto 10.
Qed.


Lemma wrapped_alone_outcomes s url options wr ls s' outR :
  exited s = None → is_set (clientPromise s) = false → tasks s = [] →
  forallb solo_label ls = true →
  exec (LCall (wrapper_op url options wr) :: ls) s = Some s' →
  status s' (length (promises s)) = Some outR → outR ≠ Pending →
  ∃ j out, j ≤ maxRetries
    ∧ ticks (trace s') = ticks (trace s) ++ attempts j retryDelay
    ∧ count is_connect (trace s') = count is_connect (trace s) + (j + 1)
    ∧ now s + j * retryDelay ≤ now s'
    ∧ ((out = Rejected exhausted_error ∧ j = maxRetries ∧ clientPromise s' = SNull)
       ∨ ∃ v p, out = Fulfilled v ∧ memoized s' p v)
    ∧ outR = wrapper_returns collectionError wr out.
Proof.
  intros He Hc Ht Hls H Hs Hout.
  assert (H1 : exec ls (call (wrapper_op url options wr) s).2 = Some s').
  { by eapply exec_call_inv. }
  pose proof (solo_exec _ _ _ _ _ _ _ _ _ _ _ _ Hls H1
                (solo_start_wrapped _ _ _ s url options wr He Hc Ht)) as Hsolo.
  destruct (solo_wrapped_result _ _ _ _ _ _ _ _ _ _ _ _ _ eq_refl Hsolo Hs Hout)
    as (out & Hout' & Hfin & ->).
  destruct (concluded_outcome _ _ _ _ _ _ _ Hfin)
    as (j & Hj & Htr & Hcnt & Hn & [(-> & -> & Hnull)|(v & p & cid & -> & Hcp & Hp)]).
  - exists maxRetries, (Rejected exhausted_error). repeat split; try done. by left.
  - exists j, (Fulfilled v). repeat split; try done. right. exists v, p. split; [done|].
    split; [done|]. unfold status. by rewrite Hp.
Qed.

(** One run of a wrapper on a module that holds no promise, with a driver
    that connects at once. *)
Lemma wrapped_connects s url options wr c :
  exited s = None → is_set (clientPromise s) = false →
  let r := length (promises s) in
  let n := length (tasks s) in
  ∃ s', exec [LCall (wrapper_op url options wr); LSettle (r + 2) (inl (VConn c));
              LResume n; LResume (S n); LResume n] s = Some s'
    ∧ status s' r = Some (wrapper_returns collectionError wr (Fulfilled (VConn c)))
    ∧ memoized s' (r + 2) (VConn c)
    ∧ tasks s' = tasks s
    ∧ clients s' = clients s ++ [(url, options)]
    ∧ trace s' = trace s ++ [EvNewClient (length (clients s)) url options;
                             EvConnect (length (clients s))] ++ wrapper_log wr
    ∧ exited s' = None ∧ length (promises s') = length (promises s) + 3.
Proof.
  intros He Hc r n. subst r n.
  destruct s as [c0 cp cl ps ts hs cg nw ex tr]; simpl in *; subst.
  destruct wr, cp; try discriminate Hc.
  all: try destruct (truthy (collectionError c dbName collName)) eqn:Et.
  all: eexists; split;
    [fire_call; fire_connect; fire_resume; fire_resume; fire_resume;
     rewrite ?Et; reflexivity|].
  all: unfold memoized; side; rewrite ?Et.
  all: repeat split; try done; try (f_equal; len); try len; by rewrite <- !app_assoc.
Qed.

(** One run of a wrapper on a module whose promise is fulfilled. *)
Lemma wrapped_memoized s url options wr p c :
  exited s = None → memoized s p (VConn c) →
  let r := length (promises s) in
  let n := length (tasks s) in
  ∃ s', exec [LCall (wrapper_op url options wr); LResume n; LResume n] s = Some s'
    ∧ status s' r = Some (wrapper_returns collectionError wr (Fulfilled (VConn c)))
    ∧ memoized s' p (VConn c)
    ∧ tasks s' = tasks s
    ∧ clients s' = clients s
    ∧ trace s' = trace s ++ wrapper_log wr
    ∧ exited s' = None.
Proof.
  intros He [Hcp Hs] r n. subst r n.
  assert (Hlt : p < length (promises s)) by (by eapply status_lt).
  destruct s as [c0 cp cl ps ts hs cg nw ex tr]; simpl in *; subst.
  unfold status in Hs; simpl in Hs.
  destruct wr.
  all: try destruct (truthy (collectionError c dbName collName)) eqn:Et.
  all: eexists; split;
    [fire_call;
     (eapply exec_step;
      [eapply step_resume; [side|side|unfold status; simpl; stores; exact Hs|done]|]);
     settled; fire_resume; rewrite ?Et; reflexivity|].
  all: unfold memoized, status; simpl; stores; simpl; rewrite ?Et.
  all: repeat split; try done; try by rewrite app_nil_r.
  all: rewrite !list_lookup_alter_ne by lia; stores; exact Hs.
Qed.

End SoloOutcomes.

(** ** The exported functions, the shutdown paths and [init] *)

Section Wrapped.

Variables (maxRetries retryDelay : nat).
Variable collectionError : nat → string → string → Value.

Local Abbreviation exec := (exec maxRetries retryDelay collectionError).

(** One run of a wrapper against a driver that fails every attempt. *)
Lemma wrapped_exhausted s url options wr :
  exited s = None → is_set (clientPromise s) = false →
  ∃ ls s',
    forallb failing_alone ls = true
    ∧ exec (LCall (wrapper_op url options wr) :: ls) s = Some s'
    ∧ status s' (length (promises s)) = Some (Rejected exhausted_error)
    ∧ ticks (trace s') = ticks (trace s) ++ attempts maxRetries retryDelay
    ∧ now s' = now s + maxRetries * retryDelay
    ∧ tasks s' = tasks s ∧ clientPromise s' = SNull.
Proof.
  intros He Hc.
  destruct s as [c cp cl ps ts hs cg nw ex tr]; simpl in *; subst.
  set (wt := {| awaiting := length ps + 1; frame := wrapper_frame wr (length ps) |}).
  set (S1 :=
    {| client := SRef (length cl);
       clientPromise := SRef (length ps + 2);
       clients := cl ++ [(url, options)];
       promises := ps ++ [{| pkind := PAsync; pstatus := Pending |};
                          {| pkind := PAsync; pstatus := Pending |};
                          {| pkind := PConnect (length cl); pstatus := Pending |}];
       tasks := ts ++ {| awaiting := length ps + 2;
                         frame := FConnectAwait url options 0 (length ps + 1) |} :: [wt];
       handlers := hs; closing := cg; now := nw; exited := None;
       trace := tr ++ [EvNewClient (length cl) url options; EvConnect (length cl)] |}).
  assert (E1 : (call (wrapper_op url options wr)
                  {| client := c; clientPromise := cp; clients := cl; promises := ps;
                     tasks := ts; handlers := hs; closing := cg; now := nw;
                     exited := None; trace := tr |}).2 = S1).
  { destruct wr, cp; try discriminate Hc; flat; unfold S1, wt; simpl;
      f_equal; rewrite <- ?app_assoc; simpl; repeat f_equal; len. }
  destruct (exhaust_from_attempt maxRetries retryDelay collectionError maxRetries 0 S1 ts [wt]
              (length ps + 2) (length ps + 1) url options (length cl) (λ _, VUndefined))
    as (ls & S2 & Hls & H & Ht & Hs & Htr & Hn & He' & Hcp & Hl & Hq);
    [done|done|done| | |lia|].
  { simpl. rewrite lookup_app_r by lia.
    by replace (length ps + 2 - length ps) with 2 by lia. }
  { unfold status. simpl. rewrite lookup_app_r by lia.
    by replace (length ps + 1 - length ps) with 1 by lia. }
  assert (HR : promises S2 !! length ps = Some {| pkind := PAsync; pstatus := Pending |}).
  { rewrite Hq; [|simpl; len|lia|lia]. simpl. by rewrite list_lookup_middle. }
  exists (ls ++ [LResume (length ts)]). eexists. split.
  { rewrite forallb_app, Hls. done. }
  split.
  { eapply exec_step; [by eapply step_call|]. rewrite E1.
    erewrite exec_app; [|exact H].
    eapply exec_step; [|reflexivity].
    eapply step_resume with (tk := wt); [done| |exact Hs|done].
    rewrite Ht. by rewrite list_lookup_middle. }
  assert (Hres : ∀ S0, resume maxRetries retryDelay collectionError (frame wt)
                         (Rejected exhausted_error) S0
                       = settle (length ps) (Rejected exhausted_error) S0).
  { intros S0. unfold wt. by destruct wr. }
  rewrite Hres. simpl. rewrite Ht, delete_middle, app_nil_r.
  repeat split; try done.
  - apply status_settle_eq. simpl. by eapply lookup_lt_Some.
  - rewrite Htr. unfold S1. simpl. rewrite ticks_app, <- app_assoc. done.
Qed.




End Wrapped.

Ltac fire_setup := eapply exec_step; [eapply step_setup; side|settled].
Ltac fire_signal := eapply exec_step; [eapply step_signal; [side|side]|settled].
Ltac fire_server_closed :=
  eapply exec_step; [eapply step_server_closed; [side|side]|settled].

Section ShutdownPaths.

Variables (maxRetries retryDelay : nat).
Variable collectionError : nat → string → string → Value.

Local Abbreviation exec := (exec maxRetries retryDelay collectionError).
Local Abbreviation step := (step maxRetries retryDelay collectionError).

(** X12: shutdown of a process that holds no client: the server is closed
    and the process exits with status 0; the driver is not touched. *)
Theorem shutdown_without_client s srv sig :
  exited s = None → handlers s = [] → closing s = [] → is_set (client s) = false →
  ∃ s', exec [LSetup srv; LSignal sig; LServerClosed 0; LResume (length (tasks s))] s
        = Some s'
    ∧ trace s' = trace s ++ [EvServerClose srv; EvLog LogServerClosed; EvExit 0]
    ∧ exited s' = Some 0%Z
    ∧ client s' = client s ∧ clientPromise s' = clientPromise s.
Proof.
  intros He Hh Hc Hcl.
  destruct s as [c cp cl ps ts hs cg nw ex tr]; simpl in *; subst.
  destruct sig, c; try discriminate Hcl.
  all: eexists; split;
    [fire_setup; fire_signal; fire_server_closed; fire_resume; reflexivity|].
  all: side; repeat split; by rewrite <- !app_assoc.
Qed.

(** X13: shutdown when the client's [close] fails: closeDatabase is
    rejected, the callback stops there and [process.exit] is not called;
    the two variables keep their values. *)
Theorem shutdown_stops_at_failed_close s srv sig cid e :
  exited s = None → handlers s = [] → closing s = [] → client s = SRef cid →
  let r := length (promises s) in
  let n := length (tasks s) in
  ∃ s', exec [LSetup srv; LSignal sig; LServerClosed 0;
              LSettle (S r) (inr e); LResume n; LResume n] s = Some s'
    ∧ trace s' = trace s ++ [EvServerClose srv; EvLog LogServerClosed; EvClose cid]
    ∧ status s' r = Some (Rejected e)
    ∧ exited s' = None
    ∧ tasks s' = tasks s ∧ closing s' = []
    ∧ client s' = client s ∧ clientPromise s' = clientPromise s.
Proof.
  intros He Hh Hc Hcl r n. subst r n.
  destruct s as [c cp cl ps ts hs cg nw ex tr]; simpl in *; subst.
  destruct sig.
  all: eexists; split;
    [fire_setup; fire_signal; fire_server_closed; fire_close;
     fire_resume; fire_resume; reflexivity|].
  all: side; repeat split; by rewrite <- !app_assoc.
Qed.

Lemma setups srvs : ∀ s,
  exited s = None →
  ∃ s', exec (LSetup <$> srvs) s = Some s'
    ∧ handlers s' = handlers s ++ registered srvs
    ∧ trace s' = trace s ∧ closing s' = closing s ∧ exited s' = None
    ∧ client s' = client s ∧ clientPromise s' = clientPromise s
    ∧ tasks s' = tasks s ∧ promises s' = promises s.
Proof.
  induction srvs as [|srv srvs IH]; intros s He.
  - exists s. simpl. rewrite app_nil_r. done.
  - destruct (IH (setupGracefulShutdown srv s) He)
      as (s' & H & Hh & Htr & Hc & He' & ? & ? & ? & ?).
    exists s'. split.
    { simpl. eapply exec_step; [by apply step_setup|exact H]. }
    rewrite Hh. simpl. rewrite <- app_assoc. done.
Qed.

(** X14: every call of setupGracefulShutdown adds its listeners to those
    already there: a signal then calls [close] on every server registered,
    in the order of registration, once per registration. *)
Theorem signal_closes_every_server s before srvs sig :
  exited s = None → handlers s = registered before → before ++ srvs ≠ [] →
  ∃ s', exec ((LSetup <$> srvs) ++ [LSignal sig]) s = Some s'
    ∧ handlers s' = registered (before ++ srvs)
    ∧ trace s' = trace s ++ (EvServerClose <$> before ++ srvs)
    ∧ closing s' = closing s ++ before ++ srvs.
Proof.
  intros He Hh Hne.
  destruct (setups srvs s He) as (s1 & H1 & Hh1 & Htr1 & Hc1 & He1 & _).
  rewrite Hh, <- registered_app in Hh1.
  pose proof (listeners_registered sig s1 _ Hh1) as Hl.
  destruct (before ++ srvs) as [|srv rest] eqn:E; [done|].
  eexists. split.
  { erewrite exec_app; [|exact H1].
    eapply exec_step; [by eapply step_signal|reflexivity]. }
  rewrite shutdown_all. simpl. rewrite Hh1, Htr1, Hc1. done.
Qed.

End ShutdownPaths.

Section Instances.

Variables (maxRetries retryDelay : nat).
Variable collectionError : nat → string → string → Value.

Local Abbreviation exec := (exec maxRetries retryDelay collectionError).

(** X15: two objects made by [init] for different urls work on the same
    module variables: once the first has connected, a getDatabase of the
    second is served from that connection, and no client is built for the
    second url. *)
Theorem instances_share_connection s url1 m1 url2 m2 c dbName :
  exited s = None → is_set (clientPromise s) = false →
  let r := length (promises s) in
  let n := length (tasks s) in
  ∃ s1 s2,
    exec [LCall (inst_initializeDatabase (init url1 m1)); LSettle (r + 2) (inl (VConn c));
          LResume n; LResume (S n); LResume n] s = Some s1
    ∧ exec [LCall (inst_getDatabase (init url2 m2) dbName); LResume n; LResume n] s1
      = Some s2
    ∧ status s2 (r + 3) = Some (Fulfilled (VDb c dbName))
    ∧ clients s2 = clients s ++ [(url1, <["maxPoolSize"%string := m1]> defaultOptions)]
    ∧ count is_connect (trace s2) = count is_connect (trace s) + 1.
Proof.
  intros He Hc r n. subst r n.
  destruct (wrapped_connects maxRetries retryDelay collectionError s url1
              (<["maxPoolSize"%string := m1]> defaultOptions) WInitialize c He Hc)
    as (s1 & H1 & Hs1 & Hm1 & Ht1 & Hcl1 & Htr1 & He1 & Hl1).
  destruct (wrapped_memoized maxRetries retryDelay collectionError s1 url2
              (<["maxPoolSize"%string := m2]> defaultOptions) (WGetDatabase dbName)
              _ c He1 Hm1)
    as (s2 & H2 & Hs2 & Hm2 & Ht2 & Hcl2 & Htr2 & He2).
  exists s1, s2. rewrite Ht1 in H2. rewrite Hl1 in Hs2.
  split; [exact H1|]. split; [exact H2|]. split; [exact Hs2|].
  split; [congruence|].
  rewrite Htr2, Htr1. simpl. rewrite app_nil_r, !count_app. simpl.
  change (count is_connect [_; _; _]) with 1. lia.
Qed.

End Instances.

(** ** A failing chain in full, and a caller that arrives during the delay *)

Section FailingChain.

Variables (maxRetries retryDelay : nat).
Variable collectionError : nat → string → string → Value.

Local Abbreviation exec := (exec maxRetries retryDelay collectionError).
Local Abbreviation step := (step maxRetries retryDelay collectionError).

Lemma exhaust_trace k : ∀ i S A X p r url options cid (errs : nat → Value),
  i + k = maxRetries →
  exited S = None →
  client S = SRef cid →
  tasks S = A ++ {| awaiting := p; frame := FConnectAwait url options i r |} :: X →
  promises S !! p = Some {| pkind := PConnect cid; pstatus := Pending |} →
  status S r = Some Pending →
  p ≠ r →
  ∃ ls S',
    answers ls = (λ j, inr (errs j)) <$> seq i (Datatypes.S k)
    ∧ exec ls S = Some S'
    ∧ tasks S' = A ++ X
    ∧ status S' r = Some (Rejected exhausted_error)
    ∧ trace S' = trace S
        ++ failing_chain url options errs retryDelay (length (clients S)) i k
    ∧ clients S' = clients S ++ replicate k (url, options)
    ∧ client S' = match k with
                  | 0 => SRef cid
                  | Datatypes.S k' => SRef (length (clients S) + k')
                  end
    ∧ clientPromise S' = SNull
    ∧ exited S' = None
    ∧ length (promises S) ≤ length (promises S')
    ∧ (∀ q, q < length (promises S) → q ≠ p → q ≠ r →
            promises S' !! q = promises S !! q).
Proof.
  induction k as [|k IH]; intros i S A X p r url options cid errs Hj He Hcl Ht Hp Hr Hne.
  - (* the budget is spent: the failure of this attempt is final *)
    assert (Hrl := status_lt _ _ _ Hr).
    destruct S as [c cp cl ps ts hs cg nw ex tr]; simpl in *; subst.
    unfold status in Hr; simpl in Hr.
    exists [LSettle p (inr (errs i)); LResume (length A)]. eexists.
    split; [done|]. split.
    { eapply exec_step; [eapply step_settle_connect; [done|exact Hp]|settled].
      eapply exec_step; [|reflexivity].
      eapply step_resume; [done|side| |].
      - unfold status; simpl. rewrite list_lookup_alter_eq, Hp. reflexivity.
      - done. }
    simpl. rewrite Nat.add_0_r, Nat.ltb_irrefl. simpl.
    unfold status. simpl. stores.
    repeat split; try done; try len; try (by rewrite app_nil_r).
    + rewrite list_lookup_alter_eq.
      rewrite list_lookup_alter_ne by done.
      destruct (ps !! r); simpl in *; [done|discriminate Hr].
    + intros q Hq Hqp Hqr. by rewrite !list_lookup_alter_ne.
  - (* a retry remains: wait, attempt again, and pass the outcome on *)
    assert (Hrl := status_lt _ _ _ Hr).
    assert (Hpl : p < length (promises S)) by (by eapply lookup_lt_Some).
    assert (Hlt : (i <? maxRetries) = true) by (apply Nat.ltb_lt; lia).
    destruct S as [c cp cl ps ts hs cg nw ex tr]; simpl in *; subst ts ex c.
    unfold status in Hr; simpl in Hr.
    set (t := length ps).
    set (S5 :=
      {| client := SRef (length cl);
         clientPromise := SRef (t + 2);
         clients := cl ++ [(url, options)];
         promises :=
           alter (λ pr, {| pkind := pkind pr; pstatus := Rejected (errs i) |}) p ps
           ++ [{| pkind := PTimer (nw + retryDelay); pstatus := Fulfilled VUndefined |};
               {| pkind := PAsync; pstatus := Pending |};
               {| pkind := PConnect (length cl); pstatus := Pending |}];
         tasks := (A ++ X)
           ++ {| awaiting := t + 2; frame := FConnectAwait url options (Datatypes.S i) (t + 1) |}
           :: [{| awaiting := t + 1; frame := FForward r |}];
         handlers := hs; closing := cg; now := nw + retryDelay; exited := None;
         trace := tr ++ [EvLog (LogInitialFailed (errs i));
                         EvLog (LogRetry (Datatypes.S i) retryDelay);
                         EvSetTimeout retryDelay;
                         EvNewClient (length cl) url options;
                         EvConnect (length cl)] |}).
    assert (H5 : exec [LSettle p (inr (errs i)); LResume (length A);
                       LAdvance retryDelay; LTimer t; LResume (length (A ++ X))]
                   {| client := SRef cid; clientPromise := cp; clients := cl;
                      promises := ps;
                      tasks := A ++ {| awaiting := p; frame := FConnectAwait url options i r |} :: X;
                      handlers := hs; closing := cg; now := nw; exited := None; trace := tr |}
                 = Some S5).
    { eapply exec_step; [eapply step_settle_connect; [done|exact Hp]|settled].
      eapply exec_step.
      { eapply step_resume; [done|side| |].
        - unfold status; simpl. rewrite list_lookup_alter_eq, Hp. reflexivity.
        - done. }
      settled. rewrite Hlt. settled.
      fire_advance. fire_timer. fire_resume.
      apply exec_nil_eq. unfold S5, t.
      f_equal; rewrite <- ?app_assoc; simpl; repeat f_equal; len. }
    assert (Hp5 : promises S5 !! (t + 2)
                  = Some {| pkind := PConnect (length cl); pstatus := Pending |}).
    { simpl. rewrite lookup_app_r by len.
      rewrite length_alter. by replace (t + 2 - length ps) with 2 by (unfold t; lia). }
    assert (Hr5 : status S5 (t + 1) = Some Pending).
    { unfold status. simpl. rewrite lookup_app_r by len.
      rewrite length_alter. by replace (t + 1 - length ps) with 1 by (unfold t; lia). }
    destruct (IH (Datatypes.S i) S5 (A ++ X) [{| awaiting := t + 1; frame := FForward r |}]
                (t + 2) (t + 1) url options (length cl) errs)
      as (ls & S6 & Hls & H6 & Ht6 & Hs6 & Htr6 & Hcl6 & Hc6 & Hcp6 & He6 & Hl6 & Hq6);
      [lia|done|done|done|exact Hp5|exact Hr5|lia|].
    assert (Hr6 : status S6 r = Some Pending).
    { unfold status. rewrite Hq6; [|simpl; len|unfold t; lia|unfold t; lia].
      simpl. rewrite lookup_app_l by len.
      rewrite list_lookup_alter_ne by done. exact Hr. }
    exists ([LSettle p (inr (errs i)); LResume (length A);
             LAdvance retryDelay; LTimer t; LResume (length (A ++ X))]
            ++ ls ++ [LResume (length (A ++ X))]).
    eexists. split.
    { rewrite !answers_app, Hls. simpl. by rewrite app_nil_r. }
    split.
    { erewrite exec_app; [|exact H5]. erewrite exec_app; [|exact H6].
      eapply exec_step; [|reflexivity].
      eapply step_resume with (tk := {| awaiting := t + 1; frame := FForward r |});
        [done| |exact Hs6|done].
      rewrite Ht6. by rewrite list_lookup_middle. }
    simpl. rewrite Ht6, delete_middle, app_nil_r.
    repeat split; try done.
    + apply status_settle_eq. by eapply status_lt.
    + rewrite Htr6. simpl. rewrite <- app_assoc. simpl. repeat f_equal.
      rewrite length_app. simpl. lia.
    + rewrite Hcl6. simpl. by rewrite <- app_assoc.
    + rewrite Hc6. simpl. rewrite length_app. simpl.
      destruct k; f_equal; lia.
    + rewrite length_alter. etrans; [|exact Hl6]. simpl. len.
    + intros q Hq Hqp Hqr. rewrite list_lookup_alter_ne by done.
      rewrite Hq6; [|simpl; len|unfold t; lia|unfold t; lia].
      simpl. rewrite lookup_app_l by len. by rewrite list_lookup_alter_ne.
Qed.

(** X16: a chain against a driver that fails every attempt, in full: each
    failure is written to the console with the driver's error, the last one
    included; retries 1 to [maxRetries] are announced, each after a timer of
    [retryDelay]; every attempt builds a new client with the same url and
    options and no failed client is closed.  Afterwards [client] still holds
    the last client built and [clientPromise] is [null]. *)
Theorem failing_chain_trace s url options (errs : nat → Value) :
  exited s = None → is_set (clientPromise s) = false →
  let c0 := length (clients s) in
  ∃ ls s',
    answers ls = (λ j, inr (errs j)) <$> seq 0 (S maxRetries)
    ∧ exec (LCall (OpConnect url options) :: ls) s = Some s'
    ∧ status s' (length (promises s)) = Some (Rejected exhausted_error)
    ∧ trace s' = trace s ++ [EvNewClient c0 url options; EvConnect c0]
        ++ failing_chain url options errs retryDelay (S c0) 0 maxRetries
    ∧ clients s' = clients s ++ replicate (S maxRetries) (url, options)
    ∧ client s' = SRef (c0 + maxRetries)
    ∧ clientPromise s' = SNull.
Proof.
  intros He Hc c0. subst c0.
  pose proof (connect_fresh s url options 0 Hc) as Hf.
  set (S1 := (connectToDatabase url options 0 s).2).
  assert (E1 : S1 = (connectToDatabase url options 0 s).2) by done.
  rewrite Hf in E1. simpl in E1.
  destruct (exhaust_trace maxRetries 0 S1 (tasks s) [] (S (length (promises s)))
              (length (promises s)) url options (length (clients s)) errs)
    as (ls & s' & Hls & H & Ht & Hs & Htr & Hcl & Hcli & Hcp & _);
    rewrite ?E1; simpl; try done; try lia.
  { rewrite lookup_app_r by lia. by rewrite Nat.sub_succ_l, Nat.sub_diag. }
  { unfold status. simpl. by rewrite list_lookup_middle. }
  exists ls, s'. split; [done|]. split.
  { eapply exec_step; [by eapply step_call|]. exact H. }
  rewrite E1 in Htr, Hcl, Hcli. simpl in Htr, Hcl, Hcli.
  rewrite length_app in Htr, Hcli. simpl in Htr, Hcli.
  repeat split; try done.
  - rewrite Htr, <- app_assoc. simpl. repeat f_equal. lia.
  - rewrite Hcl, <- app_assoc. done.
  - rewrite Hcli. destruct maxRetries; f_equal; lia.
Qed.

End FailingChain.

Section Adoption.

Variables (maxRetries retryDelay : nat).
Variable collectionError : nat → string → string → Value.

Local Abbreviation exec := (exec maxRetries retryDelay collectionError).

(** X17: a caller that arrives while a chain waits for its retry timer
    finds no promise and starts an attempt of its own; when the chain wakes
    it finds that promise and adopts it instead of making its retry.  If
    the attempt then fails, the chain is rejected with the driver's error of
    that attempt, although it had retries left. *)
Theorem waking_chain_adopts_attempt s urlA optA urlB optB e0 e1 :
  exited s = None → is_set (clientPromise s) = false → 0 < maxRetries →
  let r := length (promises s) in
  let n := length (tasks s) in
  ∃ s', exec (call_during_retry_delay urlA urlB optA optB e0 e1 retryDelay r n) s = Some s'
    ∧ status s' r = Some (Rejected e1)
    ∧ status s' (r + 3) = Some Pending
    ∧ count is_connect (trace s') = count is_connect (trace s) + 2
    ∧ clients s' = clients s ++ [(urlA, optA); (urlB, optB)].
Proof.
  intros He Hc Hm r n. subst r n.
  assert (Hlt : (0 <? maxRetries) = true) by (by apply Nat.ltb_lt).
  destruct s as [c cp cl ps ts hs cg nw ex tr]; simpl in *; subst.
  unfold call_during_retry_delay.
  destruct cp; try discriminate Hc.
  all: eexists; split;
    [fire_call; fire_connect; fire_resume; rewrite Hlt; settled;
     fire_call; fire_advance; fire_timer; fire_resume;
     fire_connect; fire_resume; rewrite Hlt; settled;
     fire_resume; fire_resume; reflexivity|].
  all: side.
  all: repeat split; try (by rewrite <- !app_assoc).
  all: rewrite !count_app; simpl; unfold count; simpl; lia.
Qed.

End Adoption.

(** ** Instances of the theorems above *)

Lemma retries_stay_in_range_witness :
  ∃ s, exec MAX_RETRIES RETRY_DELAY no_error first_attempt_fails init_state = Some s
    ∧ Forall (λ tk, retries_in_range MAX_RETRIES tk = true) (tasks s)
    ∧ Forall (λ e, backoff_fixed MAX_RETRIES RETRY_DELAY e = true) (trace s).
Proof.
  eexists. split; [vm_compute; reflexivity|].
  refine (let H := retries_stay_in_range MAX_RETRIES RETRY_DELAY no_error _ _ in
          conj (proj1 H) (proj1 (proj2 H))).
  exists first_attempt_fails. vm_compute. reflexivity.
Defined.

Lemma every_client_is_connected_once_witness :
  ∃ s, exec MAX_RETRIES RETRY_DELAY no_error joined_then_retried init_state = Some s
    ∧ filter (λ e, is_construction e = true) (trace s) = constructions (clients s).
Proof.
  eexists. split; [vm_compute; reflexivity|].
  refine (proj1 (every_client_is_connected_once MAX_RETRIES RETRY_DELAY no_error _ _)).
  exists joined_then_retried. vm_compute. reflexivity.
Defined.

Lemma one_attempt_in_flight_witness :
  ∃ s, exec MAX_RETRIES RETRY_DELAY no_error
         (join_all [("mongodb://db:27017"%string, ∅); ("mongodb://other:27017"%string, ∅)])
         init_state = Some s
    ∧ clientPromise s = SRef 1.
Proof.
  eexists. split; [vm_compute; reflexivity|].
  refine (proj2 (one_attempt_in_flight MAX_RETRIES RETRY_DELAY no_error
                   (join_all [("mongodb://db:27017"%string, ∅);
                              ("mongodb://other:27017"%string, ∅)])
                   _ eq_refl _ 1 1 0 0 _ _)).
  - vm_compute. reflexivity.
  - reflexivity.
  - reflexivity.
Defined.

Lemma connection_is_kept_witness :
  ∃ s', exec MAX_RETRIES RETRY_DELAY no_error
          [LCall (OpGetDatabase "mongodb://other:27017" ∅ "app"); LResume 0; LResume 0]
          connected_state = Some s'
    ∧ memoized s' 1 (VConn 0) ∧ clients s' = clients connected_state.
Proof.
  eexists. split; [vm_compute; reflexivity|].
  refine (let H := connection_is_kept MAX_RETRIES RETRY_DELAY no_error connected_state
                     1 (VConn 0)
                     [LCall (OpGetDatabase "mongodb://other:27017" ∅ "app");
                      LResume 0; LResume 0] _
                     eq_refl eq_refl eq_refl (conj eq_refl eq_refl) eq_refl _ in
          conj (proj1 H) (proj1 (proj2 (proj2 H)))).
  vm_compute. reflexivity.
Defined.

Lemma recovers_after_failures_witness :
  ∃ ls s' p,
    answers ls = fails_then (λ _, VError "ECONNREFUSED") 0 2 (VConn 0)
    ∧ exec MAX_RETRIES RETRY_DELAY no_error
        (LCall (OpConnect "mongodb://db:27017" ∅) :: ls) init_state = Some s'
    ∧ status s' 0 = Some (Fulfilled (VConn 0))
    ∧ memoized s' p (VConn 0)
    ∧ count is_connect (trace s') = 3.
Proof.
  destruct (recovers_after_failures MAX_RETRIES RETRY_DELAY no_error init_state
              "mongodb://db:27017" ∅ (λ _, VError "ECONNREFUSED") (VConn 0) 2
              eq_refl eq_refl)
    as (ls & s' & p & Ha & H & Hs & Hm & _ & Hc & _).
  { unfold MAX_RETRIES. lia. }
  exists ls, s', p. repeat split; assumption || apply Hm.
Defined.





Lemma never_closes_without_signal_witness :
  filter (λ e, is_shutdown_event e = true) (trace connected_state) = []
  ∧ client connected_state ≠ SNull.
Proof.
  refine (let H := never_closes_without_signal MAX_RETRIES RETRY_DELAY no_error
                     connect_ok connected_state eq_refl _ in
          conj (proj1 (proj2 (proj2 H))) (proj2 (proj2 (proj2 H)))).
  vm_compute. reflexivity.
Defined.

Lemma signals_handled_alike_witness :
  exec MAX_RETRIES RETRY_DELAY no_error
    [LSignal SIGTERM; LServerClosed 0; LResume 0] (setupGracefulShutdown 0 init_state)
  = exec MAX_RETRIES RETRY_DELAY no_error
      [LSignal SIGINT; LServerClosed 0; LResume 0] (setupGracefulShutdown 0 init_state).
Proof.
  refine (proj2 (signals_handled_alike MAX_RETRIES RETRY_DELAY no_error
                   (setupGracefulShutdown 0 init_state) _) _).
  exists [LSetup 0]. vm_compute. reflexivity.
Defined.

Lemma signal_closes_every_server_witness :
  ∃ s', exec MAX_RETRIES RETRY_DELAY no_error
          ((LSetup <$> [7; 7]) ++ [LSignal SIGINT]) init_state = Some s'
    ∧ trace s' = trace init_state ++ (EvServerClose <$> [] ++ [7; 7]).
Proof.
  destruct (signal_closes_every_server MAX_RETRIES RETRY_DELAY no_error init_state
              [] [7; 7] SIGINT eq_refl eq_refl) as (s' & H & _ & Ht & _).
  { discriminate. }
  exists s'. split; assumption.
Defined.

Lemma shutdown_without_client_witness :
  ∃ s', exec MAX_RETRIES RETRY_DELAY no_error
          [LSetup 0; LSignal SIGTERM; LServerClosed 0; LResume (length (tasks init_state))]
          init_state = Some s'
    ∧ exited s' = Some 0%Z.
Proof.
  destruct (shutdown_without_client MAX_RETRIES RETRY_DELAY no_error init_state 0 SIGTERM
              eq_refl eq_refl eq_refl eq_refl) as (s' & H & _ & He & _).
  exists s'. split; assumption.
Defined.

Lemma shutdown_stops_at_failed_close_witness :
  ∃ s', exec MAX_RETRIES RETRY_DELAY no_error
          [LSetup 0; LSignal SIGTERM; LServerClosed 0;
           LSettle 3 (inr (VError "close failed")); LResume 0; LResume 0]
          connected_state = Some s'
    ∧ exited s' = None.
Proof.
  destruct (shutdown_stops_at_failed_close MAX_RETRIES RETRY_DELAY no_error connected_state
              0 SIGTERM 0 (VError "close failed") eq_refl eq_refl eq_refl eq_refl)
    as (s' & H & _ & _ & He & _).
  exists s'. split; assumption.
Defined.

Lemma instances_share_connection_witness :
  ∃ s1 s2,
    exec MAX_RETRIES RETRY_DELAY no_error
      [LCall (inst_initializeDatabase (init "mongodb://a:27017" (VNum 5)));
       LSettle (0 + 2) (inl (VConn 0)); LResume 0; LResume 1; LResume 0]
      init_state = Some s1
    ∧ exec MAX_RETRIES RETRY_DELAY no_error
        [LCall (inst_getDatabase (init "mongodb://b:27017" (VNum 50)) "app");
         LResume 0; LResume 0] s1 = Some s2
    ∧ status s2 (0 + 3) = Some (Fulfilled (VDb 0 "app")).
Proof.
  destruct (instances_share_connection MAX_RETRIES RETRY_DELAY no_error init_state
              "mongodb://a:27017" (VNum 5) "mongodb://b:27017" (VNum 50) 0 "app"
              eq_refl eq_refl) as (s1 & s2 & H1 & H2 & Hs & _).
  exists s1, s2. repeat split; assumption.
Defined.

Lemma failing_chain_trace_witness :
  ∃ ls s',
    exec MAX_RETRIES RETRY_DELAY no_error
      (LCall (OpConnect "mongodb://db:27017" ∅) :: ls) init_state = Some s'
    ∧ status s' 0 = Some (Rejected exhausted_error)
    ∧ client s' = SRef (0 + MAX_RETRIES) ∧ clientPromise s' = SNull.
Proof.
  destruct (failing_chain_trace MAX_RETRIES RETRY_DELAY no_error init_state
              "mongodb://db:27017" ∅ (λ _, VError "ECONNREFUSED") eq_refl eq_refl)
    as (ls & s' & _ & H & Hs & _ & _ & Hc & Hp).
  exists ls, s'. repeat split; assumption.
Defined.

Lemma waking_chain_adopts_attempt_witness :
  ∃ s', exec MAX_RETRIES RETRY_DELAY no_error
          (call_during_retry_delay "mongodb://db:27017" "mongodb://db:27017" ∅ ∅
             (VError "ECONNREFUSED") (VError "ETIMEDOUT") RETRY_DELAY 0 0)
          init_state = Some s'
    ∧ status s' 0 = Some (Rejected (VError "ETIMEDOUT")).
Proof.
  destruct (waking_chain_adopts_attempt MAX_RETRIES RETRY_DELAY no_error init_state
              "mongodb://db:27017" ∅ "mongodb://db:27017" ∅
              (VError "ECONNREFUSED") (VError "ETIMEDOUT") eq_refl eq_refl)
    as (s' & H & Hs & _).
  { unfold MAX_RETRIES. lia. }
  exists s'. split; assumption.
Defined.
